(** * A shallow embedding of libsais-packed (libsais16x64 and the sparse
    suffix-array driver) and proofs about it.

    Conventions of the embedding:
    - C arrays are modelled as total maps [array := Z -> Z] (a flat memory
      region indexed by C indices), updated with [upd]; a list is used where
      the code builds a fresh, length-bounded buffer;
    - [int64_t] values are integers in [-2^63, 2^63), [uint64_t] values are
      integers in [0, 2^64); wrap-around is written out ([wrap_s64],
      [wrap_u64]);
    - C shifts by a count outside [0, 64) are undefined behaviour; where a
      definition can reach one it returns [None]. *)

From Stdlib Require Import ZArith List Lia Lra Bool Reals Permutation Sorted.
Import ListNotations.

Open Scope Z_scope.

(* ------------------------------------------------------------------ *)
(** ** Machine integers and arrays *)

Definition array := Z -> Z.

Definition upd (a : array) (k v : Z) : array :=
  fun x => if Z.eq_dec x k then v else a x.

Definition SAINT_BIT : Z := 64.
Definition SAINT_MAX : Z := 2 ^ 63 - 1.
Definition SAINT_MIN : Z := - 2 ^ 63.
Definition ALPHABET_SIZE : Z := 65536.

(** Two's-complement view of a 64-bit pattern (conversion to [int64_t]). *)
Definition wrap_s64 (x : Z) : Z :=
  let y := x mod 2 ^ 64 in if 2 ^ 63 <=? y then y - 2 ^ 64 else y.

(** Arithmetic on [uint64_t] / [fast_uint_t]. *)
Definition wrap_u64 (x : Z) : Z := x mod 2 ^ 64.

Definition BUCKETS_INDEX2 (c s : Z) : Z := Z.shiftl c 1 + s.
Definition BUCKETS_INDEX4 (c s : Z) : Z := Z.shiftl c 2 + s.

(* ------------------------------------------------------------------ *)
(** ** libsais16x64: the public entry point (libsais16x64.c) *)

(** The memory the entry point can touch: the text [T], the output array
    [SA] and the frequency table [freq]. *)
Record sais_mem := { mem_T : array; mem_SA : array; mem_freq : array }.

Section Entry.

(** [libsais16x64_main(T, SA, n, 0, 0, NULL, fs, freq)]: the construction
    proper, which the argument checks guard; it returns the result code and
    the memory after the call. *)
Variable libsais16x64_main :
  Z -> Z -> bool -> sais_mem -> Z * sais_mem.

(** [int64_t libsais16x64(const uint16_t *T, int64_t *SA, int64_t n,
    int64_t fs, int64_t *freq)]; the flags [T_null], [SA_null] and
    [freq_null] say which pointers are [NULL]. *)
Definition libsais16x64 (T_null SA_null freq_null : bool) (n fs : Z)
    (mem : sais_mem) : Z * sais_mem :=
  if T_null || SA_null || (n <? 0) || (fs <? 0) then (-1, mem)
  else if n <? 2 then
    let freq1 :=
      if freq_null then mem_freq mem
      else fun c => if (0 <=? c) && (c <? ALPHABET_SIZE) then 0
                    else mem_freq mem c in
    if n =? 1 then
      let c := mem_T mem 0 in
      (0, {| mem_T := mem_T mem;
             mem_SA := upd (mem_SA mem) 0 0;
             mem_freq := if freq_null then freq1
                         else upd freq1 c (freq1 c + 1) |})
    else (0, {| mem_T := mem_T mem; mem_SA := mem_SA mem;
                mem_freq := freq1 |})
  else libsais16x64_main n fs freq_null mem.

End Entry.

(* ------------------------------------------------------------------ *)
(** ** Partial-order induction of the 16-bit level (libsais16x64.c) *)

(** State threaded through a partial-sorting scan: the suffix array, the
    bucket array (one allocation of [8 * ALPHABET_SIZE] counters; the scans
    address regions of it by offset) and the distinct-name counter [d]. *)
Record pstate := { ps_SA : array; ps_buckets : array; ps_d : Z }.

(** The tag written with an induced suffix:
    [(sa_sint_t)(distinct_names[v] != d) << (SAINT_BIT - 1)]. *)
Definition name_tag (dn d : Z) : Z :=
  wrap_s64 (Z.shiftl (Z.b2z (negb (dn =? d))) (SAINT_BIT - 1)).

(** One iteration of [libsais16x64_partial_sorting_scan_left_to_right_16u]
    at slot [i]; [induction_bucket = &buckets[4 * ALPHABET_SIZE]],
    [distinct_names = &buckets[2 * ALPHABET_SIZE]]. *)
Definition l2r_step (T : array) (st : pstate) (i : Z) : pstate :=
  let SA := ps_SA st in
  let B := ps_buckets st in
  let p0 := SA i in
  let d := ps_d st + Z.b2z (p0 <? 0) in
  let p := Z.land p0 SAINT_MAX in
  let v := BUCKETS_INDEX2 (T (p - 1)) (Z.b2z (T (p - 2) >=? T (p - 1))) in
  let ib := 4 * ALPHABET_SIZE + v in
  let dn := 2 * ALPHABET_SIZE + v in
  let pos := B ib in
  let SA' := upd SA pos (Z.lor (p - 1) (name_tag (B dn) d)) in
  let B' := upd (upd B ib (pos + 1)) dn d in
  {| ps_SA := SA'; ps_buckets := B'; ps_d := d |}.

(** One iteration of [libsais16x64_partial_sorting_scan_right_to_left_16u]
    at slot [i]; [induction_bucket = &buckets[0]],
    [distinct_names = &buckets[2 * ALPHABET_SIZE]]. *)
Definition r2l_step (T : array) (st : pstate) (i : Z) : pstate :=
  let SA := ps_SA st in
  let B := ps_buckets st in
  let p0 := SA i in
  let d := ps_d st + Z.b2z (p0 <? 0) in
  let p := Z.land p0 SAINT_MAX in
  let v := BUCKETS_INDEX2 (T (p - 1)) (Z.b2z (T (p - 2) >? T (p - 1))) in
  let ib := v in
  let dn := 2 * ALPHABET_SIZE + v in
  let pos := B ib - 1 in
  let SA' := upd SA pos (Z.lor (p - 1) (name_tag (B dn) d)) in
  let B' := upd (upd B ib pos) dn d in
  {| ps_SA := SA'; ps_buckets := B'; ps_d := d |}.

(** The two loops of the left-to-right scan: the main loop handles two
    slots per iteration (the prefetches have no effect on the state), the
    second loop the remaining slots; [fuel] only bounds the recursion. *)
Fixpoint l2r_loop2 (fuel : nat) (T : array) (st : pstate) (i j : Z)
    : pstate * Z :=
  match fuel with
  | O => (st, i)
  | S f =>
      if i <? j then l2r_loop2 f T (l2r_step T (l2r_step T st i) (i + 1)) (i + 2) j
      else (st, i)
  end.

Fixpoint l2r_loop1 (fuel : nat) (T : array) (st : pstate) (i j : Z)
    : pstate * Z :=
  match fuel with
  | O => (st, i)
  | S f => if i <? j then l2r_loop1 f T (l2r_step T st i) (i + 1) j else (st, i)
  end.

Definition partial_sorting_scan_left_to_right_16u (T : array) (st : pstate)
    (block_start block_size : Z) : pstate :=
  let prefetch_distance := 32 in
  let fuel := S (Z.to_nat block_size) in
  let j := block_start + block_size - prefetch_distance - 1 in
  let '(st1, i1) := l2r_loop2 fuel T st block_start j in
  fst (l2r_loop1 fuel T st1 i1 (j + prefetch_distance + 1)).

Fixpoint r2l_loop2 (fuel : nat) (T : array) (st : pstate) (i j : Z)
    : pstate * Z :=
  match fuel with
  | O => (st, i)
  | S f =>
      if j <=? i then r2l_loop2 f T (r2l_step T (r2l_step T st i) (i - 1)) (i - 2) j
      else (st, i)
  end.

Fixpoint r2l_loop1 (fuel : nat) (T : array) (st : pstate) (i j : Z)
    : pstate * Z :=
  match fuel with
  | O => (st, i)
  | S f => if j <=? i then r2l_loop1 f T (r2l_step T st i) (i - 1) j else (st, i)
  end.

Definition partial_sorting_scan_right_to_left_16u (T : array) (st : pstate)
    (block_start block_size : Z) : pstate :=
  let prefetch_distance := 32 in
  let fuel := S (Z.to_nat block_size) in
  let j := block_start + prefetch_distance + 1 in
  let '(st1, i1) := r2l_loop2 fuel T st (block_start + block_size - 1) j in
  fst (r2l_loop1 fuel T st1 i1 (j - (prefetch_distance + 1))).

(** Reference iteration: one step per slot, in scan order. *)
Fixpoint l2r_steps (T : array) (st : pstate) (i : Z) (cnt : nat) : pstate :=
  match cnt with
  | O => st
  | S c => l2r_steps T (l2r_step T st i) (i + 1) c
  end.

Fixpoint r2l_steps (T : array) (st : pstate) (i : Z) (cnt : nat) : pstate :=
  match cnt with
  | O => st
  | S c => r2l_steps T (r2l_step T st i) (i - 1) c
  end.

(* ------------------------------------------------------------------ *)
(** ** Bit-packing of the text (src/bitpacking.c) *)

(** [x << s] on a C [int]: the shift is undefined when [s] is outside
    [[0, 32)] or when the result does not fit in an [int]. *)
Definition int_shl (x s : Z) : option Z :=
  if (0 <=? s) && (s <? 32) && (0 <=? x) && (x * 2 ^ s <? 2 ^ 31)
  then Some (x * 2 ^ s) else None.

(** [text[idx]]: reading outside the buffer is undefined. *)
Definition read_text (text : list Z) (idx : Z) : option Z :=
  if idx <? 0 then None else nth_error text (Z.to_nat idx).

(** [rank_c << s] in the packers: a [uint8_t] or [uint16_t] rank is
    promoted to [int] ([int_shl]); a [uint32_t] rank is shifted as an
    unsigned [int], modulo [2 ^ 32], defined for [0 <= s < 32]. *)
Definition elem_shl (W x s : Z) : option Z :=
  if W =? 32 then
    if (0 <=? s) && (s <? 32) then Some ((x * 2 ^ s) mod 2 ^ 32) else None
  else int_shl x s.

(** The inner loop [for (j = 0; j < cnt; j++) element |= rank_c << (bits *
    (k - 1 - j))] of one packed symbol, on an element of [W] bits
    (the [|=] goes through [int] and is truncated back to [W] bits). *)
Fixpoint pack_group (W : Z) (char_to_rank : Z -> Z) (bits k : Z)
    (text : list Z) (ti j : Z) (fuel : nat) (element : Z) : option Z :=
  match fuel with
  | O => Some element
  | S f =>
      match read_text text (ti + j) with
      | None => None
      | Some c =>
          match elem_shl W (char_to_rank c) (bits * (k - 1 - j)) with
          | None => None
          | Some x =>
              pack_group W char_to_rank bits k text ti (j + 1) f
                (Z.lor element x mod 2 ^ W)
          end
      end
  end.

(** The loop over the full symbols [i < packed_len - 1]. *)
Fixpoint pack_full_groups (W : Z) (char_to_rank : Z -> Z) (bits k : Z)
    (text : list Z) (i : Z) (fuel : nat) : option (list Z) :=
  match fuel with
  | O => Some nil
  | S f =>
      match pack_group W char_to_rank bits k text (i * k) 0 (Z.to_nat k) 0,
            pack_full_groups W char_to_rank bits k text (i + 1) f with
      | Some e, Some rest => Some (e :: rest)
      | _, _ => None
      end
  end.

(** [bitpack_text_W(text, text_len, k, packed_len, char_to_rank, bits)] for
    an element type of [W] bits: [calloc] the output, return it as is for an
    empty text, pack the full symbols, then the last one from
    [last_el_start = k * (packed_len - 1)] for [(text_len - 1) % k + 1]
    characters.  A zero [packed_len] makes [packed_len - 1] wrap around
    and a zero [k] divides by zero: both are undefined. *)
Definition bitpack_text (W : Z) (text : list Z) (text_len k packed_len : Z)
    (char_to_rank : Z -> Z) (bits : Z) : option (list Z) :=
  if text_len =? 0 then Some (repeat 0 (Z.to_nat packed_len))
  else if (packed_len <=? 0) || (k =? 0) then None
  else
    match pack_full_groups W char_to_rank bits k text 0 (Z.to_nat (packed_len - 1)),
          pack_group W char_to_rank bits k text (k * (packed_len - 1)) 0
            (Z.to_nat ((text_len - 1) mod k + 1)) 0 with
    | Some full, Some last => Some (full ++ last :: nil)
    | _, _ => None
    end.

Definition bitpack_text_8 := bitpack_text 8.
Definition bitpack_text_16 := bitpack_text 16.
Definition bitpack_text_32 := bitpack_text 32.

(** The packed value of [cnt] characters from [start]:
    [sum (j < cnt) rank(text[start + j]) * 2 ^ (b * (k - 1 - j))]. *)
Fixpoint group_sum (rank : Z -> Z) (b k : Z) (text : list Z) (start : Z)
    (cnt : nat) : Z :=
  match cnt with
  | O => 0
  | S j =>
      group_sum rank b k text start j
      + rank (nth (Z.to_nat (start + Z.of_nat j)) text 0)
        * 2 ^ (b * (k - 1 - Z.of_nat j))
  end.

(** [get_rank_dna] of src/bitpacking.c. *)
Definition get_rank_dna (c : Z) : Z :=
  if c =? 36 then 0        (* '$' *)
  else if c =? 65 then 0   (* 'A' *)
  else if c =? 67 then 1   (* 'C' *)
  else if c =? 71 then 2   (* 'G' *)
  else if c =? 84 then 3   (* 'T' *)
  else 0.

(** ** The output header (src/main.c, [write_sa]) *)

(** Rounding of a real to the nearest binary64 double, ties to even: the
    value is scaled by the unit in the last place [u = 2 ^ (e - 52)] of its
    binade [[2 ^ e, 2 ^ (e + 1))], rounded to an integer significand and
    scaled back.  Only normal finite values arise below (0, or values
    between [2 ^ -1] and [2 ^ 64]), so subnormals and overflow are not
    modelled. *)
Section Double.
Local Open Scope R_scope.

Definition round_pos53 (y : R) : R :=
  let e := Int_part (ln y / ln 2) in
  let u := powerRZ 2 (e - 52) in
  let m := y / u in
  let f := Int_part m in
  let q := if Rlt_dec (m - IZR f) (/ 2) then f
           else if Rlt_dec (/ 2) (m - IZR f) then (f + 1)%Z
           else if Z.even f then f else (f + 1)%Z in
  IZR q * u.

Definition round_double (y : R) : R :=
  if Rlt_dec 0 y then round_pos53 y
  else if Rlt_dec y 0 then - round_pos53 (- y)
  else 0.

End Double.

(** [bits_per_element] of [write_sa]: [64], or, when [compressed > 0],
    [(uint8_t) log2(sa_length * sparseness_factor) + 1].  The product is a
    [size_t] product and wraps modulo [2 ^ 64]; it is converted to a
    [double] (rounded to nearest), [log2] returns the correctly rounded
    base-2 logarithm of that double (as IEEE 754 recommends), and the
    conversion to [uint8_t] truncates the non-negative result towards zero;
    the [+ 1] is stored back in a [uint8_t].  [log2(0)] is minus infinity,
    whose conversion to an integer type is undefined. *)
Definition bits_per_element_of (sparseness_factor sa_length compressed : Z)
    : option Z :=
  if 0 <? compressed then
    let x := wrap_u64 (sa_length * sparseness_factor) in
    if x =? 0 then None
    else
      let d := round_double (IZR x) in
      let l := round_double (ln d / ln 2) in
      Some ((Int_part l + 1) mod 256)
  else Some 64.

(** The eight bytes of a [uint64_t] as [fwrite] stores them on a
    little-endian machine. *)
Definition le_bytes64 (x : Z) : list Z :=
  map (fun i => Z.shiftr x (8 * Z.of_nat i) mod 256) (seq 0 8).

(** The header bytes [write_sa] writes before the suffix array:
    [bits_per_element], [sparseness_factor], then [sa_length] as a
    [uint64_t]. *)
Definition write_sa_header (sparseness_factor sa_length compressed : Z)
    : option (list Z) :=
  match bits_per_element_of sparseness_factor sa_length compressed with
  | None => None
  | Some bpe => Some (bpe :: sparseness_factor :: le_bytes64 (wrap_u64 sa_length))
  end.

(** ** Bit-compression of the suffix array (src/main.c) *)

(** Conversion to [int8_t] (two's complement wrap-around). *)
Definition wrap_s8 (x : Z) : Z := (x + 128) mod 256 - 128.

(** [x << s] and [x >> s] on a [uint64_t]: undefined unless
    [0 <= s < 64]. *)
Definition u64_shl (x s : Z) : option Z :=
  if (0 <=? s) && (s <? 64) then Some (Z.shiftl x s mod 2 ^ 64) else None.

Definition u64_shr (x s : Z) : option Z :=
  if (0 <=? s) && (s <? 64) then Some (Z.shiftr x s) else None.

(** The locals of [compress_sa] and the array it rewrites in place.
    [element] is an [int64_t] that only meets [uint64_t] operands, so it
    is kept as its 64-bit pattern; [shift_element] is an [int8_t]. *)
Record cstate := {
  cs_sa : array; cs_element : Z; cs_shift : Z; cs_ci : Z
}.

(** One iteration of the loop of [compress_sa], at index [i]: both reads
    of [sa[i]] see the array as it is at that point, after the store of a
    full word into [sa[compressed_i]]. *)
Definition compress_step (b : Z) (st : cstate) (i : Z) : option cstate :=
  match (if cs_shift st <? 0 then
           match u64_shr (cs_sa st i) (-1 * cs_shift st) with
           | None => None
           | Some x =>
               let element := Z.lor (cs_element st) x in
               Some {| cs_sa := upd (cs_sa st) (cs_ci st) element;
                       cs_element := 0;
                       cs_shift := wrap_s8 (cs_shift st + 64);
                       cs_ci := cs_ci st + 1 |}
           end
         else Some st) with
  | None => None
  | Some st1 =>
      match u64_shl (cs_sa st1 i) (cs_shift st1) with
      | None => None
      | Some y =>
          Some {| cs_sa := cs_sa st1;
                  cs_element := Z.lor (cs_element st1) y;
                  cs_shift := wrap_s8 (cs_shift st1 - b);
                  cs_ci := cs_ci st1 |}
      end
  end.

Fixpoint compress_loop (b : Z) (st : cstate) (i : Z) (fuel : nat)
    : option cstate :=
  match fuel with
  | O => Some st
  | S f =>
      match compress_step b st i with
      | None => None
      | Some st' => compress_loop b st' (i + 1) f
      end
  end.

(** [compress_sa(sa, &sa_length, bits_per_element)]: the array after the
    call and the new value of [*sa_length]. *)
Definition compress_sa (sa : array) (sa_length bits_per_element : Z)
    : option (array * Z) :=
  match compress_loop bits_per_element
          {| cs_sa := sa; cs_element := 0;
             cs_shift := wrap_s8 (64 - bits_per_element); cs_ci := 0 |}
          0 (Z.to_nat sa_length) with
  | None => None
  | Some st => Some (upd (cs_sa st) (cs_ci st) (cs_element st), cs_ci st + 1)
  end.

(** The locals of [decompress_sa] and its output buffer. *)
Record dstate := { ds_out : array; ds_start : Z; ds_ci : Z }.

Definition decompress_step (sa : array) (b : Z) (st : dstate) (i : Z)
    : option dstate :=
  match u64_shl (sa (ds_ci st)) (ds_start st) with
  | None => None
  | Some x =>
      match u64_shr x (64 - b) with
      | None => None
      | Some y =>
          let out1 := upd (ds_out st) i (Z.lor (ds_out st i) y) in
          let start1 := wrap_s8 (ds_start st + b) in
          if 64 <=? start1 then
            let ci := ds_ci st + 1 in
            let start2 := wrap_s8 (start1 - 64) in
            if 0 <? start2 then
              match u64_shr (sa ci) (64 - start2) with
              | None => None
              | Some z =>
                  Some {| ds_out := upd out1 i (Z.lor (out1 i) z);
                          ds_start := start2; ds_ci := ci |}
              end
            else Some {| ds_out := out1; ds_start := start2; ds_ci := ci |}
          else Some {| ds_out := out1; ds_start := start1; ds_ci := ds_ci st |}
      end
  end.

Fixpoint decompress_loop (sa : array) (b : Z) (st : dstate) (i : Z)
    (fuel : nat) : option dstate :=
  match fuel with
  | O => Some st
  | S f =>
      match decompress_step sa b st i with
      | None => None
      | Some st' => decompress_loop sa b st' (i + 1) f
      end
  end.

(** [decompress_sa(sa, orig_sa_length, bits_per_element)].  The output
    buffer comes from [malloc] and is not cleared: its initial contents
    are the argument [buffer]. *)
Definition decompress_sa (sa : array) (orig_sa_length bits_per_element : Z)
    (buffer : array) : option array :=
  match decompress_loop sa bits_per_element
          {| ds_out := buffer; ds_start := 0; ds_ci := 0 |}
          0 (Z.to_nat orig_sa_length) with
  | None => None
  | Some st => Some (ds_out st)
  end.

(** The first [n] entries of [sa] as one big-endian stream of [b]-bit
    fields. *)
Fixpoint stream (sa : array) (b : Z) (n : nat) : Z :=
  match n with
  | O => 0
  | S m => stream sa b m * 2 ^ b + sa (Z.of_nat m)
  end.

(** The number of 64-bit words the stream of [L0] fields occupies. *)
Definition packed_words (L0 b : Z) : Z := (L0 * b + 63) / 64.

(** Word [w] of the stream, left-aligned in [packed_words L0 b] words. *)
Definition packed_word (sa : array) (L0 b w : Z) : Z :=
  let W := packed_words L0 b in
  (stream sa b (Z.to_nat L0) * 2 ^ (64 * W - L0 * b)
     / 2 ^ (64 * (W - 1 - w))) mod 2 ^ 64.

(** The invariant of the loop of [compress_sa] before iteration [i]:
    [W = compressed_i + 1] words are open, the completed ones hold the
    leading bits of the stream of the first [i] entries, [element] holds
    the rest left-aligned, and the entries from word [W - 1] on are
    untouched. *)
Definition compress_inv (SA : array) (b i : Z) (st : cstate) : Prop :=
  let W := cs_ci st + 1 in
  0 <= cs_ci st /\ 64 * (W - 1) <= i * b <= 64 * W /\
  (W = 1 \/ 64 * (W - 1) < i * b) /\
  cs_shift st = 64 * W - (i + 1) * b /\
  cs_element st = (stream SA b (Z.to_nat i) * 2 ^ (64 * W - i * b)) mod 2 ^ 64 /\
  (forall w, 0 <= w < W - 1 ->
     cs_sa st w = (stream SA b (Z.to_nat i) / 2 ^ (i * b - 64 * (w + 1))) mod 2 ^ 64) /\
  (forall x, ~ (0 <= x < W - 1) -> cs_sa st x = SA x).

(** The invariant of the loop of [decompress_sa] before iteration [i]. *)
Definition decompress_inv (SA buffer : array) (b i : Z) (st : dstate) : Prop :=
  0 <= ds_start st < 64 /\ 0 <= ds_ci st /\ 64 * ds_ci st + ds_start st = i * b /\
  (forall x, ds_out st x =
     if (0 <=? x) && (x <? i) then Z.lor (buffer x) (SA x) else buffer x).

(** ** The two suffix-array pipelines of the driver (src/main.c) *)

(** Lexicographic order on symbol sequences, a proper prefix first. *)
Fixpoint lex_lt (a b : list Z) : bool :=
  match a, b with
  | nil, nil => false
  | nil, _ :: _ => true
  | _ :: _, nil => false
  | x :: a', y :: b' => (x <? y) || ((x =? y) && lex_lt a' b')
  end.

Definition suffix_lt (xs : list Z) (i j : nat) : bool :=
  lex_lt (skipn i xs) (skipn j xs).

Fixpoint insert_by (lt : nat -> nat -> bool) (x : nat) (l : list nat) : list nat :=
  match l with
  | nil => x :: nil
  | y :: l' => if lt x y then x :: y :: l' else y :: insert_by lt x l'
  end.

Fixpoint isort (lt : nat -> nat -> bool) (l : list nat) : list nat :=
  match l with
  | nil => nil
  | x :: l' => insert_by lt x (isort lt l')
  end.

(** Modelled from the spec: [libsais64] and [libsais32x64] (not in src/)
    return the suffix array of their input, the start positions of its
    suffixes in increasing lexicographic order. *)
Definition suffix_array (xs : list Z) : list Z :=
  map Z.of_nat (isort (suffix_lt xs) (seq 0 (length xs))).

(** ** The packers that [build_sa_optimized] calls
    (src/benchmark_code/src/bitpacking.c)

    [build_sa_optimized] in src/src/main.c calls
    [bitpack_text_8(text, length, sparseness_factor, sa_length, dna)]: the
    signature of the packers of src/benchmark_code/src/bitpacking.c, which
    take the [dna] flag and choose the rank function and the width
    themselves.  Their loops are those of [pack_group] and [bitpack_text]
    above, with [rank_c = dna == 0 ? get_rank(c) : get_rank_dna(c)] and
    [uint32_t bits_per_char = dna > 0 ? BITS_PER_CHAR_DNA : BITS_PER_CHAR].
    The two macros are defined nowhere in the repository; they are
    parameters of the definitions below. *)
Module Bench.

(** [get_rank], with its [uint8_t] result. *)
Definition get_rank (c : Z) : Z :=
  if c =? 36 then 0        (* '$' *)
  else if c =? 45 then 1   (* '-' *)
  else (2 + (c - 65)) mod 256.

(** [get_rank_dna]: a byte other than ['$'], ['A'], ['C'], ['G'], ['T']
    prints a message and reaches the end of the function without a
    [return]; the packer uses the missing value, which is undefined
    ([None]). *)
Definition get_rank_dna (c : Z) : option Z :=
  if c =? 36 then Some 0        (* '$' *)
  else if c =? 65 then Some 0   (* 'A' *)
  else if c =? 67 then Some 1   (* 'C' *)
  else if c =? 71 then Some 2   (* 'G' *)
  else if c =? 84 then Some 3   (* 'T' *)
  else None.

(** [rank_c = dna == 0 ? get_rank(c) : get_rank_dna(c)]. *)
Definition rank_of (dna c : Z) : option Z :=
  if dna =? 0 then Some (get_rank c) else get_rank_dna c.

(** The inner loop over the [k] characters of one packed symbol. *)
Fixpoint pack_group (W dna bits k : Z) (text : list Z) (ti j : Z) (fuel : nat)
    (element : Z) : option Z :=
  match fuel with
  | O => Some element
  | S f =>
      match read_text text (ti + j) with
      | None => None
      | Some c =>
          match rank_of dna c with
          | None => None
          | Some rank_c =>
              match elem_shl W rank_c (bits * (k - 1 - j)) with
              | None => None
              | Some x =>
                  pack_group W dna bits k text ti (j + 1) f (Z.lor element x mod 2 ^ W)
              end
          end
      end
  end.

(** The loop over the full symbols [i < packed_len - 1]. *)
Fixpoint pack_full_groups (W dna bits k : Z) (text : list Z) (i : Z) (fuel : nat)
    : option (list Z) :=
  match fuel with
  | O => Some nil
  | S f =>
      match pack_group W dna bits k text (i * k) 0 (Z.to_nat k) 0,
            pack_full_groups W dna bits k text (i + 1) f with
      | Some e, Some rest => Some (e :: rest)
      | _, _ => None
      end
  end.

(** [bitpack_text_W(text, text_len, k, packed_len, dna)] for an element
    type of [W] bits. *)
Definition bitpack_text (W BITS_PER_CHAR_DNA BITS_PER_CHAR : Z) (text : list Z)
    (text_len k packed_len dna : Z) : option (list Z) :=
  let bits := (if 0 <? dna then BITS_PER_CHAR_DNA else BITS_PER_CHAR) mod 2 ^ 32 in
  if text_len =? 0 then Some (repeat 0 (Z.to_nat packed_len))
  else if (packed_len <=? 0) || (k =? 0) then None
  else
    match pack_full_groups W dna bits k text 0 (Z.to_nat (packed_len - 1)),
          pack_group W dna bits k text (k * (packed_len - 1)) 0
            (Z.to_nat ((text_len - 1) mod k + 1)) 0 with
    | Some full, Some last => Some (full ++ last :: nil)
    | _, _ => None
    end.

Definition bitpack_text_8 := bitpack_text 8.
Definition bitpack_text_16 := bitpack_text 16.
Definition bitpack_text_32 := bitpack_text 32.

End Bench.

(** [sa[i] = v] on an array of [int64_t] held as a list. *)
Fixpoint list_set (l : list Z) (i : nat) (v : Z) : list Z :=
  match l, i with
  | nil, _ => nil
  | _ :: t, O => v :: t
  | h :: t, S i' => h :: list_set t i' v
  end.

(** The sampling loop of [build_sa]:
    [if (sa[i] % k == 0) { sa[ssa_index] = sa[i]; ssa_index++; }]. *)
Fixpoint sample_loop (k : Z) (fuel : nat) (i ssa_index : nat) (sa : list Z) : list Z :=
  match fuel with
  | O => sa
  | S fuel' =>
      let x := nth i sa 0 in
      if Z.rem x k =? 0 then sample_loop k fuel' (S i) (S ssa_index) (list_set sa ssa_index x)
      else sample_loop k fuel' (S i) ssa_index sa
  end.

(** [build_sa]: the suffix array of the bytes, sampled in place when
    [k > 1]. *)
Definition build_sa (text : list Z) (length k : Z) : list Z :=
  let sa := suffix_array (firstn (Z.to_nat length) text) in
  if 1 <? k then sample_loop k (Z.to_nat length) 0 0 sa else sa.

(** [build_sa_optimized], given the two width macros and the suffix array
    that [libsais16x64] returns.  [bits_per_char] is a [uint8_t].  [None]
    stands for an undefined run: a failing packer, [1 << required_bits]
    overflowing an [int], or the [Alphabet too big] branch, which leaves
    [sa] unwritten. *)
Definition build_sa_optimized (BITS_PER_CHAR_DNA BITS_PER_CHAR : Z) (text : list Z)
    (length k sa_length dna : Z) (libsais16x64_sa : list Z -> list Z)
    : option (list Z) :=
  let bits_per_char := (if 0 <? dna then BITS_PER_CHAR_DNA else BITS_PER_CHAR) mod 256 in
  let required_bits := bits_per_char * k in
  let scale sa := if 1 <? k then map (fun x => x * k) sa else sa in
  if k =? 1 then Some (suffix_array (firstn (Z.to_nat sa_length) text))
  else if required_bits <=? 8 then
    match Bench.bitpack_text_8 BITS_PER_CHAR_DNA BITS_PER_CHAR text length (k mod 256)
            sa_length dna with
    | Some packed => Some (scale (suffix_array packed))
    | None => None
    end
  else if required_bits <=? 16 then
    match Bench.bitpack_text_16 BITS_PER_CHAR_DNA BITS_PER_CHAR text length (k mod 256)
            sa_length dna with
    | Some packed => Some (scale (libsais16x64_sa packed))
    | None => None
    end
  else if required_bits <=? 32 then
    match Bench.bitpack_text_32 BITS_PER_CHAR_DNA BITS_PER_CHAR text length (k mod 256)
            sa_length dna,
          int_shl 1 required_bits with
    | Some packed, Some _ => Some (scale (suffix_array packed))
    | _, _ => None
    end
  else None.

(** The same branches when the packers use one total rank function [rank]
    and the width [bits_per_char] (the packers of src/bitpacking.c): the
    form in which [build_sa_optimized] is analysed below. *)
Definition build_sa_ranked (text : list Z) (length k sa_length : Z)
    (rank : Z -> Z) (bits_per_char : Z) (libsais16x64_sa : list Z -> list Z)
    : option (list Z) :=
  let required_bits := bits_per_char * k in
  let scale sa := if 1 <? k then map (fun x => x * k) sa else sa in
  if k =? 1 then Some (suffix_array (firstn (Z.to_nat sa_length) text))
  else if required_bits <=? 8 then
    match bitpack_text_8 text length (k mod 256) sa_length rank bits_per_char with
    | Some packed => Some (scale (suffix_array packed))
    | None => None
    end
  else if required_bits <=? 16 then
    match bitpack_text_16 text length (k mod 256) sa_length rank bits_per_char with
    | Some packed => Some (scale (libsais16x64_sa packed))
    | None => None
    end
  else if required_bits <=? 32 then
    match bitpack_text_32 text length (k mod 256) sa_length rank bits_per_char,
          int_shl 1 required_bits with
    | Some packed, Some _ => Some (scale (suffix_array packed))
    | _, _ => None
    end
  else None.

(** The [sa_length = ceil(length / k)] entries that [main] writes out,
    for the optimized ([-u] absent) and the unoptimized pipeline. *)
Definition ssa_optimized (BITS_PER_CHAR_DNA BITS_PER_CHAR : Z) (text : list Z) (k : Z)
    (dna : Z) (libsais16x64_sa : list Z -> list Z) : option (list Z) :=
  let length := Z.of_nat (List.length text) in
  let sa_length := (length + k - 1) / k in
  option_map (firstn (Z.to_nat sa_length))
    (build_sa_optimized BITS_PER_CHAR_DNA BITS_PER_CHAR text length k sa_length dna
       libsais16x64_sa).

Definition ssa_unoptimized (text : list Z) (k : Z) : list Z :=
  let length := Z.of_nat (List.length text) in
  let sa_length := (length + k - 1) / k in
  firstn (Z.to_nat sa_length) (build_sa text length k).

(** The value of a sequence of base-[B] digits, most significant first:
    the number a packed symbol stands for. *)
Fixpoint digits_val (B : Z) (d : list Z) : Z :=
  match d with
  | nil => 0
  | x :: d' => x * B ^ Z.of_nat (length d') + digits_val B d'
  end.

(** A sequence cut into [c] consecutive blocks of [k]. *)
Fixpoint blocks (k : nat) (l : list Z) (c : nat) : list (list Z) :=
  match c with
  | O => nil
  | S c' => firstn k l :: blocks k (skipn k l) c'
  end.

(** ** The marking of unique LMS names in [T] (32-bit recursive core) *)

(** Suffix types as the classification loops of the 32-bit core compute
    them, scanning from the right with
    [s = (s << 1) + (c0 > (c1 - (s & 1)))], where a set bit marks an
    L-type suffix and position [n - 1] starts as L-type ([s = 1]).
    [ltype_aux T n d] is the bit of position [n - 1 - d]. *)
Fixpoint ltype_aux (T : array) (n : Z) (d : nat) : bool :=
  match d with
  | O => true
  | S d' =>
      let i := n - 1 - Z.of_nat (S d') in
      T (i + 1) - Z.b2z (ltype_aux T n d') <? T i
  end.

Definition ltype (T : array) (n i : Z) : bool := ltype_aux T n (Z.to_nat (n - 1 - i)).

(** Position [p] is gathered as an LMS suffix when [(s & 3) == 1] at
    position [p - 1]: [p - 1] is L-type and [p] is not. *)
Definition is_lms (T : array) (n p : Z) : bool :=
  (0 <? p) && (p <? n) && ltype T n (p - 1) && negb (ltype T n p).

(** State of [libsais16x64_renumber_unique_and_nonunique_lms_suffixes_32s]. *)
Record rstate := mkR { rs_T : array; rs_SA : array; rs_f : Z }.

(** One statement of the loop body at index [i], with [SAm = &SA[m]]:
    [p = (sa_uint_t)SA[i]; s = SAm[p >> 1];
     if (s < 0) { T[p] |= SAINT_MIN; f++; s = i + SAINT_MIN + f; }
     SAm[p >> 1] = s - f;] *)
Definition renumber_step (m : Z) (st : rstate) (i : Z) : rstate :=
  let T := rs_T st in let SA := rs_SA st in let f := rs_f st in
  let p := wrap_u64 (SA i) in
  let s := SA (m + Z.shiftr p 1) in
  if s <? 0 then
    let f' := f + 1 in
    let s' := i + SAINT_MIN + f' in
    mkR (upd T p (Z.lor (T p) SAINT_MIN)) (upd SA (m + Z.shiftr p 1) (s' - f')) f'
  else mkR T (upd SA (m + Z.shiftr p 1) (s - f)) f.

(** The unrolled loop: [for (i = 0, j = m - 2 * 32 - 3; i < j; i += 4)]
    runs the statement at [i + 0 .. i + 3]. *)
Fixpoint renumber_unrolled (m j : Z) (fuel : nat) (st : rstate) (i : Z) : rstate * Z :=
  match fuel with
  | O => (st, i)
  | S fuel' =>
      if i <? j then
        let st1 := renumber_step m st i in
        let st2 := renumber_step m st1 (i + 1) in
        let st3 := renumber_step m st2 (i + 2) in
        let st4 := renumber_step m st3 (i + 3) in
        renumber_unrolled m j fuel' st4 (i + 4)
      else (st, i)
  end.

(** The tail loop: [for (j += 2 * 32 + 3; i < j; i += 1)]. *)
Fixpoint renumber_tail (m j : Z) (fuel : nat) (st : rstate) (i : Z) : rstate :=
  match fuel with
  | O => st
  | S fuel' =>
      if i <? j then renumber_tail m j fuel' (renumber_step m st i) (i + 1)
      else st
  end.

(** [libsais16x64_renumber_unique_and_nonunique_lms_suffixes_32s_omp]
    (block [0, m), [f = 0]): returns the new [T], [SA] and [f]. *)
Definition renumber_unique_and_nonunique_lms_suffixes_32s (T SA : array) (m : Z) : rstate :=
  let j := m - 2 * 32 - 3 in
  let '(st, i) := renumber_unrolled m j (Z.to_nat m) (mkR T SA 0) 0 in
  renumber_tail m (j + 2 * 32 + 3) (Z.to_nat m + 1) st i.

(** State of [libsais16x64_merge_unique_lms_suffixes_32s]: the arrays,
    the index [i], the value [tmp] and the index in [SA] that the pointer
    [SAnm] has reached. *)
Record mstate := mkM { ms_T : array; ms_SA : array; ms_i : Z; ms_tmp : Z; ms_nm : Z }.

(** One check at offset [t]:
    [c = T[i + t]; if (c < 0) { T[i + t] = c & SAINT_MAX; SA[tmp] = i + t;
     i++; tmp = *SAnm++; }] *)
Definition merge_check (t : Z) (st : mstate) : mstate :=
  let i := ms_i st in
  let c := ms_T st (i + t) in
  if c <? 0 then
    let SA' := upd (ms_SA st) (ms_tmp st) (i + t) in
    mkM (upd (ms_T st) (i + t) (Z.land c SAINT_MAX)) SA' (i + 1)
        (SA' (ms_nm st)) (ms_nm st + 1)
  else st.

Definition set_i (st : mstate) (i : Z) : mstate :=
  mkM (ms_T st) (ms_SA st) i (ms_tmp st) (ms_nm st).

(** The unrolled loop [for (i = 0, j = n - 6; i < j; i += 4)] with the
    checks at offsets [0 .. 3]. *)
Fixpoint merge_unrolled (j : Z) (fuel : nat) (st : mstate) : mstate :=
  match fuel with
  | O => st
  | S fuel' =>
      if ms_i st <? j then
        let st' := merge_check 3 (merge_check 2 (merge_check 1 (merge_check 0 st))) in
        merge_unrolled j fuel' (set_i st' (ms_i st' + 4))
      else st
  end.

(** The tail loop [for (j += 6; i < j; i += 1)]. *)
Fixpoint merge_tail (j : Z) (fuel : nat) (st : mstate) : mstate :=
  match fuel with
  | O => st
  | S fuel' =>
      if ms_i st <? j then
        let st' := merge_check 0 st in
        merge_tail j fuel' (set_i st' (ms_i st' + 1))
      else st
  end.

(** [libsais16x64_merge_unique_lms_suffixes_32s_omp T SA n m]: block
    [0, n), [l = 0], [SAnm = &SA[n - m - 1]], [tmp = *SAnm++]. *)
Definition merge_unique_lms_suffixes_32s (T SA : array) (n m : Z) : array * array :=
  let nm := n - m - 1 in
  let st0 := mkM T SA 0 (SA nm) (nm + 1) in
  let st1 := merge_unrolled (n - 6) (Z.to_nat n) st0 in
  let st2 := merge_tail (n - 6 + 6) (Z.to_nat n + 1) st1 in
  (ms_T st2, ms_SA st2).

(** The effect on [T] of the compact path of
    [libsais16x64_main_32s_recursion] (both the 6k and the 1k variant):
    [f = libsais16x64_compact_lms_suffixes_32s_omp(T, SA, n, m, fs)] is
    the only step before the recursive call that writes [T] (its second
    half, the compaction of [SA], and the recursive call write only
    [SA]); after the call, [reconstruct_compacted_lms_suffixes_32s_*]
    runs [merge_compacted_lms_suffixes_32s_omp] only when [f > 0], whose
    first half [merge_unique_lms_suffixes_32s] is the only step that
    writes [T] again. [SA_mid] is the contents of [SA] when the merge
    starts. The remaining functions take [T] as [const]. *)
Definition compact_path_T (T SA : array) (n m : Z) (SA_mid : array) : array :=
  let r := renumber_unique_and_nonunique_lms_suffixes_32s T SA m in
  if 0 <? rs_f r then fst (merge_unique_lms_suffixes_32s (rs_T r) SA_mid n m)
  else rs_T r.

(** ** Counting LMS suffixes and the size of the recursive problem *)

(** The classification statement of the gathering loops:
    [s = (s << 1) + (c > (c_right - (s & 1)))] on a [fast_uint_t]. *)
Definition lms_type_step (s c_right c : Z) : Z :=
  wrap_u64 (Z.shiftl s 1 + Z.b2z (c_right - Z.land s 1 <? c)).

(** The loop of [libsais16x64_count_and_gather_lms_suffixes_32s_4k] for
    [i >= 0], in the form of its tail loop
    [c1 = c0; c0 = T[i]; s = ...; SA[m] = i + 1; m -= ((s & 3) == 1);]
    (the four-fold unrolled loop runs this statement at [i .. i - 3] with
    the roles of [c0] and [c1] swapped on every other line; the bucket
    counters it also increments do not feed back into [s] or [m]).
    Returns [i], [s], [c0], [m] and [SA]. *)
Fixpoint gather_loop (T : array) (fuel : nat) (i s c0 m : Z) (SA : array)
  : Z * Z * Z * Z * array :=
  match fuel with
  | O => (i, s, c0, m, SA)
  | S fuel' =>
      if 0 <=? i then
        let c1 := c0 in
        let c0' := T i in
        let s' := lms_type_step s c1 c0' in
        let SA' := upd SA m (i + 1) in
        gather_loop T fuel' (i - 1) s' c0' (m - Z.b2z (Z.land s' 3 =? 1)) SA'
      else (i, s, c0, m, SA)
  end.

(** [libsais16x64_count_and_gather_lms_suffixes_32s_4k_omp] (block
    [0, n)): [m = n - 1], [c0 = T[m]]; the scan [while (j < n && ...)]
    starts at [j = n] and leaves [c1 = -1]; [s = c0 >= c1]. After the loop
    one more statement with [c1 = (i >= 0) ? T[i] : -1]. Returns the
    number of LMS suffixes and the new [SA]. *)
Definition count_and_gather_lms_suffixes_32s_4k (T SA : array) (n : Z) : Z * array :=
  if 0 <? n then
    let m0 := n - 1 in
    let c0 := T m0 in
    let s := Z.b2z (-1 <=? c0) in
    let '(i, s1, c0', m1, SA1) := gather_loop T (Z.to_nat n) (m0 - 1) s c0 m0 SA in
    let c1 := if 0 <=? i then T i else -1 in
    let s2 := lms_type_step s1 c0' c1 in
    let SA2 := upd SA1 m1 (i + 1) in
    let m2 := m1 - Z.b2z (Z.land s2 3 =? 1) in
    (n - 1 - m2, SA2)
  else (n - 1 - (n - 1), SA).

(** [libsais16x64_count_and_gather_lms_suffixes_16u] runs the same
    statements on the 16-bit text (prefetch distance 128, the buckets
    indexed by the 16-bit symbol). *)
Definition count_and_gather_lms_suffixes_16u (T SA : array) (n : Z) : Z * array :=
  count_and_gather_lms_suffixes_32s_4k T SA n.

(** The counting part of [libsais16x64_radix_sort_lms_suffixes_32s_1k]:
    [c1 = c0; c0 = T[i]; s = ...; if ((s & 3) == 1) { ...; m++; }] for
    [i] from [n - 2] down to [0] (the write of [SA] at a bucket position
    does not feed back into [s] or [m]). *)
Fixpoint radix_1k_loop (T : array) (fuel : nat) (i s c0 m : Z) : Z * Z * Z * Z :=
  match fuel with
  | O => (i, s, c0, m)
  | S fuel' =>
      if 0 <=? i then
        let c1 := c0 in
        let c0' := T i in
        let s' := lms_type_step s c1 c0' in
        radix_1k_loop T fuel' (i - 1) s' c0' (m + Z.b2z (Z.land s' 3 =? 1))
      else (i, s, c0, m)
  end.

(** The [m] returned by [libsais16x64_radix_sort_lms_suffixes_32s_1k]. *)
Definition radix_sort_lms_suffixes_32s_1k (T : array) (n : Z) : Z :=
  let '(_, _, _, m) := radix_1k_loop T (Z.to_nat n) (n - 2) 1 (T (n - 1)) 0 in m.

(** One recursive call of the engine, from a problem of size [n] to one
    of size [n']: in [main_32s_recursion], the 6k path (with or without
    the compaction, [f] as returned by the renumbering) and the 1k path,
    each only when [m > 1]; and the call of [main_32s_entry] from
    [main_16u] on [m] entries when [m > 0]. [SA'] is the contents of [SA]
    when the renumbering runs. *)
Definition recursion_step (n n' : Z) : Prop :=
  exists T SA SA' : array,
    (forall x, 0 <= x < n -> 0 <= T x) /\
    ((let m := fst (count_and_gather_lms_suffixes_32s_4k T SA n) in
      1 < m /\
      (n' = m - 0 \/ n' = m - rs_f (renumber_unique_and_nonunique_lms_suffixes_32s T SA' m))) \/
     (let m := radix_sort_lms_suffixes_32s_1k T n in
      1 < m /\ n' = m - rs_f (renumber_unique_and_nonunique_lms_suffixes_32s T SA' m)) \/
     (let m := fst (count_and_gather_lms_suffixes_16u T SA n) in
      0 < m /\ n' = m)).

(** Chains of nested recursive calls: [recursion_chain d n0 nd] when a
    call of size [n0] reaches a call of size [nd] at depth [d]. *)
Inductive recursion_chain : nat -> Z -> Z -> Prop :=
| chain_here n : recursion_chain O n n
| chain_deeper d n n' n'' :
    recursion_step n n' -> recursion_chain d n' n'' -> recursion_chain (S d) n n''.

(** A sequence with LMS suffixes at 1 and 3, used in the C9 example. *)
Definition c9_T : array := fun x => if Z.even x then 1 else 0.
Definition c9_SA : array := fun k => if k =? 0 then 1 else if k =? 1 then 3 else -1.

(** ** Further functions of the pipeline and of the 16-bit engine *)


(** The first loop of [build_char_to_rank]:
    [if (!occuring[text[i]]) occuring[text[i]] = 1;] for every byte of the
    text, left to right. *)
Fixpoint mark_occuring (occuring : array) (text : list Z) : array :=
  match text with
  | nil => occuring
  | c :: t =>
      mark_occuring (if occuring c =? 0 then upd occuring c 1 else occuring) t
  end.

(** The second loop of [build_char_to_rank], over [i] from [0] to [255]:
    [if (occuring[i]) { char_to_rank[i] = chars; chars++; }], where
    [chars] is a [uint8_t] and wraps modulo [256]. *)
Fixpoint rank_loop (occuring : array) (fuel : nat) (i chars : Z) (char_to_rank : array)
  : Z * array :=
  match fuel with
  | O => (chars, char_to_rank)
  | S f =>
      if occuring i =? 0 then rank_loop occuring f (i + 1) chars char_to_rank
      else rank_loop occuring f (i + 1) ((chars + 1) mod 256) (upd char_to_rank i chars)
  end.

(** [build_char_to_rank(text, text_len, &alphabet_size)]: the zero-filled
    [occuring] table, the [calloc]ed rank table; returns the rank table and
    the value stored in [*alphabet_size]. *)
Definition build_char_to_rank (text : list Z) : array * Z :=
  let occuring := mark_occuring (fun _ => 0) text in
  let '(chars, char_to_rank) := rank_loop occuring 256 0 0 (fun _ => 0) in
  (char_to_rank, chars).

(** Whether byte [c] occurs in the text, and the number of distinct byte
    values below [c] that occur in it. *)
Definition occurs (text : list Z) (c : Z) : bool := existsb (Z.eqb c) text.

Definition distinct_below (text : list Z) (c : Z) : Z :=
  Z.of_nat (length (filter (fun d => occurs text (Z.of_nat d)) (seq 0 (Z.to_nat c)))).

(** [translate_L_to_I]: [for (i = 0; i < length; i++) if (text[i] == 'L')
    text[i] = 'I';] on the byte buffer. *)
Fixpoint translate_loop (fuel : nat) (i : nat) (text : list Z) : list Z :=
  match fuel with
  | O => text
  | S f =>
      if nth i text 0 =? 76 then translate_loop f (S i) (list_set text i 73)
      else translate_loop f (S i) text
  end.

Definition translate_L_to_I (text : list Z) (length : nat) : list Z :=
  translate_loop length 0 text.

(** The number a sequence of bytes stands for, least significant byte
    first (how a little-endian reader decodes a [uint64_t]). *)
Fixpoint le_value (bytes : list Z) : Z :=
  match bytes with
  | nil => 0
  | x :: t => x + 256 * le_value t
  end.

(** [libsais16x64_gather_lms_suffixes_32s(T, SA, n)]: [i = n - 2],
    [m = n - 1], [s = 1], [c0 = T[n - 1]]; the four-fold unrolled loop and
    the tail loop both run
    [c1 = c0; c0 = T[i]; s = ...; SA[m] = i + 1; m -= ((s & 3) == 1);]
    for [i] from [n - 2] down to [0] (the unrolled body swaps the names
    [c0] and [c1] on every other line, which [gather_loop] undoes); returns
    [n - 1 - m] and the new [SA]. For [n <= 0] the read of [T[n - 1]] is
    out of bounds. *)
Definition gather_lms_suffixes_32s (T SA : array) (n : Z) : option (Z * array) :=
  if n <=? 0 then None
  else
    let '(_, _, _, m, SA') := gather_loop T (Z.to_nat n) (n - 2) 1 (T (n - 1)) (n - 1) SA in
    Some (n - 1 - m, SA').

(** The positions [p < n] whose suffix is an LMS suffix, in increasing order. *)
Definition lms_positions (T : array) (n : Z) : list Z :=
  filter (is_lms T n) (map Z.of_nat (seq 0 (Z.to_nat n))).

(** [buckets[c]++]. The counters stay below the length of the text, so the
    [sa_sint_t] increment does not overflow. *)
Definition incr (buckets : array) (c : Z) : array := upd buckets c (buckets c + 1).

(** The eight-fold unrolled loop of [libsais16x64_count_suffixes_32s],
    [for (i = 0, j = n - 7; i < j; i += 8)]; returns [i] and the buckets. *)
Fixpoint count8_loop (T : array) (fuel : nat) (i j : Z) (buckets : array) : Z * array :=
  match fuel with
  | O => (i, buckets)
  | S f =>
      if i <? j then
        let b := incr buckets (T (i + 0)) in
        let b := incr b (T (i + 1)) in
        let b := incr b (T (i + 2)) in
        let b := incr b (T (i + 3)) in
        let b := incr b (T (i + 4)) in
        let b := incr b (T (i + 5)) in
        let b := incr b (T (i + 6)) in
        let b := incr b (T (i + 7)) in
        count8_loop T f (i + 8) j b
      else (i, buckets)
  end.

(** Its tail loop [for (j += 7; i < j; i += 1) buckets[T[i]]++;]. *)
Fixpoint count1_loop (T : array) (fuel : nat) (i j : Z) (buckets : array) : array :=
  match fuel with
  | O => buckets
  | S f => if i <? j then count1_loop T f (i + 1) j (incr buckets (T i)) else buckets
  end.

(** [memset(buckets, 0, k * sizeof(sa_sint_t))]. *)
Definition memset0 (buckets : array) (k : Z) : array :=
  fun c => if (0 <=? c) && (c <? k) then 0 else buckets c.

(** [libsais16x64_count_suffixes_32s(T, n, k, buckets)]. *)
Definition count_suffixes_32s (T : array) (n k : Z) (buckets : array) : array :=
  let b0 := memset0 buckets k in
  let '(i, b1) := count8_loop T (Z.to_nat n) 0 (n - 7) b0 in
  count1_loop T (Z.to_nat n) i (n - 7 + 7) b1.

(** [libsais16x64_initialize_buckets_start_32s_1k]:
    [for (i = 0; i <= k - 1; i++) { tmp = buckets[i]; buckets[i] = sum; sum += tmp; }]. *)
Fixpoint start_1k_loop (fuel : nat) (i k sum : Z) (buckets : array) : array :=
  match fuel with
  | O => buckets
  | S f =>
      if i <=? k - 1 then
        let tmp := buckets i in
        start_1k_loop f (i + 1) k (sum + tmp) (upd buckets i sum)
      else buckets
  end.

Definition initialize_buckets_start_32s_1k (k : Z) (buckets : array) : array :=
  start_1k_loop (Z.to_nat k) 0 k 0 buckets.

(** [libsais16x64_initialize_buckets_end_32s_1k]:
    [for (i = 0; i <= k - 1; i++) { sum += buckets[i]; buckets[i] = sum; }]. *)
Fixpoint end_1k_loop (fuel : nat) (i k sum : Z) (buckets : array) : array :=
  match fuel with
  | O => buckets
  | S f =>
      if i <=? k - 1 then
        let sum' := sum + buckets i in
        end_1k_loop f (i + 1) k sum' (upd buckets i sum')
      else buckets
  end.

Definition initialize_buckets_end_32s_1k (k : Z) (buckets : array) : array :=
  end_1k_loop (Z.to_nat k) 0 k 0 buckets.

(** The number of positions [x < n] whose symbol satisfies [p]. *)
Fixpoint count_where (p : Z -> bool) (T : array) (n : nat) : Z :=
  match n with
  | O => 0
  | S n' => count_where p T n' + (if p (T (Z.of_nat n')) then 1 else 0)
  end.

(** The loop of [libsais16x64_initialize_buckets_start_and_end_16u] over
    [j < ALPHABET_SIZE] ([i = BUCKETS_INDEX4(j, 0)]): the four counters of
    symbol [j] are summed into [total];
    [bucket_start[j] = sum; sum += total; bucket_end[j] = sum;
     k = total > 0 ? j : k;] and, when [freq] is not [NULL],
    [freq[j] = total]. [bucket_start] and [bucket_end] are
    [&buckets[6 * ALPHABET_SIZE]] and [&buckets[7 * ALPHABET_SIZE]].
    [total] and [sum] are [sa_sint_t] sums, whose overflow is undefined;
    they are summed here in [Z], which is faithful when the counters are
    non-negative and their grand total is at most [SAINT_MAX] (as for the
    counts of a text). *)
Fixpoint buckets_start_end_loop (fuel : nat) (has_freq : bool) (j sum k : Z)
    (buckets freq : array) : Z * array * array :=
  match fuel with
  | O => (k, buckets, freq)
  | S f =>
      let i := BUCKETS_INDEX4 j 0 in
      let total := buckets (i + BUCKETS_INDEX4 0 0) + buckets (i + BUCKETS_INDEX4 0 1)
                   + buckets (i + BUCKETS_INDEX4 0 2) + buckets (i + BUCKETS_INDEX4 0 3) in
      let b1 := upd buckets (6 * ALPHABET_SIZE + j) sum in
      let sum' := sum + total in
      let b2 := upd b1 (7 * ALPHABET_SIZE + j) sum' in
      let k' := if 0 <? total then j else k in
      let freq' := if has_freq then upd freq j total else freq in
      buckets_start_end_loop f has_freq (j + 1) sum' k' b2 freq'
  end.

(** [libsais16x64_initialize_buckets_start_and_end_16u(buckets, freq)]:
    returns [k + 1], the buckets and the frequency table. *)
Definition initialize_buckets_start_and_end_16u (freq_null : bool) (buckets freq : array)
  : Z * array * array :=
  let '(k, b, f) := buckets_start_end_loop (Z.to_nat ALPHABET_SIZE) (negb freq_null) 0 0 (-1)
                      buckets freq in
  (k + 1, b, f).

(** The total of the four counters of symbol [j]. *)
Definition total4 (buckets : array) (j : Z) : Z :=
  buckets (BUCKETS_INDEX4 j 0) + buckets (BUCKETS_INDEX4 j 1)
  + buckets (BUCKETS_INDEX4 j 2) + buckets (BUCKETS_INDEX4 j 3).

(** [sum (d < j) f d]. *)
Fixpoint prefix_sum (f : Z -> Z) (j : nat) : Z :=
  match j with
  | O => 0
  | S j' => prefix_sum f j' + f (Z.of_nat j')
  end.


(** The loops of [libsais16x64_count_and_gather_lms_suffixes_16u] with
    their bucket counters, in the form of the tail loop
    [c1 = c0; c0 = T[i]; s = ...; SA[m] = i + 1; m -= ((s & 3) == 1);
     buckets[BUCKETS_INDEX4(c1, s & 3)]++;]
    (the four-fold unrolled loop runs the same statements with the names
    [c0] and [c1] swapped on every other line). *)
Fixpoint gather_count_loop (T : array) (fuel : nat) (i s c0 m : Z) (SA buckets : array)
  : Z * Z * Z * Z * array * array :=
  match fuel with
  | O => (i, s, c0, m, SA, buckets)
  | S fuel' =>
      if 0 <=? i then
        let c1 := c0 in
        let c0' := T i in
        let s' := lms_type_step s c1 c0' in
        let SA' := upd SA m (i + 1) in
        let buckets' := incr buckets (BUCKETS_INDEX4 c1 (Z.land s' 3)) in
        gather_count_loop T fuel' (i - 1) s' c0' (m - Z.b2z (Z.land s' 3 =? 1)) SA' buckets'
      else (i, s, c0, m, SA, buckets)
  end.

(** [libsais16x64_count_and_gather_lms_suffixes_16u(T, SA, n, buckets, 0, n)]
    with its bucket counters: [memset] of the [4 * ALPHABET_SIZE] counters,
    [m = n - 1], [c0 = T[m]], [c1 = -1] (the scan [while (j < n && ...)]
    starts at [j = n]), [s = c0 >= c1]; after the loops
    [c1 = (i >= 0) ? T[i] : -1; s = ...; SA[m] = i + 1; m -= ((s & 3) == 1);
     buckets[BUCKETS_INDEX4(c0, s & 3)]++;]. Returns the number of LMS
    suffixes, [SA] and the buckets. *)
Definition count_and_gather_buckets_16u (T SA : array) (n : Z) (buckets : array)
  : Z * array * array :=
  let b0 := memset0 buckets (4 * ALPHABET_SIZE) in
  if 0 <? n then
    let m0 := n - 1 in
    let c0 := T m0 in
    let s := Z.b2z (-1 <=? c0) in
    let '(i, s1, c0', m1, SA1, b1) := gather_count_loop T (Z.to_nat n) (m0 - 1) s c0 m0 SA b0 in
    let c1 := if 0 <=? i then T i else -1 in
    let s2 := lms_type_step s1 c0' c1 in
    let SA2 := upd SA1 m1 (i + 1) in
    let m2 := m1 - Z.b2z (Z.land s2 3 =? 1) in
    let b2 := incr b1 (BUCKETS_INDEX4 c0' (Z.land s2 3)) in
    (n - 1 - m2, SA2, b2)
  else (n - 1 - (n - 1), SA, b0).


(** The number of positions [p < n] that satisfy [q]. *)
Fixpoint count_pos (q : Z -> bool) (n : nat) : Z :=
  match n with
  | O => 0
  | S n' => count_pos q n' + (if q (Z.of_nat n') then 1 else 0)
  end.

(** The two type bits the 16-bit counting loop keeps for position [p]:
    [2 * (p is L-type) + (p - 1 is L-type)], with no left neighbour
    counted as S-type at [p = 0]. *)
Definition suffix_pair_type (T : array) (n p : Z) : Z :=
  2 * Z.b2z (ltype T n p) + (if 0 <? p then Z.b2z (ltype T n (p - 1)) else 0).


(** ** Proofs *)

Lemma upd_eq (a : array) k v : upd a k v k = v.
Proof. unfold upd. destruct (Z.eq_dec k k); congruence. Qed.

Lemma upd_ne (a : array) k v x : x <> k -> upd a k v x = a x.
Proof. intros H. unfold upd. destruct (Z.eq_dec x k); congruence. Qed.

Lemma name_tag_spec dn d :
  name_tag dn d = if dn =? d then 0 else SAINT_MIN.
Proof. unfold name_tag. destruct (dn =? d); reflexivity. Qed.

(** *** Partial-sorting scans: loop structure *)

Lemma l2r_steps_unfold T st i c :
  0 < c ->
  l2r_steps T st i (Z.to_nat c) = l2r_steps T (l2r_step T st i) (i + 1) (Z.to_nat (c - 1)).
Proof.
  intros Hc. replace (Z.to_nat c) with (S (Z.to_nat (c - 1))) by lia. reflexivity.
Qed.

Lemma r2l_steps_unfold T st i c :
  0 < c ->
  r2l_steps T st i (Z.to_nat c) = r2l_steps T (r2l_step T st i) (i - 1) (Z.to_nat (c - 1)).
Proof.
  intros Hc. replace (Z.to_nat c) with (S (Z.to_nat (c - 1))) by lia. reflexivity.
Qed.

Lemma l2r_steps_app T st i a b :
  l2r_steps T st i (a + b) = l2r_steps T (l2r_steps T st i a) (i + Z.of_nat a) b.
Proof.
  revert st i. induction a as [|a IH]; intros st i; simpl.
  - now rewrite Z.add_0_r.
  - rewrite IH. f_equal. lia.
Qed.

Lemma r2l_steps_app T st i a b :
  r2l_steps T st i (a + b) = r2l_steps T (r2l_steps T st i a) (i - Z.of_nat a) b.
Proof.
  revert st i. induction a as [|a IH]; intros st i; simpl.
  - now rewrite Z.sub_0_r.
  - rewrite IH. f_equal. lia.
Qed.

Lemma l2r_loop1_spec fuel T st i j :
  (Z.to_nat (j - i) < fuel)%nat ->
  l2r_loop1 fuel T st i j = (l2r_steps T st i (Z.to_nat (j - i)), Z.max i j).
Proof.
  revert st i. induction fuel as [|f IH]; intros st i Hf; [lia|]. simpl.
  destruct (Z.ltb_spec i j).
  - rewrite IH by lia. rewrite (l2r_steps_unfold T st i (j - i)) by lia.
    f_equal; [f_equal; f_equal; lia | lia].
  - replace (Z.to_nat (j - i)) with O by lia. f_equal. lia.
Qed.

Lemma l2r_loop2_spec fuel T st i j :
  (Z.to_nat (j - i) < fuel)%nat ->
  exists i', l2r_loop2 fuel T st i j = (l2r_steps T st i (Z.to_nat (i' - i)), i')
             /\ i <= i' <= Z.max i (j + 1).
Proof.
  revert st i. induction fuel as [|f IH]; intros st i Hf; [lia|]. simpl.
  destruct (Z.ltb_spec i j).
  - destruct (IH (l2r_step T (l2r_step T st i) (i + 1)) (i + 2)) as [i' [E B]]; [lia|].
    exists i'. rewrite E. split; [|lia].
    rewrite (l2r_steps_unfold T st i (i' - i)) by lia.
    rewrite (l2r_steps_unfold T _ (i + 1) (i' - i - 1)) by lia.
    replace (i + 1 + 1) with (i + 2) by lia.
    now replace (i' - i - 1 - 1) with (i' - (i + 2)) by lia.
  - exists i. split; [|lia]. now replace (i - i) with 0 by lia.
Qed.

Lemma r2l_loop1_spec fuel T st i j :
  (Z.to_nat (i + 1 - j) < fuel)%nat ->
  r2l_loop1 fuel T st i j = (r2l_steps T st i (Z.to_nat (i + 1 - j)), Z.min i (j - 1)).
Proof.
  revert st i. induction fuel as [|f IH]; intros st i Hf; [lia|]. simpl.
  destruct (Z.leb_spec j i).
  - rewrite IH by lia. rewrite (r2l_steps_unfold T st i (i + 1 - j)) by lia.
    f_equal; [f_equal; f_equal; lia | lia].
  - replace (Z.to_nat (i + 1 - j)) with O by lia. f_equal. lia.
Qed.

Lemma r2l_loop2_spec fuel T st i j :
  (Z.to_nat (i + 1 - j) < fuel)%nat ->
  exists i', r2l_loop2 fuel T st i j = (r2l_steps T st i (Z.to_nat (i - i')), i')
             /\ Z.min i (j - 2) <= i' <= i.
Proof.
  revert st i. induction fuel as [|f IH]; intros st i Hf; [lia|]. simpl.
  destruct (Z.leb_spec j i).
  - destruct (IH (r2l_step T (r2l_step T st i) (i - 1)) (i - 2)) as [i' [E B]]; [lia|].
    exists i'. rewrite E. split; [|lia].
    rewrite (r2l_steps_unfold T st i (i - i')) by lia.
    rewrite (r2l_steps_unfold T _ (i - 1) (i - i' - 1)) by lia.
    replace (i - 1 - 1) with (i - 2) by lia.
    now replace (i - i' - 1 - 1) with (i - 2 - i') by lia.
  - exists i. split; [|lia]. now replace (i - i) with 0 by lia.
Qed.

Lemma scan_left_to_right_steps T st s z :
  0 <= z ->
  partial_sorting_scan_left_to_right_16u T st s z = l2r_steps T st s (Z.to_nat z).
Proof.
  intros Hz. unfold partial_sorting_scan_left_to_right_16u.
  destruct (l2r_loop2_spec (S (Z.to_nat z)) T st s (s + z - 32 - 1)) as [i' [E B]]; [lia|].
  rewrite E. rewrite l2r_loop1_spec by lia. simpl.
  replace (Z.to_nat z) with
    (Z.to_nat (i' - s) + Z.to_nat (s + z - 32 - 1 + 32 + 1 - i'))%nat by lia.
  rewrite l2r_steps_app. f_equal. lia.
Qed.

Lemma scan_right_to_left_steps T st s z :
  0 <= z ->
  partial_sorting_scan_right_to_left_16u T st s z = r2l_steps T st (s + z - 1) (Z.to_nat z).
Proof.
  intros Hz. unfold partial_sorting_scan_right_to_left_16u.
  destruct (r2l_loop2_spec (S (Z.to_nat z)) T st (s + z - 1) (s + 32 + 1)) as [i' [E B]]; [lia|].
  rewrite E. rewrite r2l_loop1_spec by lia. simpl.
  replace (Z.to_nat z) with
    (Z.to_nat (s + z - 1 - i') + Z.to_nat (i' + 1 - (s + 32 + 1 - (32 + 1))))%nat by lia.
  rewrite r2l_steps_app. f_equal. lia.
Qed.

(** *** The entry point's argument checks *)

(** C6: a [NULL] [T] or [SA], a negative [n] or a negative [fs] makes
    [libsais16x64] return [-1] before touching [T], [SA] or [freq]: the
    memory after the call is the memory before it. *)
Theorem libsais16x64_invalid_args_no_mutation :
  forall main T_null SA_null freq_null n fs mem,
    (T_null = true \/ SA_null = true \/ n < 0 \/ fs < 0) ->
    libsais16x64 main T_null SA_null freq_null n fs mem = (-1, mem).
Proof.
  intros main T_null SA_null freq_null n fs mem H. unfold libsais16x64.
  replace (T_null || SA_null || (n <? 0) || (fs <? 0)) with true; [reflexivity|].
  destruct H as [-> | [-> | [H | H]]].
  - reflexivity.
  - now rewrite orb_true_r.
  - apply Z.ltb_lt in H. now rewrite H, !orb_true_r.
  - apply Z.ltb_lt in H. now rewrite H, !orb_true_r.
Qed.

Lemma libsais16x64_invalid_args_no_mutation_witness :
  (true = true \/ false = true \/ 5 < 0 \/ 0 < 0) /\
  libsais16x64 (fun _ _ _ m => (0, m)) true false true 5 0
    {| mem_T := fun _ => 1; mem_SA := fun _ => 2; mem_freq := fun _ => 3 |}
  = (-1, {| mem_T := fun _ => 1; mem_SA := fun _ => 2; mem_freq := fun _ => 3 |}).
Proof.
  split; [left; reflexivity|].
  apply (libsais16x64_invalid_args_no_mutation (fun _ _ _ m => (0, m)) true false true 5 0).
  left; reflexivity.
Defined.

(** *** One induction step of the partial-sorting scans *)

(** C4: for a 16-bit text, the left-to-right scan is the slot-by-slot
    iteration of [l2r_step] (and the right-to-left scan that of [r2l_step],
    from the block end downwards); a left-to-right step on a slot holding
    the tagged position [p] increments [d] when the slot is tagged, computes
    [v = 2*T[p-1] + (T[p-2] >= T[p-1])], writes
    [(p-1) | ((distinct_names[v] != d) << 63)] at
    [SA[induction_bucket[v]]], increments [induction_bucket[v]], sets
    [distinct_names[v] = d] and changes nothing else; the right-to-left step
    uses [T[p-2] > T[p-1]] and first decrements [induction_bucket[v]],
    writing at the decremented position.  The bucket index [v] stays below
    [2 * ALPHABET_SIZE], so the [induction_bucket] and [distinct_names]
    regions of the bucket array never overlap. *)
Theorem partial_sorting_induction_step :
  forall T : array, (forall x, 0 <= T x < ALPHABET_SIZE) ->
  (forall st s z, 0 <= z ->
     partial_sorting_scan_left_to_right_16u T st s z = l2r_steps T st s (Z.to_nat z) /\
     partial_sorting_scan_right_to_left_16u T st s z = r2l_steps T st (s + z - 1) (Z.to_nat z)) /\
  (forall st i,
     let B := ps_buckets st in
     let d := ps_d st + (if ps_SA st i <? 0 then 1 else 0) in
     let p := Z.land (ps_SA st i) SAINT_MAX in
     let v := 2 * T (p - 1) + (if T (p - 2) >=? T (p - 1) then 1 else 0) in
     let st' := l2r_step T st i in
     0 <= v < 2 * ALPHABET_SIZE /\
     ps_d st' = d /\
     ps_SA st' (B (4 * ALPHABET_SIZE + v)) =
       Z.lor (p - 1) (if B (2 * ALPHABET_SIZE + v) =? d then 0 else SAINT_MIN) /\
     (forall x, x <> B (4 * ALPHABET_SIZE + v) -> ps_SA st' x = ps_SA st x) /\
     ps_buckets st' (4 * ALPHABET_SIZE + v) = B (4 * ALPHABET_SIZE + v) + 1 /\
     ps_buckets st' (2 * ALPHABET_SIZE + v) = d /\
     (forall x, x <> 4 * ALPHABET_SIZE + v -> x <> 2 * ALPHABET_SIZE + v ->
        ps_buckets st' x = B x)) /\
  (forall st i,
     let B := ps_buckets st in
     let d := ps_d st + (if ps_SA st i <? 0 then 1 else 0) in
     let p := Z.land (ps_SA st i) SAINT_MAX in
     let v := 2 * T (p - 1) + (if T (p - 2) >? T (p - 1) then 1 else 0) in
     let st' := r2l_step T st i in
     0 <= v < 2 * ALPHABET_SIZE /\
     ps_d st' = d /\
     ps_SA st' (B v - 1) =
       Z.lor (p - 1) (if B (2 * ALPHABET_SIZE + v) =? d then 0 else SAINT_MIN) /\
     (forall x, x <> B v - 1 -> ps_SA st' x = ps_SA st x) /\
     ps_buckets st' v = B v - 1 /\
     ps_buckets st' (2 * ALPHABET_SIZE + v) = d /\
     (forall x, x <> v -> x <> 2 * ALPHABET_SIZE + v -> ps_buckets st' x = B x)).
Proof.
  intros T HT. split; [|split].
  - intros st s z Hz. split.
    + now apply scan_left_to_right_steps.
    + now apply scan_right_to_left_steps.
  - intros st i B d p v st'.
    assert (Hv : BUCKETS_INDEX2 (T (p - 1)) (Z.b2z (T (p - 2) >=? T (p - 1))) = v).
    { unfold BUCKETS_INDEX2, v. rewrite Z.shiftl_mul_pow2 by lia.
      destruct (T (p - 2) >=? T (p - 1)); cbn [Z.b2z]; rewrite Z.pow_1_r; lia. }
    assert (Hd : ps_d st + Z.b2z (ps_SA st i <? 0) = d).
    { unfold d. now destruct (ps_SA st i <? 0). }
    pose proof (HT (p - 1)).
    unfold st', l2r_step; cbn zeta.
    change (Z.land (ps_SA st i) SAINT_MAX) with p. change (ps_buckets st) with B.
    rewrite Hv, Hd. cbn [ps_SA ps_buckets ps_d].
    rewrite name_tag_spec.
    split; [unfold v; destruct (T (p - 2) >=? T (p - 1)); unfold ALPHABET_SIZE in *; lia|].
    split; [reflexivity|].
    split; [now rewrite upd_eq|].
    split; [intros x Hx; now rewrite upd_ne|].
    split; [rewrite upd_ne by lia; now rewrite upd_eq|].
    split; [now rewrite upd_eq|].
    intros x H1 H2. now rewrite !upd_ne.
  - intros st i B d p v st'.
    assert (Hv : BUCKETS_INDEX2 (T (p - 1)) (Z.b2z (T (p - 2) >? T (p - 1))) = v).
    { unfold BUCKETS_INDEX2, v. rewrite Z.shiftl_mul_pow2 by lia.
      destruct (T (p - 2) >? T (p - 1)); cbn [Z.b2z]; rewrite Z.pow_1_r; lia. }
    assert (Hd : ps_d st + Z.b2z (ps_SA st i <? 0) = d).
    { unfold d. now destruct (ps_SA st i <? 0). }
    pose proof (HT (p - 1)).
    assert (Hv2 : 0 <= v < 2 * ALPHABET_SIZE).
    { unfold v; destruct (T (p - 2) >? T (p - 1)); unfold ALPHABET_SIZE in *; lia. }
    unfold st', r2l_step; cbn zeta.
    change (Z.land (ps_SA st i) SAINT_MAX) with p. change (ps_buckets st) with B.
    rewrite Hv, Hd. cbn [ps_SA ps_buckets ps_d].
    rewrite name_tag_spec.
    split; [exact Hv2|].
    split; [reflexivity|].
    split; [now rewrite upd_eq|].
    split; [intros x Hx; now rewrite upd_ne|].
    split; [rewrite upd_ne by (unfold ALPHABET_SIZE in *; lia); now rewrite upd_eq|].
    split; [now rewrite upd_eq|].
    intros x H1 H2. now rewrite !upd_ne.
Qed.

Lemma partial_sorting_induction_step_witness :
  (forall x : Z, 0 <= (fun _ : Z => 7) x < ALPHABET_SIZE) /\
  partial_sorting_scan_left_to_right_16u (fun _ => 7)
    {| ps_SA := fun x => x + 2; ps_buckets := fun _ => 0; ps_d := 0 |} 0 3 =
  l2r_steps (fun _ => 7)
    {| ps_SA := fun x => x + 2; ps_buckets := fun _ => 0; ps_d := 0 |} 0 3.
Proof.
  assert (H : forall x : Z, 0 <= (fun _ : Z => 7) x < ALPHABET_SIZE).
  { intros x; unfold ALPHABET_SIZE; lia. }
  split; [exact H|].
  exact (proj1 (proj1 (partial_sorting_induction_step (fun _ => 7) H)
    {| ps_SA := fun x => x + 2; ps_buckets := fun _ => 0; ps_d := 0 |} 0 3
    ltac:(lia))).
Defined.

(** *** Bit-packing: lemmas *)

Lemma lor_disjoint_add (a y m : Z) :
  0 <= m -> a mod 2 ^ m = 0 -> 0 <= y < 2 ^ m -> Z.lor a y = a + y.
Proof.
  intros Hm Ha Hy.
  assert (Hl : Z.land a y = 0).
  { apply Z.bits_inj'; intros i Hi. rewrite Z.land_spec, Z.bits_0.
    destruct (Z.lt_ge_cases i m) as [Hlt | Hge].
    - rewrite <- (Z.mod_pow2_bits_low a m i Hlt), Ha, Z.bits_0. reflexivity.
    - rewrite <- (Z.mod_small y (2 ^ m)) by lia.
      rewrite Z.mod_pow2_bits_high by lia. apply andb_false_r. }
  rewrite <- Z.lxor_lor by exact Hl. symmetry. now apply Z.add_nocarry_lxor.
Qed.

Section GroupSum.
Variables (rank : Z -> Z) (b k : Z) (text : list Z) (start : Z).
Hypothesis Hb : 0 <= b.
Hypothesis Hrank : forall c, 0 <= rank c < 2 ^ b.

Lemma group_sum_inv (j : nat) :
  Z.of_nat j <= k ->
  let g := group_sum rank b k text start j in
  0 <= g /\ g mod 2 ^ (b * (k - Z.of_nat j)) = 0 /\
  g + 2 ^ (b * (k - Z.of_nat j)) <= 2 ^ (b * k).
Proof.
  induction j as [|j IH]; intros Hj g; subst g.
  - simpl. rewrite Z.sub_0_r, Zmod_0_l. pose proof (Z.pow_nonneg 2 (b * k)). lia.
  - cbn [group_sum]. destruct IH as (H0 & Hm & Hle); [lia|].
    set (g := group_sum rank b k text start j) in *.
    set (r := rank (nth (Z.to_nat (start + Z.of_nat j)) text 0)).
    pose proof (Hrank (nth (Z.to_nat (start + Z.of_nat j)) text 0)) as Hr; fold r in Hr.
    set (P := 2 ^ (b * (k - 1 - Z.of_nat j))).
    assert (HP : 0 < P) by (apply Z.pow_pos_nonneg; nia).
    assert (HQ : 2 ^ (b * (k - Z.of_nat j)) = 2 ^ b * P).
    { unfold P. rewrite <- Z.pow_add_r by nia. f_equal. lia. }
    rewrite HQ in Hm, Hle.
    replace (b * (k - Z.of_nat (S j))) with (b * (k - 1 - Z.of_nat j)) by lia. fold P.
    apply Z.mod_divide in Hm; [|lia]. destruct Hm as [q ->].
    split; [nia|]. split.
    + replace (q * (2 ^ b * P) + r * P) with ((q * 2 ^ b + r) * P) by ring.
      apply Z.mod_mul. lia.
    + nia.
Qed.

End GroupSum.

Section Packing.
Variables (W : Z) (rank : Z -> Z) (b k : Z) (text : list Z).
Hypothesis Hb : 0 <= b.
Hypothesis Hk : 0 <= k.
Hypothesis Hbk : b * k <= 31.
Hypothesis HbkW : b * k <= W.
Hypothesis Hrank : forall c, 0 <= rank c < 2 ^ b.

Lemma read_text_in (idx : Z) :
  0 <= idx < Z.of_nat (length text) ->
  read_text text idx = Some (nth (Z.to_nat idx) text 0).
Proof.
  intros H. unfold read_text. replace (idx <? 0) with false by lia.
  apply nth_error_nth'. lia.
Qed.

Lemma pack_group_spec (start : Z) (f : nat) :
  forall j element, 0 <= start -> 0 <= j -> j + Z.of_nat f <= k ->
  start + j + Z.of_nat f <= Z.of_nat (length text) ->
  element = group_sum rank b k text start (Z.to_nat j) ->
  pack_group W rank b k text start j f element =
  Some (group_sum rank b k text start (Z.to_nat j + f)).
Proof.
  induction f as [|f IH]; intros j element Hs Hj Hjk Hlen ->.
  - simpl. now rewrite Nat.add_0_r.
  - cbn [pack_group]. rewrite read_text_in by lia.
    set (c := nth (Z.to_nat (start + j)) text 0).
    pose proof (Hrank c) as Hc.
    set (P := 2 ^ (b * (k - 1 - j))).
    assert (HP : 0 < P) by (apply Z.pow_pos_nonneg; nia).
    assert (HQ : 2 ^ (b * (k - j)) = 2 ^ b * P).
    { unfold P. rewrite <- Z.pow_add_r by nia. f_equal. lia. }
    assert (HQk : 2 ^ (b * (k - j)) <= 2 ^ (b * k)) by (apply Z.pow_le_mono_r; nia).
    assert (Hk31 : 2 ^ (b * k) <= 2 ^ 31) by (apply Z.pow_le_mono_r; lia).
    assert (HkW : 2 ^ (b * k) <= 2 ^ W) by (apply Z.pow_le_mono_r; lia).
    assert (Hsh : elem_shl W (rank c) (b * (k - 1 - j)) = Some (rank c * P)).
    { unfold elem_shl, int_shl. fold P. destruct (W =? 32).
      - replace ((0 <=? b * (k - 1 - j)) && (b * (k - 1 - j) <? 32)) with true
          by (symmetry; repeat rewrite andb_true_iff; repeat split; nia).
        rewrite Z.mod_small by nia. reflexivity.
      - replace ((0 <=? b * (k - 1 - j)) && (b * (k - 1 - j) <? 32) && (0 <=? rank c)
             && (rank c * P <? 2 ^ 31)) with true
          by (symmetry; repeat rewrite andb_true_iff; repeat split; nia).
        reflexivity. }
    rewrite Hsh.
    pose proof (group_sum_inv rank b k text start Hb Hrank (Z.to_nat j)) as Hinv.
    cbn zeta in Hinv. rewrite Z2Nat.id in Hinv by lia.
    destruct Hinv as (H0 & Hm & Hle); [lia|].
    rewrite HQ in Hm, Hle.
    rewrite (lor_disjoint_add _ _ (b * (k - j))) by (rewrite ?HQ; nia).
    rewrite Z.mod_small by nia.
    assert (Hnext : group_sum rank b k text start (Z.to_nat (j + 1)) =
                    group_sum rank b k text start (Z.to_nat j) + rank c * P).
    { rewrite Z2Nat.inj_add, Nat.add_1_r by lia. cbn [group_sum].
      rewrite Z2Nat.id by lia. reflexivity. }
    rewrite IH by (try lia; now rewrite Hnext).
    f_equal. f_equal. lia.
Qed.

Lemma pack_full_groups_spec (f : nat) :
  forall i, 0 <= i -> (i + Z.of_nat f) * k <= Z.of_nat (length text) ->
  pack_full_groups W rank b k text i f =
  Some (map (fun x => group_sum rank b k text (Z.of_nat x * k) (Z.to_nat k))
            (seq (Z.to_nat i) f)).
Proof.
  induction f as [|f IH]; intros i Hi Hlen; [reflexivity|].
  cbn [pack_full_groups].
  rewrite pack_group_spec by (try reflexivity; nia).
  rewrite IH by nia. cbn [seq map]. rewrite Z2Nat.id by lia.
  replace (Z.to_nat (i + 1)) with (S (Z.to_nat i)) by lia. reflexivity.
Qed.

Lemma bitpack_text_spec :
  let n := Z.of_nat (length text) in
  0 < n -> 0 < k ->
  let packed_len := (n + k - 1) / k in
  let last_start := k * (packed_len - 1) in
  n - last_start = (n - 1) mod k + 1 /\
  bitpack_text W text n k packed_len rank b =
  Some (map (fun x => group_sum rank b k text (Z.of_nat x * k) (Z.to_nat k))
            (seq 0 (Z.to_nat (packed_len - 1)))
        ++ group_sum rank b k text last_start (Z.to_nat (n - last_start)) :: nil).
Proof.
  intros n Hn Hk0 packed_len last_start.
  assert (Hpl : packed_len = (n - 1) / k + 1).
  { unfold packed_len. replace (n + k - 1) with (n - 1 + 1 * k) by lia.
    rewrite Z.div_add by lia. reflexivity. }
  pose proof (Z.div_mod (n - 1) k ltac:(lia)) as Hdm.
  pose proof (Z.mod_pos_bound (n - 1) k ltac:(lia)) as Hmb.
  pose proof (Z.div_pos (n - 1) k ltac:(lia) ltac:(lia)) as Hdp.
  assert (Hlast : n - last_start = (n - 1) mod k + 1).
  { unfold last_start. rewrite Hpl. lia. }
  split; [exact Hlast|].
  unfold bitpack_text. replace (n =? 0) with false by lia.
  replace ((packed_len <=? 0) || (k =? 0)) with false by (rewrite Hpl; lia).
  rewrite pack_full_groups_spec by (rewrite ?Hpl; nia).
  rewrite pack_group_spec by (try reflexivity; unfold last_start in *; rewrite ?Hpl in *; nia).
  rewrite <- Hlast. reflexivity.
Qed.

End Packing.

(** *** Bit-packing of 8-bit symbols *)




(** *** The header byte *)

Section Log2.
Local Open Scope R_scope.

Lemma ln_two_pos : 0 < ln 2.
Proof. pose proof ln_lt_2. lra. Qed.

Lemma ln_IZR_pow2 (e : Z) : (0 <= e)%Z -> ln (IZR (2 ^ e)) = IZR e * ln 2.
Proof.
  intros He. rewrite <- (Z2Nat.id e He), <- pow_IZR, ln_pow by lra.
  now rewrite INR_IZR_INZ.
Qed.

Lemma Int_part_log2 (x : Z) :
  (1 <= x)%Z -> Int_part (ln (IZR x) / ln 2) = Z.log2 x.
Proof.
  intros Hx. destruct (Z.log2_spec x ltac:(lia)) as [Hlo Hhi].
  pose proof (Z.log2_nonneg x) as Hm. set (m := Z.log2 x) in *.
  pose proof ln_two_pos as Hl2.
  assert (A : IZR m * ln 2 <= ln (IZR x)).
  { rewrite <- ln_IZR_pow2 by lia.
    destruct (Z.eq_dec (2 ^ m) x) as [E | E]; [rewrite E; lra|].
    apply Rlt_le, ln_increasing; apply IZR_lt; lia. }
  assert (B : ln (IZR x) < (IZR m + 1) * ln 2).
  { rewrite <- plus_IZR, <- ln_IZR_pow2 by lia.
    apply ln_increasing; apply IZR_lt; [lia|]. rewrite <- Z.add_1_r in Hhi. exact Hhi. }
  symmetry. apply Int_part_spec. split.
  - apply (Rmult_lt_reg_r (ln 2)); [lra|].
    replace ((ln (IZR x) / ln 2 - 1) * ln 2) with (ln (IZR x) - ln 2) by (field; lra).
    lra.
  - apply (Rmult_le_reg_r (ln 2)); [lra|].
    replace (ln (IZR x) / ln 2 * ln 2) with (ln (IZR x)) by (field; lra).
    exact A.
Qed.


(** [ln z <= z - 1] and [1 - 1 / z <= ln z]. *)
Lemma ln_le_pred (z : R) : 0 < z -> ln z <= z - 1.
Proof. intros Hz. pose proof (exp_ineq1_le (ln z)). rewrite exp_ln in H by lra. lra. Qed.

Lemma ln_ge_pred_inv (z : R) : 0 < z -> 1 - / z <= ln z.
Proof.
  intros Hz. pose proof (exp_ineq1_le (- ln z)). rewrite exp_Ropp, exp_ln in H by lra. lra.
Qed.

Lemma ln_two_gt_4_7 : 4 / 7 < ln 2.
Proof.
  replace 2 with (4 / 3 * (3 / 2)) by field.
  rewrite ln_mult by lra.
  pose proof (ln_ge_pred_inv (4 / 3) ltac:(lra)).
  pose proof (ln_ge_pred_inv (3 / 2) ltac:(lra)).
  replace (/ (4 / 3)) with (3 / 4) in H by field.
  replace (/ (3 / 2)) with (2 / 3) in H0 by field.
  lra.
Qed.

Lemma Int_part_IZR (z : Z) : Int_part (IZR z) = z.
Proof. symmetry. apply Int_part_spec. lra. Qed.

Lemma powerRZ2_neg (n : Z) : (0 <= n)%Z -> powerRZ 2 (- n) = / IZR (2 ^ n).
Proof.
  intros Hn. destruct n as [|p|p]; try lia.
  - simpl. field.
  - change (- Z.pos p)%Z with (Z.neg p). unfold powerRZ. f_equal.
    rewrite <- (positive_nat_Z p), pow_IZR. reflexivity.
Qed.

(** The exponent of a positive real: [2 ^ e <= y < 2 ^ (e + 1)]. *)
Lemma Int_part_log2_R (y : R) (e : Z) :
  (0 <= e)%Z -> IZR (2 ^ e) <= y < IZR (2 ^ (e + 1)) -> Int_part (ln y / ln 2) = e.
Proof.
  intros He [H1 H2]. pose proof ln_two_pos as Hl2.
  assert (P : 0 < IZR (2 ^ e)) by (apply IZR_lt; lia).
  assert (A : IZR e * ln 2 <= ln y).
  { rewrite <- ln_IZR_pow2 by lia.
    destruct (Req_dec (IZR (2 ^ e)) y) as [E | E]; [rewrite E; lra|].
    apply Rlt_le, ln_increasing; lra. }
  assert (B : ln y < (IZR e + 1) * ln 2).
  { rewrite <- plus_IZR, <- ln_IZR_pow2 by lia. apply ln_increasing; lra. }
  symmetry. apply Int_part_spec. split.
  - apply (Rmult_lt_reg_r (ln 2)); [lra|].
    replace ((ln y / ln 2 - 1) * ln 2) with (ln y - ln 2) by (field; lra). lra.
  - apply (Rmult_le_reg_r (ln 2)); [lra|].
    replace (ln y / ln 2 * ln 2) with (ln y) by (field; lra). exact A.
Qed.


(** A value whose scaled form lies in [(a - 1/2, a]] rounds to [a]. *)
Lemma round_pos53_exact (y : R) (e a : Z) :
  (0 <= e <= 52)%Z -> IZR (2 ^ e) <= y < IZR (2 ^ (e + 1)) ->
  IZR a - / 2 < y * IZR (2 ^ (52 - e)) <= IZR a ->
  round_pos53 y = IZR a / IZR (2 ^ (52 - e)).
Proof.
  intros He Hy [Ha Hb]. unfold round_pos53. cbv zeta.
  rewrite (Int_part_log2_R y e) by (tauto || lia).
  replace (e - 52)%Z with (- (52 - e))%Z by lia. rewrite powerRZ2_neg by lia.
  set (S := (2 ^ (52 - e))%Z) in *.
  assert (HS : 0 < IZR S) by (apply IZR_lt; unfold S; lia).
  replace (y / / IZR S) with (y * IZR S) by (field; lra).
  set (m := y * IZR S) in *.
  destruct (Req_dec m (IZR a)) as [E | E].
  - rewrite E, Int_part_IZR.
    destruct (Rlt_dec (IZR a - IZR a) (/ 2)) as [_ | N]; [reflexivity | lra].
  - assert (Hf : Int_part m = (a - 1)%Z).
    { symmetry. apply Int_part_spec. rewrite minus_IZR. lra. }
    rewrite Hf, minus_IZR.
    destruct (Rlt_dec (m - (IZR a - 1)) (/ 2)) as [N | _]; [lra|].
    destruct (Rlt_dec (/ 2) (m - (IZR a - 1))) as [_ | N]; [|lra].
    replace (a - 1 + 1)%Z with a by lia. reflexivity.
Qed.

(** An integer below [2 ^ 53] converts to a [double] exactly. *)
Lemma round_double_int (x : Z) : (1 <= x < 2 ^ 53)%Z -> round_double (IZR x) = IZR x.
Proof.
  intros Hx. unfold round_double.
  destruct (Rlt_dec 0 (IZR x)) as [_ | N]; [|exfalso; apply N, IZR_lt; lia].
  destruct (Z.log2_spec x ltac:(lia)) as [Hlo Hhi]. rewrite <- Z.add_1_r in Hhi.
  pose proof (Z.log2_nonneg x).
  assert (Hle : (Z.log2 x < 53)%Z) by (apply Z.log2_lt_pow2; lia).
  set (e := Z.log2 x) in *.
  rewrite (round_pos53_exact (IZR x) e (x * 2 ^ (52 - e))).
  - rewrite mult_IZR. field. apply not_0_IZR. lia.
  - lia.
  - split; [apply IZR_le | apply IZR_lt]; lia.
  - rewrite mult_IZR. lra.
Qed.


(** Just below a power of two from [2 ^ 49] on, the logarithm of
    [2 ^ J - 1] lies within half a unit in the last place of [J] and
    rounds up to [J]. *)
Lemma Int_part_round_log2_pow2_pred (J : Z) :
  (49 <= J <= 53)%Z ->
  Int_part (round_double (ln (round_double (IZR (2 ^ J - 1))) / ln 2)) = J.
Proof.
  intros HJ. rewrite round_double_int.
  2:{ assert (2 ^ 49 <= 2 ^ J <= 2 ^ 53)%Z by (split; apply Z.pow_le_mono_r; lia). lia. }
  pose proof ln_two_pos as Hl2. pose proof ln_two_gt_4_7 as Hl7.
  set (x := (2 ^ J - 1)%Z).
  assert (Hx49 : (2 ^ 49 - 1 <= x)%Z).
  { unfold x. assert (2 ^ 49 <= 2 ^ J)%Z by (apply Z.pow_le_mono_r; lia). lia. }
  assert (HX : 562949953421311 <= IZR x).
  { apply IZR_le in Hx49. exact Hx49. }
  set (P := (2 ^ J)%Z).
  assert (HP : IZR P = IZR x + 1) by (unfold x, P; rewrite minus_IZR; ring).
  (* [x < P], and [ln P - ln x <= P / x - 1 = 1 / x] *)
  assert (U : ln (IZR x) < IZR J * ln 2).
  { rewrite <- ln_IZR_pow2 by lia. fold P. apply ln_increasing; lra. }
  assert (G : IZR J * ln 2 - ln (IZR x) <= / IZR x).
  { rewrite <- ln_IZR_pow2 by lia. fold P.
    pose proof (ln_le_pred (IZR P / IZR x) ltac:(apply Rdiv_lt_0_compat; lra)) as L.
    unfold Rdiv in L. rewrite ln_mult, ln_Rinv in L by (try apply Rinv_0_lt_compat; lra).
    replace (IZR P * / IZR x - 1) with (/ IZR x) in L by (rewrite HP; field; lra).
    lra. }
  set (y := ln (IZR x) / ln 2).
  assert (Hyu : y < IZR J).
  { unfold y. apply (Rmult_lt_reg_r (ln 2)); [lra|].
    replace (ln (IZR x) / ln 2 * ln 2) with (ln (IZR x)) by (field; lra). exact U. }
  assert (Hyl : IZR J - y < / 2 * / IZR (2 ^ 47)).
  { unfold y. apply (Rmult_lt_reg_r (ln 2)); [lra|].
    replace ((IZR J - ln (IZR x) / ln 2) * ln 2) with (IZR J * ln 2 - ln (IZR x))
      by (field; lra).
    apply Rle_lt_trans with (/ IZR x); [exact G|].
    change (IZR (2 ^ 47)) with 140737488355328.
    apply (Rmult_lt_reg_l (IZR x)); [lra|].
    rewrite Rinv_r by lra. nra. }
  assert (Hyb : IZR (2 ^ 5) <= y < IZR (2 ^ (5 + 1))).
  { change (IZR (2 ^ 5)) with 32. change (IZR (2 ^ (5 + 1))) with 64.
    assert (IZR J <= 53) by (apply IZR_le; lia).
    assert (49 <= IZR J) by (apply IZR_le; lia).
    assert (0 < / 2 * / IZR (2 ^ 47) < 1).
    { change (IZR (2 ^ 47)) with 140737488355328. split; lra. }
    lra. }
  unfold round_double. destruct (Rlt_dec 0 y) as [_ | N]; [|lra].
  rewrite (round_pos53_exact y 5 (J * 2 ^ 47)).
  - rewrite mult_IZR. change (52 - 5)%Z with 47%Z.
    replace (IZR J * IZR (2 ^ 47) / IZR (2 ^ 47)) with (IZR J)
      by (field; change (IZR (2 ^ 47)) with 140737488355328; lra).
    apply Int_part_IZR.
  - lia.
  - exact Hyb.
  - change (52 - 5)%Z with 47%Z. rewrite mult_IZR.
    change (IZR (2 ^ 47)) with 140737488355328 in *.
    split; nra.
Qed.

End Log2.


(** The width byte for a compressed header whose product is [2 ^ J - 1]
    with [49 <= J <= 53]. *)
Lemma bits_per_element_pow2_pred (k n compressed J : Z) :
  0 < compressed -> 49 <= J <= 53 -> n * k = 2 ^ J - 1 ->
  bits_per_element_of k n compressed = Some (J + 1).
Proof.
  intros Hc HJ Hnk. unfold bits_per_element_of.
  assert (2 ^ 49 <= 2 ^ J <= 2 ^ 53) by (split; apply Z.pow_le_mono_r; lia).
  replace (0 <? compressed) with true by lia. cbv zeta.
  unfold wrap_u64. rewrite Hnk, Z.mod_small by lia.
  replace (2 ^ J - 1 =? 0) with false by lia.
  rewrite Int_part_round_log2_pow2_pred by lia.
  rewrite Z.mod_small by lia. reflexivity.
Qed.

Lemma log2_pow2_pred (J : Z) : 1 <= J -> Z.log2 (2 ^ J - 1) = J - 1.
Proof.
  intros HJ. apply Z.log2_unique; [lia|].
  replace (Z.succ (J - 1)) with J by lia.
  assert (2 ^ J = 2 * 2 ^ (J - 1)) by (rewrite <- Z.pow_succ_r by lia; f_equal; lia).
  assert (0 < 2 ^ (J - 1)) by (apply Z.pow_pos_nonneg; lia).
  lia.
Qed.




(** *** Bit-compression: lemmas *)

Section Stream.
Variables (sa : array) (b : Z).
Hypothesis Hb : 0 < b.

Lemma stream_bound (n : nat) :
  (forall j, 0 <= j < Z.of_nat n -> 0 <= sa j < 2 ^ b) ->
  0 <= stream sa b n < 2 ^ (Z.of_nat n * b).
Proof.
  induction n as [|n IH]; intros Hsa; [simpl; lia|].
  cbn [stream]. destruct IH as [H0 H1]; [intros j Hj; apply Hsa; lia|].
  pose proof (Hsa (Z.of_nat n) ltac:(lia)).
  replace (Z.of_nat (S n) * b) with (Z.of_nat n * b + b) by lia.
  rewrite Z.pow_add_r by lia. nia.
Qed.

Lemma stream_div_succ (n : nat) c :
  0 <= c -> 0 <= sa (Z.of_nat n) < 2 ^ b ->
  stream sa b (S n) / 2 ^ (b + c) = stream sa b n / 2 ^ c.
Proof.
  intros Hc Hs. cbn [stream]. rewrite Z.pow_add_r, <- Z.div_div by lia.
  rewrite Z.div_add_l by lia. rewrite (Z.div_small (sa _)) by lia. now rewrite Z.add_0_r.
Qed.

Lemma stream_prefix (n m : nat) :
  (forall j, 0 <= j < Z.of_nat (n + m) -> 0 <= sa j < 2 ^ b) ->
  stream sa b (n + m) / 2 ^ (Z.of_nat m * b) = stream sa b n.
Proof.
  induction m as [|m IH]; intros Hsa.
  - rewrite Nat.add_0_r. simpl. apply Z.div_1_r.
  - rewrite Nat.add_succ_r.
    replace (Z.of_nat (S m) * b) with (b + Z.of_nat m * b) by lia.
    rewrite stream_div_succ by (try apply Hsa; lia).
    apply IH. intros j Hj; apply Hsa; lia.
Qed.

Lemma stream_testbit (n : nat) i j :
  (forall j, 0 <= j < Z.of_nat n -> 0 <= sa j < 2 ^ b) ->
  0 <= i < Z.of_nat n -> 0 <= j < b ->
  Z.testbit (stream sa b n) ((Z.of_nat n - 1 - i) * b + j) = Z.testbit (sa i) j.
Proof.
  intros Hsa Hi Hj.
  replace n with (S (Z.to_nat i) + (n - S (Z.to_nat i)))%nat by lia.
  rewrite Z.add_comm, <- Z.div_pow2_bits by nia.
  replace ((Z.of_nat (S (Z.to_nat i) + (n - S (Z.to_nat i))) - 1 - i) * b)
    with (Z.of_nat (n - S (Z.to_nat i)) * b) by lia.
  rewrite stream_prefix by (intros; apply Hsa; lia).
  cbn [stream]. rewrite Z2Nat.id by lia.
  rewrite <- (Z.mod_pow2_bits_low _ b j) by lia.
  rewrite Z.add_comm, Z.mod_add by lia. rewrite Z.mod_small by (apply Hsa; lia).
  reflexivity.
Qed.

End Stream.

Lemma wrap_s8_id x : -128 <= x < 128 -> wrap_s8 x = x.
Proof. intros H. unfold wrap_s8. rewrite Z.mod_small; lia. Qed.

Lemma mod_pow2_mul_low X e :
  0 <= e <= 64 -> ((X * 2 ^ e) mod 2 ^ 64) mod 2 ^ e = 0.
Proof.
  intros He. rewrite Z.mod_mod_divide.
  - apply Z.mod_mul. pose proof (Z.pow_pos_nonneg 2 e). lia.
  - exists (2 ^ (64 - e)). rewrite <- Z.pow_add_r by lia. f_equal. lia.
Qed.

Lemma add_below_word M e r :
  0 <= e <= 64 -> M mod 2 ^ e = 0 -> 0 <= M < 2 ^ 64 -> 0 <= r < 2 ^ e ->
  M + r < 2 ^ 64.
Proof.
  intros He HM HM' Hr.
  pose proof (Z.pow_pos_nonneg 2 e ltac:(lia) ltac:(lia)) as Hpe.
  assert (H64 : 2 ^ 64 = 2 ^ e * 2 ^ (64 - e)) by (rewrite <- Z.pow_add_r by lia; f_equal; lia).
  apply Z.mod_divide in HM; [|lia]. destruct HM as [q ->].
  assert (q < 2 ^ (64 - e)) by nia. nia.
Qed.


Section Compress.
Variables (SA : array) (b : Z).
Hypothesis Hb : 1 <= b <= 63.

Lemma compress_step_inv (i : Z) (st : cstate) :
  0 <= i -> (forall j, 0 <= j <= i -> 0 <= SA j < 2 ^ b) -> compress_inv SA b i st ->
  exists st', compress_step b st i = Some st' /\ compress_inv SA b (i + 1) st'.
Proof.
  intros Hi Hall Hinv. pose proof (Hall i ltac:(lia)) as Ha.
  destruct Hinv as (Hci & Hrng & Hstrict & Hsh & Hel & Hw & Hx).
  set (W := cs_ci st + 1) in *.
  set (S := stream SA b (Z.to_nat i)) in *.
  set (a := SA i) in *.
  assert (HS1 : stream SA b (Z.to_nat (i + 1)) = S * 2 ^ b + a).
  { rewrite Z2Nat.inj_add, Nat.add_1_r by lia. cbn [stream].
    rewrite Z2Nat.id by lia. reflexivity. }
  assert (HSn : 0 <= S).
  { apply (stream_bound SA b ltac:(lia)). intros j Hj; apply Hall; lia. }
  assert (Hread : cs_sa st i = a) by (apply Hx; nia).
  set (sh := 64 * W - (i + 1) * b) in *.
  set (e := 64 * W - i * b) in *.
  assert (He : e = sh + b) by (unfold e, sh; lia).
  assert (He64 : 0 <= e <= 64) by (unfold e; lia).
  pose proof (Z.pow_pos_nonneg 2 e ltac:(lia) ltac:(lia)) as Hpe.
  pose proof (Z.pow_pos_nonneg 2 b ltac:(lia) ltac:(lia)) as Hpb.
  unfold compress_step. rewrite Hsh.
  destruct (Z.ltb_spec sh 0) as [Hneg | Hpos].
  - (* the field straddles two words *)
    unfold u64_shr. rewrite Hread.
    replace ((0 <=? -1 * sh) && (-1 * sh <? 64)) with true by (symmetry; apply andb_true_iff; lia).
    cbn [cs_sa cs_shift cs_element cs_ci].
    assert (Hci_i : cs_ci st <> i) by nia.
    rewrite upd_ne by lia.
    rewrite wrap_s8_id by lia.
    unfold u64_shl.
    replace ((0 <=? sh + 64) && (sh + 64 <? 64)) with true by (symmetry; apply andb_true_iff; lia).
    eexists; split; [reflexivity|].
    set (d := -1 * sh) in *.
    pose proof (Z.pow_pos_nonneg 2 d ltac:(lia) ltac:(lia)) as Hpd.
    assert (Hpb' : 2 ^ b = 2 ^ e * 2 ^ d) by (rewrite <- Z.pow_add_r by lia; f_equal; lia).
    assert (Hhi : Z.shiftr a d = a / 2 ^ d) by (apply Z.shiftr_div_pow2; lia).
    assert (Hhi' : 0 <= a / 2 ^ d < 2 ^ e).
    { split; [apply Z.div_pos; lia|]. apply Z.div_lt_upper_bound; lia. }
    assert (Hm := mod_pow2_mul_low S e He64).
    pose proof (Z.mod_pos_bound (S * 2 ^ e) (2 ^ 64) ltac:(lia)).
    unfold compress_inv; cbn [cs_ci cs_sa cs_element cs_shift].
    replace (cs_ci st + 1 + 1) with (W + 1) by (unfold W; lia).
    split; [lia|]. split; [nia|]. split; [right; nia|].
    split; [rewrite wrap_s8_id; unfold sh; lia|].
    split.
    + rewrite Z.lor_0_l, HS1, Z.shiftl_mul_pow2 by lia.
      replace (64 * (W + 1) - (i + 1) * b) with (sh + 64) by (unfold sh; lia).
      assert (Hq : 2 ^ b * 2 ^ (sh + 64) = 2 ^ e * 2 ^ 64)
        by (rewrite <- !Z.pow_add_r by lia; f_equal; lia).
      replace ((S * 2 ^ b + a) * 2 ^ (sh + 64)) with (a * 2 ^ (sh + 64) + (S * 2 ^ e) * 2 ^ 64)
        by (rewrite Z.mul_add_distr_r, <- (Z.mul_assoc S (2 ^ b)), Hq; ring).
      rewrite Z.mod_add by lia. now rewrite Hread.
    + split.
      * intros w Hw'. destruct (Z.eq_dec w (cs_ci st)) as [-> | Hne].
        -- rewrite upd_eq, Hel, Hhi, HS1.
           replace ((i + 1) * b - 64 * (cs_ci st + 1)) with d by (unfold d, sh, W; lia).
           replace (S * 2 ^ b + a) with (a + (S * 2 ^ e) * 2 ^ d) by (rewrite Hpb'; ring).
           rewrite Z.div_add by lia.
           rewrite (lor_disjoint_add _ _ e) by lia.
           rewrite (Z.add_comm (a / 2 ^ d)), <- Zplus_mod_idemp_l. symmetry. apply Z.mod_small.
           split; [lia|]. apply (add_below_word _ e); lia.
        -- rewrite upd_ne by lia. rewrite Hw by lia.
           replace ((i + 1) * b - 64 * (w + 1)) with (b + (i * b - 64 * (w + 1))) by lia.
           rewrite Z2Nat.inj_add, Nat.add_1_r by lia.
           rewrite stream_div_succ by (try rewrite Z2Nat.id; lia). reflexivity.
      * intros x Hx'. rewrite upd_ne by lia. apply Hx. lia.
  - (* the field fits in the current word *)
    unfold u64_shl. rewrite Hread, Hsh.
    replace ((0 <=? sh) && (sh <? 64)) with true by (symmetry; apply andb_true_iff; lia).
    eexists; split; [reflexivity|].
    pose proof (Z.pow_pos_nonneg 2 sh ltac:(lia) ltac:(lia)) as Hps.
    assert (Hpe' : 2 ^ e = 2 ^ sh * 2 ^ b) by (rewrite He, Z.pow_add_r; lia).
    assert (Hy : Z.shiftl a sh mod 2 ^ 64 = a * 2 ^ sh).
    { rewrite Z.shiftl_mul_pow2 by lia. apply Z.mod_small.
      split; [nia|]. apply Z.lt_le_trans with (2 ^ e); [nia|]. apply Z.pow_le_mono_r; lia. }
    rewrite Hy.
    unfold compress_inv; cbn [cs_ci cs_sa cs_element cs_shift]; fold W.
    split; [lia|]. split; [nia|]. split; [nia|].
    split; [rewrite wrap_s8_id; unfold sh; lia|].
    split.
    + rewrite HS1, Hel.
      assert (Hm := mod_pow2_mul_low S e He64).
      pose proof (Z.mod_pos_bound (S * 2 ^ e) (2 ^ 64) ltac:(lia)).
      rewrite (lor_disjoint_add _ _ e) by (try lia; nia).
      replace (64 * W - (i + 1) * b) with sh by (unfold sh; lia).
      replace ((S * 2 ^ b + a) * 2 ^ sh) with (S * 2 ^ e + a * 2 ^ sh) by (rewrite Hpe'; ring).
      rewrite <- Zplus_mod_idemp_l. symmetry. apply Z.mod_small.
      split; [nia|]. apply (add_below_word _ e); try lia. nia.
    + split.
      * intros w Hw'. rewrite Hw by lia.
        replace ((i + 1) * b - 64 * (w + 1)) with (b + (i * b - 64 * (w + 1))) by lia.
        rewrite Z2Nat.inj_add, Nat.add_1_r by lia.
        rewrite stream_div_succ by (try rewrite Z2Nat.id; lia). reflexivity.
      * intros x Hx'. apply Hx. exact Hx'.
Qed.


Lemma compress_loop_inv (f : nat) :
  forall i st, 0 <= i -> (forall j, 0 <= j < i + Z.of_nat f -> 0 <= SA j < 2 ^ b) ->
  compress_inv SA b i st ->
  exists st', compress_loop b st i f = Some st' /\ compress_inv SA b (i + Z.of_nat f) st'.
Proof.
  induction f as [|f IH]; intros i st Hi Hall Hinv.
  - exists st. split; [reflexivity|]. now rewrite Z.add_0_r.
  - cbn [compress_loop].
    destruct (compress_step_inv i st Hi ltac:(intros j Hj; apply Hall; lia) Hinv)
      as (st1 & -> & Hinv1).
    destruct (IH (i + 1) st1 ltac:(lia) ltac:(intros j Hj; apply Hall; lia) Hinv1)
      as (st2 & -> & Hinv2).
    exists st2. split; [reflexivity|]. now replace (i + Z.of_nat (S f)) with (i + 1 + Z.of_nat f) by lia.
Qed.

Lemma compress_sa_spec (L0 : Z) :
  1 <= L0 -> (forall j, 0 <= j < L0 -> 0 <= SA j < 2 ^ b) ->
  exists out,
    compress_sa SA L0 b = Some (out, packed_words L0 b) /\
    (forall w, 0 <= w < packed_words L0 b -> out w = packed_word SA L0 b w) /\
    (forall x, ~ (0 <= x < packed_words L0 b) -> out x = SA x).
Proof.
  intros HL Hall.
  assert (Hinit : compress_inv SA b 0
            {| cs_sa := SA; cs_element := 0; cs_shift := wrap_s8 (64 - b); cs_ci := 0 |}).
  { unfold compress_inv; cbn [cs_ci cs_sa cs_element cs_shift].
    split; [lia|]. split; [lia|]. split; [left; lia|].
    split; [rewrite wrap_s8_id; lia|]. split; [reflexivity|].
    split; [intros; lia|]. intros; reflexivity. }
  destruct (compress_loop_inv (Z.to_nat L0) 0 _ ltac:(lia)
              ltac:(intros j Hj; apply Hall; lia) Hinit) as (st & Hloop & Hinv).
  rewrite Z2Nat.id, Z.add_0_l in Hinv by lia.
  destruct Hinv as (Hci & Hrng & Hstrict & Hsh & Hel & Hw & Hx).
  set (W := cs_ci st + 1) in *.
  assert (HW : packed_words L0 b = W).
  { unfold packed_words. symmetry. apply Z.div_unique with (L0 * b + 63 - 64 * W); nia. }
  unfold compress_sa. rewrite Hloop. rewrite HW.
  eexists; split; [reflexivity|].
  set (S := stream SA b (Z.to_nat L0)) in *.
  assert (Hpos : 0 <= 64 * W - L0 * b) by lia.
  split.
  - intros w Hw'. unfold packed_word. rewrite HW. fold S.
    destruct (Z.eq_dec w (cs_ci st)) as [-> | Hne].
    + rewrite upd_eq, Hel. fold W. replace (64 * (W - 1 - cs_ci st)) with 0 by (unfold W; lia).
      now rewrite Z.pow_0_r, Z.div_1_r.
    + rewrite upd_ne by lia. rewrite Hw by (unfold W in *; lia).
      replace (64 * (W - 1 - w)) with ((64 * W - L0 * b) + (L0 * b - 64 * (w + 1))) by lia.
      rewrite Z.pow_add_r by lia.
      rewrite <- Z.div_div by (try apply Z.pow_nonzero; try apply Z.pow_pos_nonneg; lia).
      rewrite Z.div_mul by (apply Z.pow_nonzero; lia). reflexivity.
  - intros x Hx'. rewrite upd_ne by (unfold W in *; lia). apply Hx. lia.
Qed.

End Compress.


Section Decompress.
Variables (SA cs buffer : array) (L0 b : Z).
Hypothesis Hb : 1 <= b <= 63.
Hypothesis HL : 1 <= L0.
Hypothesis Hall : forall j, 0 <= j < L0 -> 0 <= SA j < 2 ^ b.
Hypothesis Hcs : forall w, 0 <= w < packed_words L0 b -> cs w = packed_word SA L0 b w.

Let W := packed_words L0 b.
Let P := stream SA b (Z.to_nat L0) * 2 ^ (64 * W - L0 * b).

Lemma W_bounds : 64 * (W - 1) < L0 * b <= 64 * W.
Proof.
  unfold W, packed_words.
  pose proof (Z.div_mod (L0 * b + 63) 64 ltac:(lia)).
  pose proof (Z.mod_pos_bound (L0 * b + 63) 64 ltac:(lia)). nia.
Qed.

Lemma cs_testbit w t :
  0 <= w < W -> 0 <= t < 64 -> Z.testbit (cs w) t = Z.testbit P (64 * (W - 1 - w) + t).
Proof.
  intros Hw Ht. rewrite Hcs by exact Hw. unfold packed_word. fold W. fold P.
  rewrite Z.mod_pow2_bits_low by lia. rewrite Z.div_pow2_bits by lia.
  f_equal. lia.
Qed.

Lemma cs_testbit_high w t : 0 <= w < W -> 64 <= t -> Z.testbit (cs w) t = false.
Proof.
  intros Hw Ht. rewrite Hcs by exact Hw. unfold packed_word.
  apply Z.mod_pow2_bits_high. lia.
Qed.

Lemma P_testbit i j :
  0 <= i < L0 -> 0 <= j < b -> Z.testbit P (64 * W - (i + 1) * b + j) = Z.testbit (SA i) j.
Proof.
  intros Hi Hj. pose proof W_bounds. unfold P.
  rewrite Z.mul_pow2_bits by lia.
  replace (64 * W - (i + 1) * b + j - (64 * W - L0 * b))
    with ((Z.of_nat (Z.to_nat L0) - 1 - i) * b + j) by lia.
  apply stream_testbit; try lia. intros j' Hj'; apply Hall; lia.
Qed.

Lemma SA_testbit_high i j : 0 <= i < L0 -> b <= j -> Z.testbit (SA i) j = false.
Proof.
  intros Hi Hj. rewrite <- (Z.mod_small (SA i) (2 ^ b)) by (apply Hall; lia).
  apply Z.mod_pow2_bits_high. lia.
Qed.


Lemma decompress_step_inv i st :
  0 <= i < L0 -> decompress_inv SA buffer b i st ->
  exists st', decompress_step cs b st i = Some st' /\ decompress_inv SA buffer b (i + 1) st'.
Proof.
  intros Hi (Hs & Hci & Hpos & Hout).
  set (s := ds_start st) in *. set (c := ds_ci st) in *.
  pose proof W_bounds as HWb. fold W in HWb.
  assert (Hib : (i + 1) * b <= L0 * b) by nia.
  assert (HcW : c < W) by nia.
  unfold decompress_step. fold s c.
  unfold u64_shl. replace ((0 <=? s) && (s <? 64)) with true by (symmetry; apply andb_true_iff; lia).
  unfold u64_shr at 1. replace ((0 <=? 64 - b) && (64 - b <? 64)) with true by (symmetry; apply andb_true_iff; lia).
  set (y := Z.shiftr (Z.shiftl (cs c) s mod 2 ^ 64) (64 - b)).
  assert (Hy : forall j, 0 <= j ->
            Z.testbit y j = (j <? b) && (s + b - 64 <=? j) && Z.testbit (SA i) j).
  { intros j Hj. unfold y. rewrite Z.shiftr_spec by lia.
    destruct (Z.ltb_spec j b) as [Hjb | Hjb].
    - rewrite Z.mod_pow2_bits_low by lia. rewrite Z.shiftl_spec by lia.
      destruct (Z.leb_spec (s + b - 64) j) as [Hj2 | Hj2].
      + rewrite cs_testbit by lia.
        replace (64 * (W - 1 - c) + (j + (64 - b) - s)) with (64 * W - (i + 1) * b + j) by lia.
        rewrite P_testbit by lia. reflexivity.
      + apply Z.testbit_neg_r. lia.
    - apply Z.mod_pow2_bits_high. lia. }
  assert (Hyfull : s + b <= 64 -> y = SA i).
  { intros Hsb. apply Z.bits_inj'. intros j Hj. rewrite Hy by lia.
    destruct (Z.ltb_spec j b); [| rewrite SA_testbit_high by lia; reflexivity].
    destruct (Z.leb_spec (s + b - 64) j); [reflexivity | lia]. }
  assert (Hout_other : forall x, x <> i ->
            (if (0 <=? x) && (x <? i) then Z.lor (buffer x) (SA x) else buffer x) =
            (if (0 <=? x) && (x <? i + 1) then Z.lor (buffer x) (SA x) else buffer x)).
  { intros x Hx. destruct (Z.leb_spec 0 x), (Z.ltb_spec x i), (Z.ltb_spec x (i + 1));
      simpl; try reflexivity; lia. }
  assert (Hout_i : ds_out st i = buffer i).
  { rewrite Hout. destruct (Z.ltb_spec i i); [lia|]. now rewrite andb_false_r. }
  assert (Hcond_i : (0 <=? i) && (i <? i + 1) = true) by (apply andb_true_iff; lia).
  rewrite wrap_s8_id by lia.
  destruct (Z.leb_spec 64 (s + b)) as [Hge | Hlt].
  - rewrite wrap_s8_id by lia.
    destruct (Z.ltb_spec 0 (s + b - 64)) as [Hpos2 | Hzero].
    + unfold u64_shr.
      replace ((0 <=? 64 - (s + b - 64)) && (64 - (s + b - 64) <? 64)) with true
        by (symmetry; apply andb_true_iff; lia).
      set (z := Z.shiftr (cs (c + 1)) (64 - (s + b - 64))).
      assert (Hz : forall j, 0 <= j -> Z.testbit z j = (j <? s + b - 64) && Z.testbit (SA i) j).
      { intros j Hj. unfold z. rewrite Z.shiftr_spec by lia.
        destruct (Z.ltb_spec j (s + b - 64)).
        - rewrite cs_testbit by lia.
          replace (64 * (W - 1 - (c + 1)) + (j + (64 - (s + b - 64)))) with (64 * W - (i + 1) * b + j) by lia.
          apply P_testbit; lia.
        - apply cs_testbit_high; lia. }
      eexists; split; [reflexivity|].
      unfold decompress_inv; cbn [ds_out ds_start ds_ci].
      split; [lia|]. split; [lia|]. split; [lia|].
      intros x. destruct (Z.eq_dec x i) as [-> | Hx].
      * rewrite !upd_eq, Hout_i, Hcond_i, <- Z.lor_assoc. f_equal.
        apply Z.bits_inj'. intros j Hj. rewrite Z.lor_spec, Hy, Hz by lia.
        destruct (Z.ltb_spec j b); [| rewrite SA_testbit_high by lia; now rewrite !andb_false_r].
        destruct (Z.leb_spec (s + b - 64) j), (Z.ltb_spec j (s + b - 64)); simpl;
          try (exfalso; lia); rewrite ?orb_false_r; reflexivity.
      * rewrite !upd_ne by exact Hx. rewrite Hout. now apply Hout_other.
    + eexists; split; [reflexivity|].
      unfold decompress_inv; cbn [ds_out ds_start ds_ci].
      split; [lia|]. split; [lia|]. split; [lia|].
      intros x. destruct (Z.eq_dec x i) as [-> | Hx].
      * rewrite upd_eq, Hout_i, Hcond_i, Hyfull by lia. reflexivity.
      * rewrite upd_ne by exact Hx. rewrite Hout. now apply Hout_other.
  - eexists; split; [reflexivity|].
    unfold decompress_inv; cbn [ds_out ds_start ds_ci].
    split; [lia|]. split; [lia|]. split; [lia|].
    intros x. destruct (Z.eq_dec x i) as [-> | Hx].
    + rewrite upd_eq, Hout_i, Hcond_i, Hyfull by lia. reflexivity.
    + rewrite upd_ne by exact Hx. rewrite Hout. now apply Hout_other.
Qed.


Lemma decompress_loop_inv (f : nat) :
  forall i st, 0 <= i -> i + Z.of_nat f <= L0 -> decompress_inv SA buffer b i st ->
  exists st', decompress_loop cs b st i f = Some st' /\
              decompress_inv SA buffer b (i + Z.of_nat f) st'.
Proof.
  induction f as [|f IH]; intros i st Hi Hf Hinv.
  - exists st. split; [reflexivity|]. now rewrite Z.add_0_r.
  - cbn [decompress_loop].
    destruct (decompress_step_inv i st ltac:(lia) Hinv) as (st1 & -> & Hinv1).
    destruct (IH (i + 1) st1 ltac:(lia) ltac:(lia) Hinv1) as (st2 & -> & Hinv2).
    exists st2. split; [reflexivity|].
    now replace (i + Z.of_nat (S f)) with (i + 1 + Z.of_nat f) by lia.
Qed.

Lemma decompress_sa_spec :
  exists out, decompress_sa cs L0 b buffer = Some out /\
              forall x, 0 <= x < L0 -> out x = Z.lor (buffer x) (SA x).
Proof.
  assert (Hinit : decompress_inv SA buffer b 0 {| ds_out := buffer; ds_start := 0; ds_ci := 0 |}).
  { unfold decompress_inv; cbn [ds_out ds_start ds_ci].
    split; [lia|]. split; [lia|]. split; [lia|].
    intros x. destruct (Z.leb_spec 0 x), (Z.ltb_spec x 0); simpl; reflexivity || lia. }
  destruct (decompress_loop_inv (Z.to_nat L0) 0 _ ltac:(lia) ltac:(lia) Hinit)
    as (st & Hloop & (_ & _ & _ & Hout)).
  unfold decompress_sa. rewrite Hloop. eexists; split; [reflexivity|].
  intros x Hx. rewrite Hout. rewrite Z.add_0_l, Z2Nat.id by lia.
  replace ((0 <=? x) && (x <? L0)) with true by (symmetry; apply andb_true_iff; lia).
  reflexivity.
Qed.

End Decompress.

(** *** Round trip through [compress_sa] and [decompress_sa] *)

(** At [bits_per_element = 64] the second iteration of [compress_sa]
    shifts a [uint64_t] right by [64], which is undefined: for
    [SA = [1; 2]] there is no compressed array to decompress. *)
Lemma compress_sa_width_64_undefined :
  compress_sa (fun x => x + 1) 2 64 = None.
Proof. reflexivity. Qed.

(** C7 (code bug): [decompress_sa] ORs the fields into the buffer that
    [malloc] returned and never clears it.  If that memory holds [2] in
    every slot (left over from an earlier allocation, say), compressing
    [SA = [1; 2]] at width [2] and decompressing it gives [2 | 1 = 3] as
    the first entry instead of [1]. *)
Lemma compress_decompress_dirty_buffer :
  exists sa' len,
    compress_sa (fun x => x + 1) 2 2 = Some (sa', len) /\
    exists out, decompress_sa sa' 2 2 (fun _ => 2) = Some out /\ out 0 = 3.
Proof.
  do 2 eexists. split; [reflexivity |].
  eexists. split; [reflexivity |]. vm_compute. reflexivity.
Qed.

(** C7 (what the code computes): for [1 <= b <= 63] and [L0] entries
    below [2 ^ b], [compress_sa] succeeds and [decompress_sa] of its output
    ORs every original entry into the matching slot of its output buffer;
    only when that buffer happens to be zero-filled does it return the
    original entries exactly. *)
Theorem compress_decompress_roundtrip :
  forall (SA buffer : array) (L0 b : Z),
  1 <= b <= 63 -> 0 <= L0 -> (forall j, 0 <= j < L0 -> 0 <= SA j < 2 ^ b) ->
  exists sa' len,
    compress_sa SA L0 b = Some (sa', len) /\
    (exists out, decompress_sa sa' L0 b buffer = Some out /\
       forall i, 0 <= i < L0 -> out i = Z.lor (buffer i) (SA i)) /\
    (exists out, decompress_sa sa' L0 b (fun _ => 0) = Some out /\
       forall i, 0 <= i < L0 -> out i = SA i).
Proof.
  intros SA buffer L0 b Hb HL Hall.
  destruct (Z.eq_dec L0 0) as [-> | HL1].
  - exists (upd SA 0 0), 1. split; [reflexivity|].
    split; eexists; (split; [reflexivity | intros; lia]).
  - destruct (compress_sa_spec SA b Hb L0 ltac:(lia) Hall) as (out & Hc & Hw & _).
    exists out, (packed_words L0 b). split; [exact Hc|]. split.
    + edestruct decompress_sa_spec with (SA := SA) (cs := out) (buffer := buffer) (L0 := L0) (b := b)
        as (o & Ho & Hv); try eassumption; try lia.
      exists o. split; [exact Ho | exact Hv].
    + edestruct decompress_sa_spec with (SA := SA) (cs := out) (buffer := fun _ : Z => 0) (L0 := L0) (b := b)
        as (o & Ho & Hv); try eassumption; try lia.
      exists o. split; [exact Ho|]. intros i Hi. now rewrite Hv.
Qed.

Lemma compress_decompress_roundtrip_witness :
  exists sa' len,
    compress_sa (fun x => x mod 7) 5 3 = Some (sa', len) /\
    (exists out, decompress_sa sa' 5 3 (fun x => x) = Some out /\
       forall i, 0 <= i < 5 -> out i = Z.lor i (i mod 7)) /\
    (exists out, decompress_sa sa' 5 3 (fun _ => 0) = Some out /\
       forall i, 0 <= i < 5 -> out i = i mod 7).
Proof.
  apply (compress_decompress_roundtrip (fun x => x mod 7) (fun x => x) 5 3); try lia.
  intros j Hj. pose proof (Z.mod_pos_bound j 7). simpl. lia.
Defined.

(** *** In-place compression *)

(** C10 (counterexample): an entry wider than [b] bits is ORed into the
    neighbouring fields.  For [SA = [1; 0; 7]] and [b = 1] the single
    compressed word is [2^63 + 2^62 + 2^61]; the 1-bit fields of the
    entries pack to [2^63 + 2^61], and the entries taken as a stream of
    [1]-bit digits give [2^62 + 2^61]. *)
Lemma compress_sa_wide_entries :
  let SA := fun x => nth (Z.to_nat x) (1 :: 0 :: 7 :: nil) 0 in
  option_map (fun r => (fst r 0, snd r)) (compress_sa SA 3 1) =
    Some (2 ^ 63 + 2 ^ 62 + 2 ^ 61, 1) /\
  packed_word (fun x => SA x mod 2) 3 1 0 = 2 ^ 63 + 2 ^ 61 /\
  packed_word SA 3 1 0 = 2 ^ 62 + 2 ^ 61.
Proof. vm_compute. repeat split. Qed.

(** C10 (amended): for [L0 >= 1] entries below [2 ^ b] and [0 < b < 64],
    [compress_sa] sets the length to [ceil(L0 * b / 64)], overwrites
    exactly that prefix of the caller's array with the big-endian stream
    of the [b]-bit entries (left-aligned, zero-padded at the end), and
    leaves every other slot of the array as it was. *)
Theorem compress_sa_in_place :
  forall (SA : array) (L0 b : Z),
  1 <= L0 -> 0 < b < 64 -> (forall j, 0 <= j < L0 -> 0 <= SA j < 2 ^ b) ->
  exists out,
    compress_sa SA L0 b = Some (out, (L0 * b + 63) / 64) /\
    (forall w, 0 <= w < (L0 * b + 63) / 64 -> out w = packed_word SA L0 b w) /\
    (forall x, ~ (0 <= x < (L0 * b + 63) / 64) -> out x = SA x).
Proof.
  intros SA L0 b HL Hb Hall.
  exact (compress_sa_spec SA b ltac:(lia) L0 HL Hall).
Qed.

Lemma compress_sa_in_place_witness :
  exists out,
    compress_sa (fun x => x mod 7) 5 3 = Some (out, (5 * 3 + 63) / 64) /\
    (forall w, 0 <= w < (5 * 3 + 63) / 64 -> out w = packed_word (fun x => x mod 7) 5 3 w) /\
    (forall x, ~ (0 <= x < (5 * 3 + 63) / 64) -> out x = x mod 7).
Proof.
  apply (compress_sa_in_place (fun x => x mod 7) 5 3); try lia.
  intros j Hj. pose proof (Z.mod_pos_bound j 7). simpl. lia.
Defined.

(** ** The restoration of [T] in the 32-bit recursive core *)

Lemma SAINT_MAX_ones : SAINT_MAX = Z.ones 63.
Proof. reflexivity. Qed.

Lemma lor_SAINT_MIN (x : Z) : 0 <= x <= SAINT_MAX ->
  Z.lor x SAINT_MIN = x + SAINT_MIN.
Proof.
  intros Hx.
  assert (Hl : Z.land x SAINT_MIN = 0).
  { apply Z.bits_inj'; intros k Hk. rewrite Z.land_spec, Z.bits_0.
    destruct (Z.lt_ge_cases k 63).
    - unfold SAINT_MIN. rewrite Z.bits_opp by lia.
      replace (Z.pred (2 ^ 63)) with (Z.ones 63) by reflexivity.
      rewrite Z.ones_spec_low by lia. apply andb_false_r.
    - replace x with (x mod 2 ^ 63).
      + rewrite Z.mod_pow2_bits_high by lia. reflexivity.
      + apply Z.mod_small. unfold SAINT_MAX in Hx. lia. }
  rewrite <- Z.lxor_lor, <- Z.add_nocarry_lxor by exact Hl. reflexivity.
Qed.

Lemma land_SAINT_MAX_unmark (x : Z) : 0 <= x <= SAINT_MAX ->
  Z.land (Z.lor x SAINT_MIN) SAINT_MAX = x.
Proof.
  intros Hx. rewrite lor_SAINT_MIN, SAINT_MAX_ones, Z.land_ones by (auto; lia).
  unfold SAINT_MIN. rewrite <- (Z.mod_add _ 1) by lia.
  unfold SAINT_MAX in Hx. rewrite Z.mod_small; lia.
Qed.

Lemma lor_SAINT_MIN_neg (x : Z) : 0 <= x <= SAINT_MAX -> Z.lor x SAINT_MIN < 0.
Proof. intros Hx. rewrite lor_SAINT_MIN by auto. unfold SAINT_MIN, SAINT_MAX in *. lia. Qed.

Lemma lms_not_adjacent (T : array) (n p : Z) :
  is_lms T n p = true -> is_lms T n (p + 1) = false.
Proof.
  unfold is_lms. intros H.
  apply andb_prop in H as [H H1]. apply negb_true_iff in H1.
  replace (p + 1 - 1) with p by lia. rewrite H1. now rewrite !andb_false_r.
Qed.

Lemma lms_range (T : array) (n p : Z) : is_lms T n p = true -> 0 < p < n.
Proof.
  unfold is_lms. intros H.
  apply andb_prop in H as [H _]. apply andb_prop in H as [H _].
  apply andb_prop in H as [H1 H2]. apply Z.ltb_lt in H1. apply Z.ltb_lt in H2. lia.
Qed.

Section Renumber.
Variables (T SA : array) (m : Z).

(** Before index [i]: [SA[0, m)] is untouched, every changed entry of
    [T] carries the sign bit on the value of [T] at some [SA[k]] with
    [k < i], and nothing changed while [f = 0]. *)
Definition renumber_inv (i : Z) (st : rstate) : Prop :=
  0 <= rs_f st /\
  (forall k, k < m -> rs_SA st k = SA k) /\
  (forall x, rs_T st x = T x \/
     (rs_T st x = Z.lor (T x) SAINT_MIN /\ exists k, 0 <= k < i /\ wrap_u64 (SA k) = x)) /\
  (rs_f st = 0 -> forall x, rs_T st x = T x).

Lemma renumber_inv_mono (i i' : Z) (st : rstate) :
  i <= i' -> renumber_inv i st -> renumber_inv i' st.
Proof.
  intros Hii (Hf & HSA & HT & H0). repeat split; auto.
  intros x. destruct (HT x) as [? | (? & k & ? & ?)]; [left | right]; auto.
  split; auto. exists k. split; [lia | auto].
Qed.

Lemma renumber_step_inv (i : Z) (st : rstate) :
  0 <= i < m -> renumber_inv i st -> renumber_inv (i + 1) (renumber_step m st i).
Proof.
  intros Hi (Hf & HSA & HT & H0). unfold renumber_step.
  rewrite (HSA i) by lia.
  set (p := wrap_u64 (SA i)).
  assert (Hp : 0 <= Z.shiftr p 1).
  { apply Z.shiftr_nonneg. unfold p, wrap_u64. apply Z.mod_pos_bound. lia. }
  destruct (rs_SA st (m + Z.shiftr p 1) <? 0); unfold renumber_inv; cbn [rs_T rs_SA rs_f].
  - repeat split.
    + lia.
    + intros k Hk. rewrite upd_ne by lia. auto.
    + intros x. destruct (Z.eq_dec x p) as [-> | Hx].
      * rewrite upd_eq. right. split.
        -- destruct (HT p) as [-> | (-> & _)]; auto.
           now rewrite <- Z.lor_assoc, Z.lor_diag.
        -- exists i. split; [lia | reflexivity].
      * rewrite upd_ne by auto. destruct (HT x) as [? | (? & k & ? & ?)]; [left | right]; auto.
        split; auto. exists k. split; [lia | auto].
    + intros; lia.
  - repeat split; auto.
    + intros k Hk. rewrite upd_ne by lia. auto.
    + intros x. destruct (HT x) as [? | (? & k & ? & ?)]; [left | right]; auto.
      split; auto. exists k. split; [lia | auto].
Qed.

Lemma renumber_unrolled_inv (j : Z) (fuel : nat) (st : rstate) (i : Z) :
  0 <= i -> i <= m -> j + 3 <= m -> renumber_inv i st ->
  let '(st', i') := renumber_unrolled m j fuel st i in
  i <= i' <= m /\ renumber_inv i' st'.
Proof.
  revert st i. induction fuel as [| fuel IH]; intros st i Hi Him Hj Hinv; simpl.
  - split; [lia | auto].
  - destruct (Z.ltb_spec i j).
    + assert (H4 : renumber_inv (i + 1 + 1 + 1 + 1)
        (renumber_step m (renumber_step m (renumber_step m (renumber_step m st i) (i + 1)) (i + 2)) (i + 3))).
      { replace (i + 2) with (i + 1 + 1) by lia. replace (i + 3) with (i + 1 + 1 + 1) by lia.
        repeat apply renumber_step_inv; try lia; auto. }
      replace (i + 1 + 1 + 1 + 1) with (i + 4) in H4 by lia.
      specialize (IH _ (i + 4) ltac:(lia) ltac:(lia) Hj H4).
      destruct (renumber_unrolled _ _ _ _ _). destruct IH as [? ?]. split; [lia | auto].
    + split; [lia | auto].
Qed.

Lemma renumber_tail_inv (fuel : nat) (st : rstate) (i : Z) :
  0 <= i <= m -> renumber_inv i st -> renumber_inv m (renumber_tail m m fuel st i).
Proof.
  revert st i. induction fuel as [| fuel IH]; intros st i Hi Hinv; simpl.
  - eapply renumber_inv_mono; [| exact Hinv]. lia.
  - destruct (Z.ltb_spec i m).
    + apply IH; [lia |]. apply renumber_step_inv; [lia | auto].
    + eapply renumber_inv_mono; [| exact Hinv]. lia.
Qed.

Lemma renumber_spec : 0 <= m ->
  renumber_inv m (renumber_unique_and_nonunique_lms_suffixes_32s T SA m).
Proof.
  intros Hm. unfold renumber_unique_and_nonunique_lms_suffixes_32s.
  assert (H0 : renumber_inv 0 (mkR T SA 0)).
  { repeat split; cbn; auto; lia. }
  pose proof (renumber_unrolled_inv (m - 2 * 32 - 3) (Z.to_nat m) _ 0 ltac:(lia) Hm ltac:(lia) H0) as H.
  destruct (renumber_unrolled _ _ _ _ _) as [st i]. destruct H as [Hi Hinv].
  replace (m - 2 * 32 - 3 + 2 * 32 + 3) with m by lia.
  apply renumber_tail_inv; [lia | auto].
Qed.

End Renumber.

Section Merge.
Variables (T0 Tm : array) (n : Z).
(** [T0] is the original sequence, [Tm] the marked one: an entry differs
    only by the sign bit, inside [0, n), and never next to another. *)
Hypothesis HT0 : forall x, 0 <= x < n -> 0 <= T0 x <= SAINT_MAX.
Hypothesis Hmark : forall x, Tm x = T0 x \/
  (0 <= x < n /\ Tm x = Z.lor (T0 x) SAINT_MIN /\ Tm (x + 1) = T0 (x + 1)).

(** Positions below [q] are restored, the others still as marked. *)
Definition merge_inv (q : Z) (T : array) : Prop :=
  forall x, (x < q -> T x = T0 x) /\ (q <= x -> T x = Tm x).

Lemma merge_check_inv (t : Z) (st : mstate) :
  0 <= ms_i st + t < n -> merge_inv (ms_i st + t) (ms_T st) ->
  let st' := merge_check t st in
  merge_inv (ms_i st' + t + 1) (ms_T st') /\ ms_i st <= ms_i st' <= ms_i st + 1.
Proof.
  intros Hq Hinv. unfold merge_check.
  set (q := ms_i st + t) in *.
  assert (Hc : ms_T st q = Tm q) by (apply Hinv; lia).
  rewrite Hc.
  destruct (Hmark q) as [Heq | (_ & Hm & Hm1)].
  - rewrite Heq. destruct (HT0 q Hq) as [Hpos _].
    destruct (Z.ltb_spec (T0 q) 0); [lia |]. cbn [ms_i ms_T]. split; [| lia].
    intros x. split; intros Hx.
    + destruct (Z.eq_dec x q) as [-> | Hne]; [now rewrite Hc |]. apply Hinv. fold q in Hx. lia.
    + apply Hinv. fold q in Hx. lia.
  - rewrite Hm. pose proof (lor_SAINT_MIN_neg (T0 q) (HT0 q Hq)) as Hneg.
    destruct (Z.ltb_spec (Z.lor (T0 q) SAINT_MIN) 0); [| lia]. cbn [ms_i ms_T].
    split; [| lia]. intros x. split; intros Hx.
    + destruct (Z.eq_dec x q) as [-> | Hne].
      * rewrite upd_eq. apply land_SAINT_MAX_unmark, HT0; auto.
      * rewrite upd_ne by auto. destruct (Z.eq_dec x (q + 1)) as [-> | Hne1].
        -- rewrite <- Hm1. apply Hinv. lia.
        -- apply Hinv. fold q in Hx. lia.
    + rewrite upd_ne by (fold q in Hx; lia). apply Hinv. fold q in Hx. lia.
Qed.

Lemma merge_unrolled_inv (fuel : nat) (st : mstate) :
  0 <= ms_i st -> merge_inv (ms_i st) (ms_T st) ->
  let st' := merge_unrolled (n - 6) fuel st in
  0 <= ms_i st' /\ merge_inv (ms_i st') (ms_T st').
Proof.
  revert st. induction fuel as [| fuel IH]; intros st Hi Hinv; simpl; [auto |].
  destruct (Z.ltb_spec (ms_i st) (n - 6)); [| auto].
  set (st1 := merge_check 0 st).
  destruct (merge_check_inv 0 st) as [H1 B1]; [lia | now rewrite Z.add_0_r |]. fold st1 in H1, B1.
  set (st2 := merge_check 1 st1).
  destruct (merge_check_inv 1 st1) as [H2 B2]; [lia | now rewrite Z.add_0_r in H1 |]. fold st2 in H2, B2.
  set (st3 := merge_check 2 st2).
  destruct (merge_check_inv 2 st2) as [H3 B3]; [lia | now replace (ms_i st2 + 2) with (ms_i st2 + 1 + 1) by lia |].
  fold st3 in H3, B3.
  set (st4 := merge_check 3 st3).
  destruct (merge_check_inv 3 st3) as [H4 B4]; [lia | now replace (ms_i st3 + 3) with (ms_i st3 + 2 + 1) by lia |].
  fold st4 in H4, B4.
  apply IH; cbn [ms_i ms_T set_i]; [lia |].
  now replace (ms_i st4 + 4) with (ms_i st4 + 3 + 1) by lia.
Qed.

Lemma merge_tail_inv (fuel : nat) (st : mstate) :
  0 <= ms_i st -> merge_inv (ms_i st) (ms_T st) ->
  let st' := merge_tail n fuel st in
  merge_inv (ms_i st') (ms_T st') /\ (n - ms_i st <= Z.of_nat fuel -> n <= ms_i st').
Proof.
  revert st. induction fuel as [| fuel IH]; intros st Hi Hinv; simpl.
  - split; [auto | lia].
  - destruct (Z.ltb_spec (ms_i st) n); [| split; [auto | lia]].
    destruct (merge_check_inv 0 st) as [H1 B1]; [lia | now rewrite Z.add_0_r |].
    destruct (IH (set_i (merge_check 0 st) (ms_i (merge_check 0 st) + 1))) as [Hr Hn];
      cbn [ms_i ms_T set_i]; [lia | now rewrite Z.add_0_r in H1 |].
    split; [auto |]. intros Hf. apply Hn. cbn [ms_i set_i]. lia.
Qed.

Lemma merge_restores (SA : array) (m : Z) :
  forall x, fst (merge_unique_lms_suffixes_32s Tm SA n m) x = T0 x.
Proof.
  intros x. unfold merge_unique_lms_suffixes_32s. cbv zeta. cbn [fst].
  set (st0 := mkM Tm SA 0 (SA (n - m - 1)) (n - m - 1 + 1)).
  assert (H0 : merge_inv 0 Tm).
  { intros y. split; intros Hy; [| reflexivity].
    destruct (Hmark y) as [? | (? & _)]; [auto | lia]. }
  destruct (merge_unrolled_inv (Z.to_nat n) st0) as [Hi1 Hinv1]; cbn; [lia | auto |].
  replace (n - 6 + 6) with n by lia.
  destruct (merge_tail_inv (Z.to_nat n + 1) (merge_unrolled (n - 6) (Z.to_nat n) st0)) as [Hinv2 Hn2];
    [auto | auto |].
  specialize (Hn2 ltac:(lia)).
  destruct (Z.ltb_spec x n).
  - apply Hinv2. lia.
  - destruct (Z.ltb_spec x (ms_i (merge_tail n (Z.to_nat n + 1) (merge_unrolled (n - 6) (Z.to_nat n) st0)))).
    + apply Hinv2. auto.
    + rewrite (proj2 (Hinv2 x)) by lia.
      destruct (Hmark x) as [? | (? & _)]; [auto | lia].
Qed.

End Merge.

(** C9: on the compact path of the 32-bit recursive core, starting from
    a sequence [T] of length [n] with non-negative entries and with the
    [m] sorted LMS suffixes of [T] in [SA[0, m)], the sign bits that
    [renumber_unique_and_nonunique_lms_suffixes_32s] sets in [T] are all
    cleared by [merge_unique_lms_suffixes_32s] (run only when [f > 0]),
    whatever [SA] holds in between: [T] is unchanged at every index. *)
Theorem main_32s_recursion_restores_T (T SA : array) (n m : Z)
  (Hm : 0 <= m) (Hn : n <= SAINT_MAX)
  (HT : forall x, 0 <= x < n -> 0 <= T x <= SAINT_MAX)
  (Hlms : forall k, 0 <= k < m -> is_lms T n (SA k) = true) :
  forall SA_mid x, compact_path_T T SA n m SA_mid x = T x.
Proof.
  intros SA_mid x. unfold compact_path_T.
  destruct (renumber_spec T SA m Hm) as (Hf & _ & HTm & H0).
  set (r := renumber_unique_and_nonunique_lms_suffixes_32s T SA m) in *.
  destruct (Z.ltb_spec 0 (rs_f r)).
  - apply merge_restores; auto.
    + intros y. destruct (HTm y) as [? | (Hy & k & Hk & Hky)]; [now left | right].
      pose proof (Hlms k Hk) as Hl. pose proof (lms_range _ _ _ Hl) as Hr.
      assert (Hw : wrap_u64 (SA k) = SA k) by (unfold wrap_u64; apply Z.mod_small; unfold SAINT_MAX in Hn; lia).
      rewrite Hw in Hky. subst y. split; [lia | split; [auto |]].
      destruct (HTm (SA k + 1)) as [? | (_ & k' & Hk' & Hk'y)]; [auto | exfalso].
      pose proof (Hlms k' Hk') as Hl'. pose proof (lms_range _ _ _ Hl') as Hr'.
      assert (Hw' : wrap_u64 (SA k') = SA k') by (unfold wrap_u64; apply Z.mod_small; unfold SAINT_MAX in Hn; lia).
      rewrite Hw' in Hk'y. rewrite Hk'y, lms_not_adjacent in Hl'; auto. discriminate.
  - apply H0. lia.
Qed.

Lemma main_32s_recursion_restores_T_witness :
  rs_f (renumber_unique_and_nonunique_lms_suffixes_32s c9_T c9_SA 2) = 2 /\
  rs_T (renumber_unique_and_nonunique_lms_suffixes_32s c9_T c9_SA 2) 3 < 0 /\
  forall SA_mid x, compact_path_T c9_T c9_SA 6 2 SA_mid x = c9_T x.
Proof.
  split; [vm_compute; reflexivity |]. split; [vm_compute; reflexivity |].
  apply (main_32s_recursion_restores_T c9_T c9_SA 6 2).
  - lia.
  - unfold SAINT_MAX; lia.
  - intros x _. unfold c9_T, SAINT_MAX. destruct (Z.even x); lia.
  - intros k Hk. assert (k = 0 \/ k = 1) as [-> | ->] by lia; vm_compute; reflexivity.
Defined.

(** ** The size of the recursive problems *)

Lemma land1_mod (x : Z) : Z.land x 1 = x mod 2.
Proof. change 1 with (Z.ones 1). rewrite Z.land_ones by lia. reflexivity. Qed.

Lemma land3_mod (x : Z) : Z.land x 3 = x mod 4.
Proof. change 3 with (Z.ones 2). rewrite Z.land_ones by lia. reflexivity. Qed.

Lemma lms_type_step_bits (s a c : Z) :
  let b := Z.b2z (a - Z.land s 1 <? c) in
  Z.land (lms_type_step s a c) 1 = b /\
  Z.land (lms_type_step s a c) 3 = 2 * Z.land s 1 + b.
Proof.
  intros b. unfold lms_type_step, wrap_u64. fold b.
  rewrite land1_mod, land3_mod, land1_mod, Z.shiftl_mul_pow2 by lia.
  assert (Hb : 0 <= b <= 1) by (unfold b; destruct (_ <? _); simpl; lia).
  rewrite !Z.mod_mod_divide by (exists (2 ^ 63); reflexivity) || (exists (2 ^ 62); reflexivity).
  pose proof (Z.div_mod s 2 ltac:(lia)) as Hs. pose proof (Z.mod_pos_bound s 2 ltac:(lia)).
  set (q := s / 2) in *. set (r := s mod 2) in *.
  split.
  - rewrite Hs. replace ((2 * q + r) * 2 ^ 1 + b) with (b + (2 * q + r) * 2) by ring.
    rewrite Z.mod_add by lia. apply Z.mod_small. lia.
  - rewrite Hs. replace ((2 * q + r) * 2 ^ 1 + b) with ((2 * r + b) + q * 4) by ring.
    rewrite Z.mod_add by lia. apply Z.mod_small. lia.
Qed.

Section Count.
Variables (T : array) (n : Z).
Hypothesis HT : forall x, 0 <= x < n -> 0 <= T x.

Lemma gather_loop_inv (fuel : nat) (i s c0 m : Z) (SA : array) :
  -1 <= i <= n - 2 -> c0 = T (i + 1) -> i + 1 <= Z.of_nat fuel ->
  2 * (n - 1 - m) + 1 - Z.land s 1 <= n - 2 - i ->
  let '(i', s', c0', m', _) := gather_loop T fuel i s c0 m SA in
  i' = -1 /\ c0' = T 0 /\ 2 * (n - 1 - m') + 1 - Z.land s' 1 <= n - 1.
Proof.
  revert i s c0 m SA. induction fuel as [| fuel IH]; intros i s c0 m SA Hi Hc Hf Hinv; cbn [gather_loop].
  - assert (i = -1) by lia. subst. split; [auto | split; [auto | lia]].
  - destruct (Z.leb_spec 0 i).
    + destruct (lms_type_step_bits s c0 (T i)) as [B1 B3].
      pose proof (Z.mod_pos_bound s 2 ltac:(lia)). rewrite <- land1_mod in *.
      apply IH; [lia | f_equal; lia | lia |].
      rewrite B1, B3. destruct (Z.ltb (c0 - Z.land s 1) (T i)); cbn [Z.b2z];
        destruct (Z.eqb_spec (2 * Z.land s 1 + 1) 1), (Z.eqb_spec (2 * Z.land s 1 + 0) 1); cbn [Z.b2z]; lia.
    + assert (i = -1) by lia. subst. split; [auto | split; [auto | lia]].
Qed.

Lemma radix_1k_loop_inv (fuel : nat) (i s c0 m : Z) :
  -1 <= i <= n - 2 -> i + 1 <= Z.of_nat fuel ->
  2 * m + 1 - Z.land s 1 <= n - 2 - i ->
  let '(i', s', c0', m') := radix_1k_loop T fuel i s c0 m in
  2 * m' + 1 - Z.land s' 1 <= n - 1.
Proof.
  revert i s c0 m. induction fuel as [| fuel IH]; intros i s c0 m Hi Hf Hinv; cbn [radix_1k_loop].
  - lia.
  - destruct (Z.leb_spec 0 i).
    + destruct (lms_type_step_bits s c0 (T i)) as [B1 B3].
      pose proof (Z.mod_pos_bound s 2 ltac:(lia)). rewrite <- land1_mod in *.
      apply IH; [lia | lia |].
      rewrite B1, B3. destruct (Z.ltb (c0 - Z.land s 1) (T i)); cbn [Z.b2z];
        destruct (Z.eqb_spec (2 * Z.land s 1 + 1) 1), (Z.eqb_spec (2 * Z.land s 1 + 0) 1); cbn [Z.b2z]; lia.
    + lia.
Qed.

Lemma count_and_gather_half (SA : array) :
  0 <= n -> 2 * fst (count_and_gather_lms_suffixes_32s_4k T SA n) <= n.
Proof.
  intros Hn. unfold count_and_gather_lms_suffixes_32s_4k.
  destruct (Z.ltb_spec 0 n); [| cbn [fst]; lia].
  assert (Hl : (-1 <=? T (n - 1)) = true) by (apply Z.leb_le; pose proof (HT (n - 1) ltac:(lia)); lia).
  rewrite Hl.
  pose proof (gather_loop_inv (Z.to_nat n) (n - 1 - 1) 1 (T (n - 1)) (n - 1) SA) as Hg.
  destruct (gather_loop _ _ _ _ _ _ _) as [[[[i s1] c0'] m1] SA1].
  destruct Hg as (-> & -> & Hinv); [lia | f_equal; lia | lia | rewrite Z.land_diag; lia |].
  cbn [fst]. change (0 <=? -1) with false. cbv iota.
  destruct (lms_type_step_bits s1 (T 0) (-1)) as [_ B3].
  pose proof (HT 0 ltac:(lia)).
  pose proof (Z.mod_pos_bound s1 2 ltac:(lia)). rewrite <- land1_mod in *.
  rewrite B3. destruct (Z.ltb_spec (T 0 - Z.land s1 1) (-1)); [lia |]. cbn [Z.b2z].
  destruct (Z.eqb_spec (2 * Z.land s1 1 + 0) 1); cbn [Z.b2z]; lia.
Qed.

Lemma radix_sort_1k_half : 0 <= n -> 2 * radix_sort_lms_suffixes_32s_1k T n <= n.
Proof.
  intros Hn. unfold radix_sort_lms_suffixes_32s_1k.
  destruct (Z.eq_dec n 0) as [-> | Hn0]; [reflexivity |].
  pose proof (radix_1k_loop_inv (Z.to_nat n) (n - 2) 1 (T (n - 1)) 0) as H.
  destruct (radix_1k_loop _ _ _ _ _ _) as [[[i s1] c0'] m1].
  pose proof (Z.mod_pos_bound s1 2 ltac:(lia)). rewrite <- land1_mod in *.
  specialize (H ltac:(lia) ltac:(lia) ltac:(simpl; lia)). lia.
Qed.

End Count.

Lemma renumber_step_f (m : Z) (st : rstate) (i : Z) :
  rs_f st <= rs_f (renumber_step m st i) <= rs_f st + 1.
Proof. unfold renumber_step. destruct (_ <? 0); cbn [rs_f]; lia. Qed.

Lemma renumber_unrolled_f (m j : Z) (fuel : nat) (st : rstate) (i : Z) :
  i <= m -> j + 4 <= m ->
  let '(st', i') := renumber_unrolled m j fuel st i in
  i <= i' <= m /\ 0 <= rs_f st' - rs_f st <= i' - i.
Proof.
  revert st i. induction fuel as [| fuel IH]; intros st i Hi Hj; cbn [renumber_unrolled]; [lia |].
  destruct (Z.ltb_spec i j); [| lia].
  set (st4 := renumber_step m (renumber_step m (renumber_step m (renumber_step m st i) (i + 1)) (i + 2)) (i + 3)).
  assert (H4 : 0 <= rs_f st4 - rs_f st <= 4).
  { unfold st4. repeat match goal with |- context [renumber_step m ?s ?k] =>
      lazymatch goal with H : rs_f s <= rs_f (renumber_step m s k) <= _ |- _ => fail
      | _ => pose proof (renumber_step_f m s k) end end. lia. }
  specialize (IH st4 (i + 4) ltac:(lia) Hj).
  destruct (renumber_unrolled m j fuel st4 (i + 4)). lia.
Qed.

Lemma renumber_tail_f (m : Z) (fuel : nat) (st : rstate) (i : Z) :
  0 <= rs_f (renumber_tail m m fuel st i) - rs_f st <= Z.max 0 (m - i).
Proof.
  revert st i. induction fuel as [| fuel IH]; intros st i; cbn [renumber_tail]; [lia |].
  destruct (Z.ltb_spec i m); [| lia].
  specialize (IH (renumber_step m st i) (i + 1)). pose proof (renumber_step_f m st i). lia.
Qed.

Lemma renumber_f_bound (T SA : array) (m : Z) : 0 <= m ->
  0 <= rs_f (renumber_unique_and_nonunique_lms_suffixes_32s T SA m) <= m.
Proof.
  intros Hm. unfold renumber_unique_and_nonunique_lms_suffixes_32s.
  pose proof (renumber_unrolled_f m (m - 2 * 32 - 3) (Z.to_nat m) (mkR T SA 0) 0 Hm ltac:(lia)) as H.
  destruct (renumber_unrolled _ _ _ _ _) as [st i].
  replace (m - 2 * 32 - 3 + 2 * 32 + 3) with m by lia.
  pose proof (renumber_tail_f m (Z.to_nat m + 1) st i). cbn [rs_f] in H. lia.
Qed.

Lemma recursion_step_bound (n n' : Z) :
  recursion_step n n' -> 0 <= n' /\ 2 * n' <= n /\ n' < n /\ 2 <= n.
Proof.
  intros (T & SA & SA' & HT & [(Hm & Hn') | [(Hm & Hn') | (Hm & Hn')]]).
  - set (m := fst (count_and_gather_lms_suffixes_32s_4k T SA n)) in *.
    destruct (Z.le_gt_cases 0 n) as [Hn | Hn].
    + pose proof (count_and_gather_half T n HT SA Hn) as Hh. fold m in Hh.
      pose proof (renumber_f_bound T SA' m ltac:(lia)). lia.
    + exfalso. unfold m, count_and_gather_lms_suffixes_32s_4k in Hm.
      destruct (Z.ltb_spec 0 n); [lia |]. cbn [fst] in Hm. lia.
  - set (m := radix_sort_lms_suffixes_32s_1k T n) in *.
    destruct (Z.le_gt_cases 0 n) as [Hn | Hn].
    + pose proof (radix_sort_1k_half T n HT Hn) as Hh. fold m in Hh.
      pose proof (renumber_f_bound T SA' m ltac:(lia)). lia.
    + exfalso. unfold m, radix_sort_lms_suffixes_32s_1k in Hm.
      replace (Z.to_nat n) with O in Hm by lia. cbn in Hm. lia.
  - set (m := fst (count_and_gather_lms_suffixes_16u T SA n)) in *.
    destruct (Z.le_gt_cases 0 n) as [Hn | Hn].
    + pose proof (count_and_gather_half T n HT SA Hn) as Hh.
      change (count_and_gather_lms_suffixes_32s_4k T SA n) with (count_and_gather_lms_suffixes_16u T SA n) in Hh.
      fold m in Hh. lia.
    + exfalso. unfold m, count_and_gather_lms_suffixes_16u, count_and_gather_lms_suffixes_32s_4k in Hm.
      destruct (Z.ltb_spec 0 n); [lia |]. cbn [fst] in Hm. lia.
Qed.

Lemma recursion_chain_bound (d : nat) (n0 nd : Z) :
  recursion_chain d n0 nd -> 2 ^ Z.of_nat d <= Z.max 1 n0.
Proof.
  induction 1 as [n | d n n' n'' Hs Hc IH]; [simpl; lia |].
  apply recursion_step_bound in Hs.
  rewrite Nat2Z.inj_succ, Z.pow_succ_r by lia. lia.
Qed.

(** C5: the LMS counts of the 16-bit level and of both paths of the
    32-bit core are at most [n / 2] for a sequence of non-negative
    symbols; every recursive call is made on [m - f <= n / 2 < n]
    entries; hence the recursion is well-founded, and a chain of [d]
    nested calls starting from size [n0] has [d <= log2 n0]. *)
Theorem recursion_halves_problem_size :
  (forall (T SA : array) (n : Z), 0 <= n -> (forall x, 0 <= x < n -> 0 <= T x) ->
     2 * fst (count_and_gather_lms_suffixes_32s_4k T SA n) <= n /\
     2 * fst (count_and_gather_lms_suffixes_16u T SA n) <= n /\
     2 * radix_sort_lms_suffixes_32s_1k T n <= n) /\
  (forall n n', recursion_step n n' -> 0 <= n' /\ 2 * n' <= n /\ n' < n) /\
  well_founded (fun n' n => recursion_step n n') /\
  (forall d n0 nd, recursion_chain d n0 nd -> Z.of_nat d <= Z.log2 (Z.max 1 n0)).
Proof.
  split; [| split; [| split]].
  - intros T SA n Hn HT. split; [| split].
    + apply count_and_gather_half; auto.
    + apply count_and_gather_half; auto.
    + apply radix_sort_1k_half; auto.
  - intros n n' H. apply recursion_step_bound in H. lia.
  - apply (Wf_nat.well_founded_lt_compat _ Z.to_nat).
    intros n' n H. apply recursion_step_bound in H. lia.
  - intros d n0 nd H. apply recursion_chain_bound in H.
    apply Z.log2_le_pow2; lia.
Qed.

Lemma recursion_halves_problem_size_witness :
  fst (count_and_gather_lms_suffixes_32s_4k c9_T c9_T 8) = 3 /\
  recursion_step 8 3 /\ 2 * 3 <= 8 /\ 3 < 8.
Proof.
  assert (Hs : recursion_step 8 3).
  { exists c9_T, c9_T, c9_T. split.
    - intros x _. unfold c9_T. destruct (Z.even x); lia.
    - left. cbv zeta. split; [vm_compute; reflexivity | left; vm_compute; reflexivity]. }
  split; [vm_compute; reflexivity |]. split; [exact Hs |].
  destruct (proj1 (proj2 recursion_halves_problem_size) 8 3 Hs) as (_ & H1 & H2). split; assumption.
Defined.

(* ------------------------------------------------------------------ *)
(** ** The sparse pipelines (C2) *)

(** *** Lexicographic order *)

Lemma lex_lt_irrefl (a : list Z) : lex_lt a a = false.
Proof. induction a as [| x a IH]; simpl; [reflexivity |]. rewrite Z.ltb_irrefl, Z.eqb_refl, IH. reflexivity. Qed.

Lemma lex_lt_trans (a b c : list Z) :
  lex_lt a b = true -> lex_lt b c = true -> lex_lt a c = true.
Proof.
  revert b c. induction a as [| x a IH]; intros [| y b] [| z c]; simpl; auto; try discriminate.
  intros H1 H2. apply orb_true_iff in H1, H2. apply orb_true_iff.
  destruct H1 as [H1 | H1], H2 as [H2 | H2]; try apply andb_true_iff in H1; try apply andb_true_iff in H2.
  - left. apply Z.ltb_lt in H1, H2. apply Z.ltb_lt. lia.
  - left. destruct H2 as [H2 _]. apply Z.ltb_lt in H1. apply Z.eqb_eq in H2. apply Z.ltb_lt. lia.
  - left. destruct H1 as [H1 _]. apply Z.ltb_lt in H2. apply Z.eqb_eq in H1. apply Z.ltb_lt. lia.
  - right. destruct H1 as [H1 H1'], H2 as [H2 H2']. apply Z.eqb_eq in H1, H2.
    apply andb_true_iff. split; [apply Z.eqb_eq; lia | eauto].
Qed.

Lemma lex_lt_asym (a b : list Z) : lex_lt a b = true -> lex_lt b a = false.
Proof.
  intros H. destruct (lex_lt b a) eqn:E; [| reflexivity].
  pose proof (lex_lt_trans _ _ _ H E). now rewrite lex_lt_irrefl in H0.
Qed.

Lemma lex_lt_total (a b : list Z) : a <> b -> lex_lt a b = false -> lex_lt b a = true.
Proof.
  revert b. induction a as [| x a IH]; intros [| y b] Hne H; simpl in *; auto; try congruence.
  apply orb_false_iff in H as [H1 H2]. apply Z.ltb_ge in H1.
  destruct (Z.eq_dec x y) as [-> | Hxy].
  - rewrite Z.eqb_refl in H2. simpl in H2. rewrite Z.ltb_irrefl, Z.eqb_refl. simpl.
    apply IH; [congruence | auto].
  - apply orb_true_iff. left. apply Z.ltb_lt. lia.
Qed.

Lemma lex_lt_app_neq (a b x y : list Z) :
  length a = length b -> a <> b -> lex_lt (a ++ x) (b ++ y) = lex_lt a b.
Proof.
  revert b. induction a as [| u a IH]; intros [| v b] Hl Hne; simpl in *; try congruence; try lia.
  destruct (Z.eq_dec u v) as [-> | Huv].
  - rewrite Z.ltb_irrefl, Z.eqb_refl. simpl. apply IH; [lia | congruence].
  - replace (u =? v) with false by (symmetry; apply Z.eqb_neq; auto). rewrite !andb_false_l. reflexivity.
Qed.

Lemma lex_lt_app_eq (a x y : list Z) : lex_lt (a ++ x) (a ++ y) = lex_lt x y.
Proof. induction a as [| u a IH]; simpl; [reflexivity |]. rewrite Z.ltb_irrefl, Z.eqb_refl. exact IH. Qed.

(** A strictly monotone renaming of the symbols keeps the order. *)
Lemma lex_lt_map (r : Z -> Z) (s t : list Z) :
  (forall c d, In c (s ++ t) -> In d (s ++ t) -> (c < d <-> r c < r d)) ->
  lex_lt (map r s) (map r t) = lex_lt s t.
Proof.
  revert t. induction s as [| x s IH]; intros [| y t] Hm; simpl; auto.
  assert (Hxy : x < y <-> r x < r y) by (apply Hm; simpl; rewrite ?in_app_iff; simpl; auto).
  assert (Hyx : y < x <-> r y < r x) by (apply Hm; simpl; rewrite ?in_app_iff; simpl; auto).
  rewrite IH.
  - destruct (Z.ltb_spec x y), (Z.ltb_spec (r x) (r y)), (Z.eqb_spec x y), (Z.eqb_spec (r x) (r y));
      simpl; auto; try lia; subst; lia.
  - intros c d Hc Hd. apply Hm; simpl; rewrite in_app_iff in *; simpl; tauto.
Qed.

(** Padding with zeros keeps the order of two suffixes of one sequence
    whose lengths differ by more than the padding. *)
Lemma lex_lt_zeros_prefix (p : nat) (w z : list Z) :
  (forall x, In x w -> 0 <= x) -> (p < length w)%nat ->
  lex_lt (repeat 0 p) (w ++ z) = true.
Proof.
  revert w. induction p as [| p IH]; intros [| y w] Hw Hl; simpl in *; try lia; auto.
  destruct (Z.ltb_spec 0 y); [reflexivity |].
  assert (y = 0) as -> by (specialize (Hw y (or_introl eq_refl)); lia).
  simpl. apply IH; [auto | lia].
Qed.

Lemma lex_lt_pad (u v : list Z) (p : nat) :
  (forall x, In x (u ++ v) -> 0 <= x) ->
  (forall w, v = u ++ w -> w <> nil -> (p < length w)%nat) ->
  (forall w, u = v ++ w -> w <> nil -> (p < length w)%nat) ->
  lex_lt (u ++ repeat 0 p) (v ++ repeat 0 p) = lex_lt u v.
Proof.
  revert v. induction u as [| x u IH]; intros [| y v] Hpos H1 H2; simpl.
  - apply lex_lt_irrefl.
  - apply (lex_lt_zeros_prefix p (y :: v)); [intros; apply Hpos; simpl; auto |].
    apply H1; [reflexivity | discriminate].
  - change (lex_lt ((x :: u) ++ repeat 0 p) ([] ++ repeat 0 p) = false).
    apply lex_lt_asym. apply (lex_lt_zeros_prefix p (x :: u)); [intros; apply Hpos; simpl; rewrite app_nil_r in *; auto |].
    apply H2; [reflexivity | discriminate].
  - destruct (Z.eqb_spec x y) as [-> | Hxy]; simpl.
    + rewrite IH; [reflexivity | | |].
      * intros a Ha. apply Hpos. simpl. rewrite in_app_iff in *. simpl. tauto.
      * intros w Hw Hn. apply H1; [now rewrite Hw | auto].
      * intros w Hw Hn. apply H2; [now rewrite Hw | auto].
    + reflexivity.
Qed.

Lemma digits_val_app (B : Z) (l1 l2 : list Z) :
  digits_val B (l1 ++ l2) = digits_val B l1 * B ^ Z.of_nat (length l2) + digits_val B l2.
Proof.
  induction l1 as [| x l1 IH]; simpl; [lia |].
  rewrite IH, length_app, Nat2Z.inj_add, Z.pow_add_r by lia. ring.
Qed.

Lemma digits_val_repeat0 (B : Z) (p : nat) : digits_val B (repeat 0 p) = 0.
Proof. induction p; simpl; lia. Qed.

Lemma digits_val_bound (B : Z) (d : list Z) :
  0 < B -> (forall x, In x d -> 0 <= x < B) -> 0 <= digits_val B d < B ^ Z.of_nat (length d).
Proof.
  intros HB. induction d as [| x d IH]; intros Hd; cbn [digits_val length]; [simpl; lia |].
  assert (Hx : 0 <= x < B) by (apply Hd; simpl; auto).
  destruct IH as [H0 H1]; [intros; apply Hd; simpl; auto |].
  rewrite Nat2Z.inj_succ, Z.pow_succ_r by lia.
  pose proof (Z.pow_pos_nonneg B (Z.of_nat (length d)) HB ltac:(lia)). nia.
Qed.

Lemma digits_val_lex (B : Z) (d1 d2 : list Z) :
  0 < B -> length d1 = length d2 ->
  (forall x, In x (d1 ++ d2) -> 0 <= x < B) ->
  (digits_val B d1 < digits_val B d2 <-> lex_lt d1 d2 = true) /\
  (digits_val B d1 = digits_val B d2 -> d1 = d2).
Proof.
  intros HB. revert d2. induction d1 as [| x d1 IH]; intros [| y d2] Hl Hd; simpl in *; try lia.
  - split; [split; [lia | discriminate] | auto].
  - assert (Hx : 0 <= x < B) by (apply Hd; auto).
    assert (Hy : 0 <= y < B) by (apply Hd; rewrite in_app_iff; simpl; auto).
    destruct (IH d2) as [IH1 IH2]; [lia | intros; apply Hd; simpl; rewrite in_app_iff in *; simpl; tauto |].
    pose proof (digits_val_bound B d1 HB ltac:(intros; apply Hd; simpl; rewrite in_app_iff; auto)) as B1.
    pose proof (digits_val_bound B d2 HB ltac:(intros; apply Hd; simpl; rewrite in_app_iff; simpl; auto)) as B2.
    assert (Hlen : length d1 = length d2) by lia. rewrite <- Hlen in *.
    set (P := B ^ Z.of_nat (length d1)) in *.
    destruct (Z.lt_trichotomy x y) as [Hxy | [-> | Hxy]].
    + replace (x <? y) with true by lia. simpl. split; [split; [auto | intros; nia] | intros; nia].
    + rewrite Z.ltb_irrefl, Z.eqb_refl. simpl. split.
      * rewrite <- IH1. lia.
      * intros H. f_equal. apply IH2. lia.
    + replace (x <? y) with false by lia. replace (x =? y) with false by lia. simpl.
      split; [split; [intros; nia | discriminate] | intros; nia].
Qed.

Lemma firstn_S_nth (l : list Z) (j : nat) :
  (j < length l)%nat -> firstn (S j) l = firstn j l ++ nth j l 0 :: nil.
Proof.
  revert l. induction j as [| j IH]; intros [| x l] H; simpl in *; try lia; [reflexivity |].
  f_equal. apply IH. lia.
Qed.

Lemma group_sum_digits (rank : Z -> Z) (b : Z) (k : nat) (text : list Z) (s cnt : nat) :
  0 <= b -> (cnt <= k)%nat -> (s + cnt <= length text)%nat ->
  group_sum rank b (Z.of_nat k) text (Z.of_nat s) cnt =
  digits_val (2 ^ b) (map rank (firstn cnt (skipn s text)) ++ repeat 0 (k - cnt)).
Proof.
  intros Hb. rewrite digits_val_app, digits_val_repeat0, repeat_length, Z.add_0_r.
  induction cnt as [| j IH]; intros Hk Hs; [simpl; lia |].
  cbn [group_sum]. rewrite IH by lia.
  rewrite firstn_S_nth by (rewrite length_skipn; lia).
  rewrite map_app, digits_val_app. cbn [map digits_val length].
  rewrite nth_skipn. replace (Z.to_nat (Z.of_nat s + Z.of_nat j)) with (s + j)%nat by lia.
  set (r := rank (nth (s + j) text 0)). set (v := digits_val (2 ^ b) (map rank (firstn j (skipn s text)))).
  rewrite <- !Z.pow_mul_r by lia.
  replace (Z.of_nat (k - j)) with (Z.of_nat k - 1 - Z.of_nat j + 1) by lia.
  replace (Z.of_nat (k - S j)) with (Z.of_nat k - 1 - Z.of_nat j) by lia.
  rewrite Z.mul_add_distr_l, Z.mul_1_r, Z.pow_add_r by nia. cbn [Z.of_nat]. rewrite Z.mul_1_r, Z.mul_0_r. ring.
Qed.

Lemma in_firstn (x : Z) (k : nat) (l : list Z) : In x (firstn k l) -> In x l.
Proof. intros H. rewrite <- (firstn_skipn k l). apply in_or_app. auto. Qed.

Lemma in_skipn (x : Z) (k : nat) (l : list Z) : In x (skipn k l) -> In x l.
Proof. intros H. rewrite <- (firstn_skipn k l). apply in_or_app. auto. Qed.

Lemma blocks_seq (k : nat) (l : list Z) (c s : nat) :
  blocks k (skipn (s * k) l) c = map (fun x => firstn k (skipn (x * k) l)) (seq s c).
Proof.
  revert s. induction c as [| c IH]; intros s; [reflexivity |].
  cbn [blocks seq map]. f_equal. rewrite skipn_skipn.
  replace (k + s * k)%nat with (S s * k)%nat by lia. apply IH.
Qed.

Lemma skipn_blocks (k : nat) (l : list Z) (c g : nat) :
  skipn g (blocks k l c) = blocks k (skipn (g * k) l) (c - g).
Proof.
  revert l c. induction g as [| g IH]; intros l c; [now rewrite Nat.sub_0_r |].
  destruct c as [| c]; [reflexivity |]. cbn [blocks skipn]. rewrite IH, skipn_skipn.
  replace (g * k + k)%nat with (S g * k)%nat by lia. reflexivity.
Qed.

Lemma blocks_lex (B : Z) (k : nat) (c1 : nat) :
  0 < B -> (0 < k)%nat ->
  forall L1 c2 L2, length L1 = (c1 * k)%nat -> length L2 = (c2 * k)%nat ->
  (forall x, In x (L1 ++ L2) -> 0 <= x < B) ->
  lex_lt (map (digits_val B) (blocks k L1 c1)) (map (digits_val B) (blocks k L2 c2)) = lex_lt L1 L2.
Proof.
  intros HB Hk. induction c1 as [| c1 IH]; intros L1 c2 L2 H1 H2 Hd.
  - destruct L1; [| simpl in H1; lia].
    destruct c2 as [| c2]; destruct L2 as [| y L2]; simpl in *; auto; lia.
  - destruct c2 as [| c2].
    + destruct L2; [| simpl in H2; lia]. destruct L1 as [| x L1]; simpl in *; [lia | reflexivity].
    + cbn [blocks map].
      rewrite <- (firstn_skipn k L1) at 3. rewrite <- (firstn_skipn k L2) at 3.
      assert (Ha : length (firstn k L1) = k) by (rewrite length_firstn; lia).
      assert (Hb : length (firstn k L2) = k) by (rewrite length_firstn; lia).
      assert (Hin : forall x, In x (firstn k L1 ++ firstn k L2) -> 0 <= x < B).
      { intros x Hx. apply Hd. rewrite in_app_iff in *. destruct Hx as [Hx | Hx];
        [left | right]; eapply in_firstn; eauto. }
      destruct (digits_val_lex B (firstn k L1) (firstn k L2) HB ltac:(lia) Hin) as [Hlt Heq].
      destruct (list_eq_dec Z.eq_dec (firstn k L1) (firstn k L2)) as [He | Hne].
      * rewrite He, lex_lt_app_eq. cbn [lex_lt]. rewrite Z.ltb_irrefl, Z.eqb_refl. simpl.
        apply IH; [rewrite length_skipn; lia | rewrite length_skipn; lia |].
        intros x Hx. apply Hd. rewrite in_app_iff in *. destruct Hx as [Hx | Hx];
          [left | right]; eapply in_skipn; eauto.
      * rewrite lex_lt_app_neq by (auto; lia). cbn [lex_lt].
        replace (digits_val B (firstn k L1) =? digits_val B (firstn k L2)) with false
          by (symmetry; apply Z.eqb_neq; intros E; apply Hne; auto).
        rewrite andb_false_l, orb_false_r.
        destruct (lex_lt (firstn k L1) (firstn k L2)); [apply Z.ltb_lt; tauto |].
        apply Z.ltb_ge. destruct (Z.lt_ge_cases (digits_val B (firstn k L1)) (digits_val B (firstn k L2)));
          [apply Hlt in H; discriminate | lia].
Qed.

Lemma firstn_repeat0 (a p : nat) : (a <= p)%nat -> firstn a (repeat 0 p) = repeat 0 a.
Proof.
  revert p. induction a as [| a IH]; intros [| p] H; simpl; try lia; auto. f_equal. apply IH. lia.
Qed.

Lemma firstn_skipn_pad (k s p : nat) (l : list Z) :
  (s <= length l)%nat -> (s + k <= length l + p)%nat ->
  firstn k (skipn s (l ++ repeat 0 p)) = firstn k (skipn s l) ++ repeat 0 (k - (length l - s)).
Proof.
  intros H1 H2. rewrite skipn_app. replace (s - length l)%nat with O by lia. cbn [skipn].
  rewrite firstn_app, length_skipn, firstn_repeat0 by lia. reflexivity.
Qed.

Lemma pack_group_ext (W : Z) (r1 r2 : Z -> Z) (bits k : Z) (text : list Z) (ti : Z) (f : nat) :
  (forall c, In c text -> r1 c = r2 c) ->
  forall j e, pack_group W r1 bits k text ti j f e = pack_group W r2 bits k text ti j f e.
Proof.
  intros Hr. induction f as [| f IH]; intros j e; [reflexivity |]. cbn [pack_group].
  destruct (read_text text (ti + j)) as [c |] eqn:E; [| reflexivity].
  rewrite Hr; [| unfold read_text in E; destruct (ti + j <? 0); [discriminate | eapply nth_error_In; eauto]].
  destruct (elem_shl W (r2 c) (bits * (k - 1 - j))); auto.
Qed.

Lemma pack_full_groups_ext (W : Z) (r1 r2 : Z -> Z) (bits k : Z) (text : list Z) (f : nat) :
  (forall c, In c text -> r1 c = r2 c) ->
  forall i, pack_full_groups W r1 bits k text i f = pack_full_groups W r2 bits k text i f.
Proof.
  intros Hr. induction f as [| f IH]; intros i; [reflexivity |]. cbn [pack_full_groups].
  rewrite (pack_group_ext W r1 r2 _ _ _ _ _ Hr), IH. reflexivity.
Qed.

Lemma bitpack_text_ext (W : Z) (r1 r2 : Z -> Z) (text : list Z) (n k pl bits : Z) :
  (forall c, In c text -> r1 c = r2 c) ->
  bitpack_text W text n k pl r1 bits = bitpack_text W text n k pl r2 bits.
Proof.
  intros Hr. unfold bitpack_text.
  rewrite (pack_full_groups_ext W r1 r2 _ _ _ _ Hr), (pack_group_ext W r1 r2 _ _ _ _ _ Hr).
  reflexivity.
Qed.

(** Insertion sort. *)
Section Sorting.
Variable lt : nat -> nat -> bool.
Let R := fun a b => lt a b = true.
Hypothesis lt_trans : forall a b c, lt a b = true -> lt b c = true -> lt a c = true.

Lemma insert_by_perm (x : nat) (l : list nat) : Permutation (insert_by lt x l) (x :: l).
Proof.
  induction l as [| y l IH]; simpl; [auto |].
  destruct (lt x y); [auto |]. rewrite IH. apply perm_swap.
Qed.

Lemma isort_perm (l : list nat) : Permutation (isort lt l) l.
Proof.
  induction l as [| x l IH]; simpl; [auto |]. rewrite insert_by_perm, IH. reflexivity.
Qed.

Lemma insert_by_sorted (x : nat) (l : list nat) :
  StronglySorted R l -> (forall y, In y l -> lt x y = true \/ lt y x = true) ->
  StronglySorted R (insert_by lt x l).
Proof.
  induction l as [| y l IH]; intros Hs Ht; simpl.
  - repeat constructor.
  - apply StronglySorted_inv in Hs as [Hs Hf].
    destruct (lt x y) eqn:Exy.
    + constructor; [constructor; auto |]. constructor; [exact Exy |].
      rewrite Forall_forall in *. intros z Hz. eapply lt_trans; [exact Exy | apply Hf; auto].
    + assert (Eyx : lt y x = true) by (destruct (Ht y (or_introl eq_refl)); congruence).
      constructor; [apply IH; auto; intros; apply Ht; simpl; auto |].
      rewrite Forall_forall in *. intros z Hz.
      apply (Permutation_in _ (insert_by_perm x l)) in Hz. destruct Hz as [<- | Hz]; auto.
Qed.

Lemma isort_sorted (l : list nat) :
  NoDup l -> (forall a b, In a l -> In b l -> a <> b -> lt a b = true \/ lt b a = true) ->
  StronglySorted R (isort lt l).
Proof.
  induction l as [| x l IH]; intros Hn Ht; simpl; [constructor |].
  apply NoDup_cons_iff in Hn as [Hx Hn].
  apply insert_by_sorted; [apply IH; auto; intros; apply Ht; simpl; auto |].
  intros y Hy. apply (Permutation_in _ (isort_perm l)) in Hy.
  apply Ht; simpl; auto. intros ->. auto.
Qed.

End Sorting.

Lemma StronglySorted_filter {A} (R : A -> A -> Prop) (f : A -> bool) (l : list A) :
  StronglySorted R l -> StronglySorted R (filter f l).
Proof.
  induction 1 as [| a l Hs IH Hf]; simpl; [constructor |].
  destruct (f a); [| auto]. constructor; [auto |].
  rewrite Forall_forall in *. intros x Hx. apply filter_In in Hx as [Hx _]. auto.
Qed.

Lemma StronglySorted_map {A B} (R : A -> A -> Prop) (R' : B -> B -> Prop) (f : A -> B) (l : list A) :
  (forall a b, In a l -> In b l -> R a b -> R' (f a) (f b)) ->
  StronglySorted R l -> StronglySorted R' (map f l).
Proof.
  intros Hf Hs. induction Hs as [| a l Hs IH Hfa]; simpl; [constructor |].
  constructor; [apply IH; intros; apply Hf; simpl; auto |].
  rewrite Forall_forall in *. intros y Hy. apply in_map_iff in Hy as (x & <- & Hx).
  apply Hf; simpl; auto.
Qed.

Lemma StronglySorted_perm_eq {A} (R : A -> A -> Prop) (l1 l2 : list A) :
  (forall a b, R a b -> R b a -> False) ->
  StronglySorted R l1 -> StronglySorted R l2 -> Permutation l1 l2 -> l1 = l2.
Proof.
  intros Ha Hs1. revert l2. induction Hs1 as [| x l1 Hs1 IH Hf1]; intros l2 Hs2 Hp.
  - symmetry. apply Permutation_nil. exact Hp.
  - destruct l2 as [| y l2]; [apply Permutation_length in Hp; discriminate |].
    apply StronglySorted_inv in Hs2 as [Hs2 Hf2].
    assert (x = y).
    { destruct (Permutation_in x Hp (or_introl eq_refl)) as [| Hx]; [auto |].
      assert (Hy : In y (x :: l1)) by (apply (Permutation_in y (Permutation_sym Hp)); simpl; auto).
      destruct Hy as [| Hy]; [auto |].
      rewrite Forall_forall in Hf1, Hf2. exfalso. eapply Ha; [apply Hf1, Hy | apply Hf2, Hx]. }
    subst. f_equal. apply IH; [auto |]. eapply Permutation_cons_inv; eauto.
Qed.

Lemma Permutation_filter' {A} (f : A -> bool) (l1 l2 : list A) :
  Permutation l1 l2 -> Permutation (filter f l1) (filter f l2).
Proof.
  induction 1; simpl; auto.
  - destruct (f x); auto.
  - destruct (f x), (f y); auto. apply perm_swap.
  - eapply perm_trans; eauto.
Qed.

Lemma NoDup_map_inj {A B} (f : A -> B) (l : list A) :
  (forall a b, f a = f b -> a = b) -> NoDup l -> NoDup (map f l).
Proof.
  intros Hi. induction 1; simpl; constructor; auto.
  intros Hx. apply in_map_iff in Hx as (y & Hy & Hyl). apply Hi in Hy. subst. auto.
Qed.

(** The sampling loop keeps the sampled prefix in place. *)
Lemma list_set_app (l1 l2 : list Z) (v : Z) :
  list_set (l1 ++ l2) (length l1) v = l1 ++ list_set l2 0 v.
Proof. induction l1 as [| x l1 IH]; simpl; [reflexivity |]. now rewrite IH. Qed.

Lemma skipn_nth_cons (l : list Z) (j : nat) :
  (j < length l)%nat -> skipn j l = nth j l 0 :: skipn (S j) l.
Proof.
  revert l. induction j as [| j IH]; intros [| x l] H; simpl in *; try lia; [reflexivity |].
  apply IH. lia.
Qed.

Lemma sample_loop_spec (k : Z) (sa0 : list Z) :
  let p := fun x => Z.rem x k =? 0 in
  forall f i, (i + f)%nat = length sa0 ->
  let Fi := filter p (firstn i sa0) in
  sample_loop k f i (length Fi) (Fi ++ skipn (length Fi) sa0) =
  filter p sa0 ++ skipn (length (filter p sa0)) sa0.
Proof.
  intros p f. induction f as [| f IH]; intros i Hi Fi.
  - simpl. unfold Fi. rewrite firstn_all2 by lia. reflexivity.
  - cbn [sample_loop].
    assert (HFi : (length Fi <= i)%nat).
    { unfold Fi. etransitivity; [apply filter_length_le |]. rewrite length_firstn. lia. }
    assert (Hx : nth i (Fi ++ skipn (length Fi) sa0) 0 = nth i sa0 0).
    { rewrite app_nth2 by lia. rewrite nth_skipn. f_equal. lia. }
    rewrite Hx.
    assert (Hf : filter p (firstn (S i) sa0) = Fi ++ (if p (nth i sa0 0) then nth i sa0 0 :: nil else nil)).
    { rewrite firstn_S_nth by lia. rewrite filter_app. reflexivity. }
    fold (p (nth i sa0 0)).
    destruct (p (nth i sa0 0)) eqn:Ep.
    + rewrite list_set_app. rewrite (skipn_nth_cons sa0 (length Fi)) by lia. cbn [list_set].
      pose proof (IH (S i) ltac:(lia)) as IH'. cbv zeta in IH'. rewrite Hf in IH'.
      rewrite length_app in IH'. cbn [length] in IH'. rewrite Nat.add_1_r, <- app_assoc in IH'.
      exact IH'.
    + pose proof (IH (S i) ltac:(lia)) as IH'. cbv zeta in IH'. rewrite Hf, app_nil_r in IH'.
      exact IH'.
Qed.


Section PackedOrder.
Variables (rank : Z -> Z) (b : Z) (k : nat) (text : list Z).
Hypothesis Hb : 0 <= b.
Hypothesis Hk : (0 < k)%nat.
Hypothesis Hrank : forall c, In c text -> 0 <= rank c < 2 ^ b.
Hypothesis Hmono : forall c d, In c text -> In d text -> (c < d <-> rank c < rank d).

Let n := length text.
Let m := Z.to_nat ((Z.of_nat n + Z.of_nat k - 1) / Z.of_nat k).
Let pad := (m * k - n)%nat.
Let R := map rank text ++ repeat 0 pad.

Lemma m_bounds : (0 < n)%nat ->
  (0 < m)%nat /\ ((m - 1) * k < n)%nat /\ (n <= m * k)%nat /\ ((m - 1) * k + k = m * k)%nat.
Proof.
  intros Hn. unfold m.
  pose proof (Z.div_mod (Z.of_nat n + Z.of_nat k - 1) (Z.of_nat k) ltac:(lia)).
  pose proof (Z.mod_pos_bound (Z.of_nat n + Z.of_nat k - 1) (Z.of_nat k) ltac:(lia)).
  set (q := (Z.of_nat n + Z.of_nat k - 1) / Z.of_nat k) in *.
  set (r := (Z.of_nat n + Z.of_nat k - 1) mod Z.of_nat k) in *.
  assert (0 < q) by nia.
  split; [lia |]. split; [nia |]. split; [nia |].
  rewrite Nat.mul_sub_distr_r. nia.
Qed.

Lemma R_length : (0 < n)%nat -> length R = (m * k)%nat.
Proof.
  intros Hn. destruct (m_bounds Hn) as (H1 & H2 & H3 & H4).
  unfold R, pad. rewrite length_app, length_map, repeat_length. fold n. lia.
Qed.

Lemma R_digits : forall x, In x R -> 0 <= x < 2 ^ b.
Proof.
  intros x Hx. unfold R in Hx. apply in_app_iff in Hx as [Hx | Hx].
  - apply in_map_iff in Hx as (c & <- & Hc). auto.
  - apply repeat_spec in Hx. subst. pose proof (Z.pow_pos_nonneg 2 b). lia.
Qed.

Lemma packed_blocks (W : Z) :
  b * Z.of_nat k <= 31 -> b * Z.of_nat k <= W -> (0 < n)%nat ->
  bitpack_text W text (Z.of_nat n) (Z.of_nat k) (Z.of_nat m) rank b =
  Some (map (digits_val (2 ^ b)) (blocks k R m)).
Proof.
  intros H31 HW Hn. destruct (m_bounds Hn) as (Hm0 & Hm1 & Hm2 & Hm3).
  set (rank' := fun c => if in_dec Z.eq_dec c text then rank c else 0).
  assert (Hr' : forall c, In c text -> rank c = rank' c).
  { intros c Hc. unfold rank'. destruct (in_dec Z.eq_dec c text); tauto. }
  assert (Hr'b : forall c, 0 <= rank' c < 2 ^ b).
  { intros c. unfold rank'. destruct (in_dec Z.eq_dec c text); auto.
    pose proof (Z.pow_pos_nonneg 2 b). lia. }
  rewrite (bitpack_text_ext W rank rank' text _ _ _ _ Hr').
  destruct (bitpack_text_spec W rank' b (Z.of_nat k) text Hb ltac:(lia) H31 HW Hr'b
              ltac:(fold n; lia) ltac:(lia)) as [_ Hs].
  fold n in Hs.
  assert (Hq : (Z.of_nat n + Z.of_nat k - 1) / Z.of_nat k = Z.of_nat m)
    by (unfold m; rewrite Z2Nat.id by (apply Z.div_pos; lia); reflexivity).
  rewrite Hq in Hs. rewrite Hs. f_equal.
  pose proof (blocks_seq k R m 0) as Ebl. rewrite Nat.mul_0_l in Ebl. cbn [skipn] in Ebl.
  rewrite Ebl, map_map.
  assert (Eseq : seq 0 m = seq 0 (m - 1) ++ (0 + (m - 1))%nat :: nil).
  { rewrite <- seq_S. f_equal. lia. }
  rewrite Eseq, map_app. cbn [map].
  replace (Z.to_nat (Z.of_nat m - 1)) with (m - 1)%nat by lia.
  assert (Hpad : (pad < k)%nat) by (unfold pad; nia).
  assert (Hrk : forall s cnt, (cnt <= k)%nat -> (s + cnt <= n)%nat ->
            group_sum rank' b (Z.of_nat k) text (Z.of_nat s) cnt =
            digits_val (2 ^ b) (map rank (firstn cnt (skipn s text)) ++ repeat 0 (k - cnt))).
  { intros s cnt H1 H2. rewrite group_sum_digits by (auto; lia).
    rewrite (map_ext_in rank' rank); [reflexivity |]. intros c Hc. symmetry. apply Hr'. eapply in_skipn, in_firstn; eauto. }
  f_equal.
  - apply map_ext_in. intros x Hx. apply in_seq in Hx.
    assert (Hxk : ((x + 1) * k <= (m - 1) * k)%nat) by (apply Nat.mul_le_mono_r; lia).
    rewrite <- Nat2Z.inj_mul, Nat2Z.id, Hrk by lia.
    unfold R. rewrite firstn_skipn_pad. 2:{ rewrite length_map; fold n. unfold pad. lia. } 2:{ rewrite length_map; fold n. unfold pad. lia. }
    rewrite length_map, skipn_map, firstn_map. fold n.
    replace (k - (n - x * k))%nat with (k - k)%nat by lia. reflexivity.
  - f_equal.
    replace (Z.of_nat k * (Z.of_nat m - 1)) with (Z.of_nat ((m - 1) * k))
      by (rewrite Nat2Z.inj_mul, Nat2Z.inj_sub by lia; ring).
    replace (Z.to_nat (Z.of_nat n - Z.of_nat ((m - 1) * k))) with (n - (m - 1) * k)%nat by lia.
    rewrite Hrk by nia. replace (0 + (m - 1))%nat with (m - 1)%nat by lia.
    unfold R. rewrite firstn_skipn_pad by (rewrite length_map; fold n; unfold pad; nia).
    rewrite length_map, skipn_map, firstn_map. fold n.
    rewrite firstn_all2 by (rewrite length_skipn; fold n; lia).
    rewrite firstn_all2 by (rewrite length_skipn; fold n; lia). reflexivity.
Qed.

Lemma packed_suffix_lt (g h : nat) :
  (0 < n)%nat -> (g < m)%nat -> (h < m)%nat ->
  suffix_lt (map (digits_val (2 ^ b)) (blocks k R m)) g h = suffix_lt text (g * k) (h * k).
Proof.
  intros Hn Hg Hh. destruct (m_bounds Hn) as (Hm0 & Hm1 & Hm2 & Hm3).
  assert (Hpad : (pad < k)%nat) by (unfold pad; nia).
  pose proof (R_length Hn) as HR.
  unfold suffix_lt. rewrite !skipn_map, !skipn_blocks.
  assert (HB : 0 < 2 ^ b) by (apply Z.pow_pos_nonneg; lia).
  assert (Hgk : (g * k <= (m - 1) * k)%nat) by (apply Nat.mul_le_mono_r; lia).
  assert (Hhk : (h * k <= (m - 1) * k)%nat) by (apply Nat.mul_le_mono_r; lia).
  rewrite (blocks_lex (2 ^ b) k (m - g) HB Hk _ (m - h));
    [| rewrite length_skipn, HR, Nat.mul_sub_distr_r; reflexivity
     | rewrite length_skipn, HR, Nat.mul_sub_distr_r; reflexivity
     | intros x Hx; apply R_digits; apply in_app_iff in Hx as [Hx | Hx]; eapply in_skipn; eauto].
  unfold R. rewrite !skipn_app, length_map. fold n.
  replace (g * k - n)%nat with O by nia. replace (h * k - n)%nat with O by nia. cbn [skipn].
  rewrite !skipn_map, lex_lt_pad.
  - apply lex_lt_map. intros c d Hc Hd. apply Hmono;
      apply in_app_iff in Hc, Hd; [destruct Hc as [Hc | Hc] | destruct Hd as [Hd | Hd]]; eapply in_skipn; eauto.
  - intros x Hx. apply in_app_iff in Hx as [Hx | Hx]; apply in_map_iff in Hx as (c & <- & Hc);
      apply Hrank; eapply in_skipn; eauto.
  - intros w Hw Hne. apply (f_equal (@length Z)) in Hw. rewrite length_app, !length_map, !length_skipn in Hw.
    fold n in Hw. destruct w; [congruence |]. simpl length in *.
    assert (Hhg : (h < g)%nat).
    { destruct (Nat.lt_ge_cases h g) as [| Hle]; [auto |].
      pose proof (Nat.mul_le_mono_r g h k Hle). lia. }
    pose proof (Nat.mul_le_mono_r (S h) g k Hhg). simpl in *. lia.
  - intros w Hw Hne. apply (f_equal (@length Z)) in Hw. rewrite length_app, !length_map, !length_skipn in Hw.
    fold n in Hw. destruct w; [congruence |]. simpl length in *.
    assert (Hhg : (g < h)%nat).
    { destruct (Nat.lt_ge_cases g h) as [| Hle]; [auto |].
      pose proof (Nat.mul_le_mono_r h g k Hle). lia. }
    pose proof (Nat.mul_le_mono_r (S g) h k Hhg). simpl in *. lia.
Qed.

Lemma blocks_length (l : list Z) (c : nat) : length (blocks k l c) = c.
Proof. revert l. induction c as [| c IH]; intros l; simpl; auto. Qed.

Lemma m_pos : (0 < m)%nat -> (0 < n)%nat.
Proof.
  intros Hm. unfold m, n in *. destruct (length text) as [| n'] eqn:En; [| lia].
  rewrite Z.div_small in Hm by lia. simpl in Hm. lia.
Qed.

Lemma n_le_mk : (n <= m * k)%nat.
Proof.
  destruct (Nat.eq_dec n 0) as [-> | Hn]; [lia |].
  destruct (m_bounds ltac:(lia)) as (_ & _ & H & _). exact H.
Qed.

Lemma packed_blocks_all (W : Z) :
  b * Z.of_nat k <= 31 -> b * Z.of_nat k <= W ->
  bitpack_text W text (Z.of_nat n) (Z.of_nat k) (Z.of_nat m) rank b =
  Some (map (digits_val (2 ^ b)) (blocks k R m)).
Proof.
  intros H31 HW. destruct (Nat.eq_dec n 0) as [Hn | Hn]; [| apply packed_blocks; auto; lia].
  assert (Hm : m = O).
  { destruct (Nat.eq_dec m 0); [auto |]. pose proof (m_pos ltac:(lia)). lia. }
  unfold bitpack_text. rewrite Hn, Hm. reflexivity.
Qed.

Lemma suffix_lt_total (xs : list Z) (a c : nat) :
  (a < length xs)%nat -> (c < length xs)%nat -> a <> c ->
  suffix_lt xs a c = true \/ suffix_lt xs c a = true.
Proof.
  intros Ha Hc Hne. unfold suffix_lt. destruct (lex_lt (skipn a xs) (skipn c xs)) eqn:E; [auto |].
  right. apply lex_lt_total; [| exact E].
  intros Hs. apply (f_equal (@length Z)) in Hs. rewrite !length_skipn in Hs. lia.
Qed.

Lemma sorted_packed_eq :
  let P := map (digits_val (2 ^ b)) (blocks k R m) in
  map (fun g => (g * k)%nat) (isort (suffix_lt P) (seq 0 m)) =
  filter (fun p => Nat.eqb (p mod k) 0) (isort (suffix_lt text) (seq 0 n)).
Proof.
  intros P.
  assert (HP : length P = m) by (unfold P; rewrite length_map; apply blocks_length).
  apply (StronglySorted_perm_eq (fun a c => suffix_lt text a c = true)).
  - intros a c H1 H2. unfold suffix_lt in *. rewrite (lex_lt_asym _ _ H1) in H2. discriminate.
  - apply (StronglySorted_map (fun a c => suffix_lt P a c = true)).
    + intros a c Ha Hc Hac.
      apply (Permutation_in _ (isort_perm _ _)), in_seq in Ha, Hc.
      rewrite <- packed_suffix_lt; [exact Hac | apply m_pos | |]; lia.
    + apply isort_sorted; [intros ? ? ?; apply lex_lt_trans | apply seq_NoDup |].
      intros a c Ha Hc Hne. apply in_seq in Ha, Hc. apply suffix_lt_total; [lia | lia | auto].
  - apply StronglySorted_filter. apply isort_sorted; [intros ? ? ?; apply lex_lt_trans | apply seq_NoDup |].
    intros a c Ha Hc Hne. apply in_seq in Ha, Hc. apply suffix_lt_total; [fold n; lia | fold n; lia | auto].
  - eapply perm_trans; [apply Permutation_map, isort_perm |].
    eapply perm_trans; [| apply Permutation_filter', Permutation_sym, isort_perm].
    apply NoDup_Permutation.
    + apply NoDup_map_inj; [| apply seq_NoDup]. intros a c Hac. nia.
    + apply NoDup_filter, seq_NoDup.
    + intros p. rewrite in_map_iff, filter_In, in_seq. split.
      * intros (g & <- & Hg). apply in_seq in Hg.
        destruct (m_bounds (m_pos ltac:(lia))) as (_ & Hm1 & _).
        assert ((g * k <= (m - 1) * k)%nat) by (apply Nat.mul_le_mono_r; lia).
        rewrite Nat.Div0.mod_mul. split; [lia | reflexivity].
      * intros [Hp Hmod]. apply Nat.eqb_eq in Hmod. exists (p / k)%nat.
        pose proof (Nat.div_mod_eq p k) as Hd. rewrite Hmod, Nat.add_0_r in Hd.
        split; [lia |]. apply in_seq. split; [lia |].
        destruct (Nat.lt_ge_cases (p / k) m) as [| Hge]; [lia |].
        pose proof (Nat.mul_le_mono_r m (p / k) k Hge). pose proof n_le_mk. lia.
Qed.

End PackedOrder.

Lemma suffix_array_length (xs : list Z) : length (suffix_array xs) = length xs.
Proof.
  unfold suffix_array. rewrite length_map, (Permutation_length (isort_perm _ _)). apply length_seq.
Qed.

Lemma build_sa_sampled (text : list Z) (kn : nat) :
  (1 < kn)%nat ->
  build_sa text (Z.of_nat (length text)) (Z.of_nat kn) =
  let F := map Z.of_nat (filter (fun p => Nat.eqb (p mod kn) 0)
                           (isort (suffix_lt text) (seq 0 (length text)))) in
  F ++ skipn (length F) (suffix_array text).
Proof.
  intros Hk. unfold build_sa. replace (1 <? Z.of_nat kn) with true by lia.
  rewrite Nat2Z.id, firstn_all.
  pose proof (sample_loop_spec (Z.of_nat kn) (suffix_array text) (length text) 0
                ltac:(rewrite suffix_array_length; lia)) as Hs.
  cbv zeta in Hs. cbn [firstn filter length app skipn] in Hs. rewrite Hs.
  assert (Hf : filter (fun x => Z.rem x (Z.of_nat kn) =? 0) (suffix_array text) =
               map Z.of_nat (filter (fun p => Nat.eqb (p mod kn) 0)
                               (isort (suffix_lt text) (seq 0 (length text))))).
  { unfold suffix_array. rewrite filter_map_swap. f_equal. apply filter_ext. intros p.
    rewrite Z.rem_mod_nonneg, <- Nat2Z.inj_mod by lia.
    destruct (Nat.eqb_spec (p mod kn) 0) as [E | E]; [rewrite E; reflexivity |].
    apply Z.eqb_neq. lia. }
  cbv zeta. rewrite Hf. reflexivity.
Qed.

(** *** The benchmark packers against the packers of src/bitpacking.c *)

Lemma read_text_In (text : list Z) (idx c : Z) : read_text text idx = Some c -> In c text.
Proof. unfold read_text. destruct (idx <? 0); [discriminate |]. apply nth_error_In. Qed.

Section BenchPack.
Variables (text : list Z) (dna : Z) (r : Z -> Z).
Hypothesis Hr : forall c, In c text -> Bench.rank_of dna c = Some (r c).

Lemma bench_pack_group (W bits k ti : Z) :
  forall fuel j e,
  Bench.pack_group W dna bits k text ti j fuel e = pack_group W r bits k text ti j fuel e.
Proof.
  induction fuel as [| f IH]; intros j e; [reflexivity |].
  cbn [Bench.pack_group pack_group].
  destruct (read_text text (ti + j)) as [c |] eqn:E; [| reflexivity].
  rewrite (Hr c (read_text_In _ _ _ E)).
  destruct (elem_shl W (r c) (bits * (k - 1 - j))); [apply IH | reflexivity].
Qed.

Lemma bench_pack_full_groups (W bits k : Z) :
  forall fuel i,
  Bench.pack_full_groups W dna bits k text i fuel = pack_full_groups W r bits k text i fuel.
Proof.
  induction fuel as [| f IH]; intros i; [reflexivity |].
  cbn [Bench.pack_full_groups pack_full_groups].
  rewrite bench_pack_group, IH. reflexivity.
Qed.

Lemma bench_bitpack_text (W BD BA text_len k packed_len : Z) :
  Bench.bitpack_text W BD BA text text_len k packed_len dna =
  bitpack_text W text text_len k packed_len r ((if 0 <? dna then BD else BA) mod 2 ^ 32).
Proof.
  unfold Bench.bitpack_text, bitpack_text. cbv zeta.
  rewrite bench_pack_full_groups, bench_pack_group. reflexivity.
Qed.

End BenchPack.

(** With a mode width below 256 and a text whose bytes all have a
    defined rank, [build_sa_optimized] runs the branches of
    [build_sa_ranked] with that rank and width. *)
Lemma build_sa_optimized_ranked (BD BA : Z) (text : list Z) (length k sa_length dna : Z)
    (lib : list Z -> list Z) (r : Z -> Z) :
  0 <= (if 0 <? dna then BD else BA) < 256 ->
  (forall c, In c text -> Bench.rank_of dna c = Some (r c)) ->
  build_sa_optimized BD BA text length k sa_length dna lib =
  build_sa_ranked text length k sa_length r (if 0 <? dna then BD else BA) lib.
Proof.
  intros Hb Hr.
  unfold build_sa_optimized, build_sa_ranked, Bench.bitpack_text_8, Bench.bitpack_text_16,
    Bench.bitpack_text_32, bitpack_text_8, bitpack_text_16, bitpack_text_32.
  cbv zeta. rewrite !(bench_bitpack_text text dna r Hr).
  rewrite (Z.mod_small _ 256), (Z.mod_small _ (2 ^ 32)) by lia. reflexivity.
Qed.

(** For [k > 1], a rank function that is strictly increasing on the bytes
    of the text with values below [2 ^ b], [1 <= b] and [b * k <= 30], and
    [libsais16x64] returning the suffix array of its input, the branches of
    [build_sa_optimized] return the first [ceil(n / k)] entries that
    [build_sa] leaves in its array. *)
Lemma build_sa_ranked_refines (text : list Z) (k b : Z) (rank : Z -> Z)
    (libsais16x64_sa : list Z -> list Z) :
  1 < k -> 1 <= b -> b * k <= 30 ->
  (forall c, In c text -> 0 <= rank c < 2 ^ b) ->
  (forall c d, In c text -> In d text -> (c < d <-> rank c < rank d)) ->
  (forall xs, libsais16x64_sa xs = suffix_array xs) ->
  let n := Z.of_nat (length text) in
  let sa_length := (n + k - 1) / k in
  build_sa_ranked text n k sa_length rank b libsais16x64_sa =
  Some (firstn (Z.to_nat sa_length) (build_sa text n k)).
Proof.
  intros Hk Hb Hbk Hrank Hmono H16 n sa_length.
  set (kn := Z.to_nat k).
  assert (Ek : k = Z.of_nat kn) by (unfold kn; lia).
  set (m := Z.to_nat ((Z.of_nat (length text) + Z.of_nat kn - 1) / Z.of_nat kn)).
  assert (Esa : sa_length = Z.of_nat m).
  { unfold m, sa_length, n. rewrite <- Ek, Z2Nat.id by (apply Z.div_pos; lia). reflexivity. }
  set (P := map (digits_val (2 ^ b)) (blocks kn (map rank text ++ repeat 0 (m * kn - length text)) m)).
  assert (Hpk : forall W, b * Z.of_nat kn <= 31 -> b * Z.of_nat kn <= W ->
            bitpack_text W text n (k mod 256) sa_length rank b = Some P).
  { intros W H1 H2. rewrite Z.mod_small by nia. rewrite Esa, Ek.
    apply (packed_blocks_all rank b kn text); auto; lia. }
  assert (Hsort := sorted_packed_eq rank b kn text ltac:(lia) ltac:(unfold kn; lia) Hrank Hmono).
  cbv zeta in Hsort. fold m P in Hsort.
  assert (Hscale : (if 1 <? k then map (fun x => x * k) (suffix_array P) else suffix_array P) =
                   firstn (Z.to_nat sa_length) (build_sa text n k)).
  { replace (1 <? k) with true by lia. unfold n. rewrite Ek, build_sa_sampled by lia.
    cbv zeta. rewrite <- Hsort, Esa, Nat2Z.id.
    unfold suffix_array. rewrite !map_map.
    replace (length P) with m by (unfold P; rewrite length_map, blocks_length; reflexivity).
    rewrite firstn_app, !length_map, (Permutation_length (isort_perm _ _)), length_seq.
    rewrite Nat.sub_diag, firstn_O, app_nil_r.
    rewrite firstn_all2 by (rewrite length_map, (Permutation_length (isort_perm _ _)), length_seq; lia).
    apply map_ext. intros a. lia. }
  unfold build_sa_ranked. replace (k =? 1) with false by lia.
  destruct (Z.leb_spec (b * k) 8).
  { unfold bitpack_text_8. rewrite Hpk by lia. now rewrite Hscale. }
  destruct (Z.leb_spec (b * k) 16).
  { unfold bitpack_text_16. rewrite Hpk by lia. now rewrite H16, Hscale. }
  replace (b * k <=? 32) with true by lia.
  unfold bitpack_text_32. rewrite Hpk by lia.
  unfold int_shl. replace ((0 <=? b * k) && (b * k <? 32) && (0 <=? 1) && (1 * 2 ^ (b * k) <? 2 ^ 31))
    with true.
  - now rewrite Hscale.
  - symmetry. assert (2 ^ (b * k) <= 2 ^ 30) by (apply Z.pow_le_mono_r; lia).
    repeat rewrite andb_true_iff. repeat split; lia.
Qed.

Lemma bench_rank_dna (dna c : Z) :
  0 < dna -> c = 65 \/ c = 67 \/ c = 71 \/ c = 84 -> Bench.rank_of dna c = Some (get_rank_dna c).
Proof.
  intros Hd Hc. unfold Bench.rank_of. replace (dna =? 0) with false by lia.
  destruct Hc as [-> | [-> | [-> | ->]]]; reflexivity.
Qed.

Lemma get_rank_letter (c : Z) : 65 <= c <= 90 -> Bench.get_rank c = c - 63.
Proof.
  intros H. unfold Bench.get_rank. replace (c =? 36) with false by lia.
  replace (c =? 45) with false by lia. rewrite Z.mod_small by lia. lia.
Qed.

(** C2 (counterexample): the packed pipeline compares ranks, not bytes.
    In DNA mode [get_rank_dna] gives ['$'] the rank of ['A']; on the text
    ["$CAC"] with [k = 2] the packed symbols of the suffixes at 0 (["$C"])
    and at 2 (["AC"]) are equal, so the packed sort puts the later,
    shorter suffix first.  For every DNA width [b] in [[1, 15]] (the widths
    with [2 * b <= 30]; the protein width [5] plays no part) the optimized
    pipeline writes [2, 0], while the unoptimized one writes [0, 2]. *)
Lemma ssa_pipelines_differ :
  Forall (fun b => ssa_optimized b 5 (36 :: 67 :: 65 :: 67 :: nil) 2 1 suffix_array =
                   Some (2 :: 0 :: nil))
    (map Z.of_nat (seq 1 15)) /\
  ssa_unoptimized (36 :: 67 :: 65 :: 67 :: nil) 2 = 0 :: 2 :: nil.
Proof.
  split; [| vm_compute; reflexivity].
  apply Forall_forall. intros b Hb. simpl in Hb.
  repeat destruct Hb as [<- | Hb]; try contradiction; vm_compute; reflexivity.
Qed.

(** C2 (amended): for [k > 1], with [libsais16x64] returning the suffix
    array of its input, the optimized pipeline writes the same entries as
    the unoptimized one (the suffix-array entries divisible by [k], in
    suffix-array order) in DNA mode ([dna > 0]) on a text over [A], [C],
    [G], [T] with [2 <= BITS_PER_CHAR_DNA] and [BITS_PER_CHAR_DNA * k <= 30],
    and in protein mode ([dna = 0]) on a text over ['$'], ['-'] and the
    capital letters with [5 <= BITS_PER_CHAR] and [BITS_PER_CHAR * k <= 30]. *)
Theorem build_sa_optimized_refines (BITS_PER_CHAR_DNA BITS_PER_CHAR : Z) (text : list Z)
    (k dna : Z) (libsais16x64_sa : list Z -> list Z) :
  1 < k ->
  (0 < dna /\ 2 <= BITS_PER_CHAR_DNA /\ BITS_PER_CHAR_DNA * k <= 30 /\
     (forall c, In c text -> c = 65 \/ c = 67 \/ c = 71 \/ c = 84)) \/
  (dna = 0 /\ 5 <= BITS_PER_CHAR /\ BITS_PER_CHAR * k <= 30 /\
     (forall c, In c text -> c = 36 \/ c = 45 \/ 65 <= c <= 90)) ->
  (forall xs, libsais16x64_sa xs = suffix_array xs) ->
  ssa_optimized BITS_PER_CHAR_DNA BITS_PER_CHAR text k dna libsais16x64_sa =
  Some (ssa_unoptimized text k).
Proof.
  intros Hk Hmode H16. unfold ssa_optimized, ssa_unoptimized.
  assert (E : build_sa_optimized BITS_PER_CHAR_DNA BITS_PER_CHAR text
                (Z.of_nat (length text)) k ((Z.of_nat (length text) + k - 1) / k) dna
                libsais16x64_sa =
              Some (firstn (Z.to_nat ((Z.of_nat (length text) + k - 1) / k))
                      (build_sa text (Z.of_nat (length text)) k))).
  { destruct Hmode as [(Hd & Hb & Hbk & Hacgt) | (Hd & Hb & Hbk & Haa)].
    - rewrite (build_sa_optimized_ranked _ _ _ _ _ _ _ _ get_rank_dna).
      + replace (0 <? dna) with true by lia.
        assert (H4 : 2 ^ 2 <= 2 ^ BITS_PER_CHAR_DNA) by (apply Z.pow_le_mono_r; lia).
        change (2 ^ 2) with 4 in H4.
        apply build_sa_ranked_refines; auto; try lia.
        * intros c Hc. destruct (Hacgt c Hc) as [-> | [-> | [-> | ->]]]; vm_compute get_rank_dna; lia.
        * intros c d Hc Hd'. destruct (Hacgt c Hc) as [-> | [-> | [-> | ->]]];
            destruct (Hacgt d Hd') as [-> | [-> | [-> | ->]]]; vm_compute; split; intros; congruence.
      + replace (0 <? dna) with true by lia. lia.
      + intros c Hc. apply bench_rank_dna; auto.
    - subst dna. rewrite (build_sa_optimized_ranked _ _ _ _ _ _ _ _ Bench.get_rank).
      + change (0 <? 0) with false. cbv iota.
        assert (H32 : 2 ^ 5 <= 2 ^ BITS_PER_CHAR) by (apply Z.pow_le_mono_r; lia).
        change (2 ^ 5) with 32 in H32.
        assert (Hr : forall c, In c text -> 0 <= Bench.get_rank c < 2 ^ BITS_PER_CHAR /\
                       (c = 36 /\ Bench.get_rank c = 0 \/ c = 45 /\ Bench.get_rank c = 1 \/
                        65 <= c <= 90 /\ Bench.get_rank c = c - 63)).
        { intros c Hc. destruct (Haa c Hc) as [-> | [-> | Hl]].
          - vm_compute Bench.get_rank. split; [lia | auto].
          - vm_compute Bench.get_rank. split; [lia | auto].
          - rewrite get_rank_letter by lia. split; [lia | auto]. }
        apply build_sa_ranked_refines; auto; try lia.
        * intros c Hc. apply Hr; auto.
        * intros c d Hc Hd'. pose proof (Hr c Hc). pose proof (Hr d Hd'). lia.
      + change (0 <? 0) with false. cbv iota. lia.
      + intros c _. reflexivity. }
  rewrite E. cbn [option_map]. rewrite firstn_firstn, Nat.min_id. reflexivity.
Qed.

Lemma build_sa_optimized_refines_witness :
  ssa_optimized 2 5 (65 :: 67 :: 71 :: 84 :: 65 :: 67 :: 71 :: 84 :: nil) 2 1 suffix_array =
  Some (ssa_unoptimized (65 :: 67 :: 71 :: 84 :: 65 :: 67 :: 71 :: 84 :: nil) 2).
Proof.
  refine (build_sa_optimized_refines 2 5 (65 :: 67 :: 71 :: 84 :: 65 :: 67 :: 71 :: 84 :: nil)
            2 1 suffix_array ltac:(lia) _ (fun xs => eq_refl)).
  left. split; [lia |]. split; [lia |]. split; [lia |].
  intros c Hc. simpl in Hc. repeat destruct Hc as [<- | Hc]; try contradiction; lia.
Defined.

(** ** Further properties *)

Lemma mark_occuring_spec (text : list Z) :
  forall occuring c,
  (mark_occuring occuring text c =? 0) = (occuring c =? 0) && negb (occurs text c).
Proof.
  induction text as [| a t IH]; intros occ c; simpl.
  - unfold occurs. simpl. now rewrite andb_true_r.
  - rewrite IH. unfold occurs. cbn [existsb].
    destruct (Z.eqb_spec c a) as [-> | Hne].
    + destruct (Z.eqb_spec (occ a) 0) as [E | E].
      * rewrite upd_eq. reflexivity.
      * rewrite (proj2 (Z.eqb_neq _ _) E). reflexivity.
    + cbn [orb]. destruct (occ a =? 0); [rewrite upd_ne by auto |]; reflexivity.
Qed.

Lemma distinct_below_succ (text : list Z) (i : Z) :
  0 <= i ->
  distinct_below text (i + 1) = distinct_below text i + (if occurs text i then 1 else 0).
Proof.
  intros Hi. unfold distinct_below.
  replace (Z.to_nat (i + 1)) with (S (Z.to_nat i)) by lia.
  rewrite seq_S, filter_app, length_app. cbn [filter].
  replace (Z.of_nat (0 + Z.to_nat i)) with i by lia.
  destruct (occurs text i); simpl; lia.
Qed.

Lemma distinct_below_bound (text : list Z) (i : Z) :
  0 <= i -> 0 <= distinct_below text i <= i.
Proof.
  intros Hi. unfold distinct_below.
  pose proof (filter_length_le (fun d => occurs text (Z.of_nat d)) (seq 0 (Z.to_nat i))).
  rewrite length_seq in H. lia.
Qed.

Lemma distinct_below_mono (text : list Z) (c d : Z) :
  0 <= c -> c <= d -> distinct_below text c <= distinct_below text d.
Proof.
  intros Hc Hcd. replace d with (c + Z.of_nat (Z.to_nat (d - c))) by lia.
  induction (Z.to_nat (d - c)) as [| j IH]; [rewrite Nat2Z.inj_0, Z.add_0_r; lia |].
  replace (c + Z.of_nat (S j)) with (c + Z.of_nat j + 1) by lia.
  rewrite distinct_below_succ by lia. destruct (occurs text _); lia.
Qed.

Lemma distinct_below_strict (text : list Z) (c d : Z) :
  0 <= c < d -> occurs text c = true -> distinct_below text c < distinct_below text d.
Proof.
  intros Hc Ho. pose proof (distinct_below_succ text c ltac:(lia)) as E. rewrite Ho in E.
  pose proof (distinct_below_mono text (c + 1) d ltac:(lia) ltac:(lia)). lia.
Qed.

Section RankLoop.
Variables (text : list Z) (occuring : array).
Hypothesis Hocc : forall c, (occuring c =? 0) = negb (occurs text c).

Definition rank_of (i c : Z) : Z :=
  if (0 <=? c) && (c <? i) && occurs text c then distinct_below text c else 0.

Lemma rank_loop_spec (fuel : nat) :
  forall i chars r, 0 <= i -> i + Z.of_nat fuel = 256 ->
  chars = distinct_below text i mod 256 ->
  (forall c, r c = rank_of i c) ->
  let '(chars', r') := rank_loop occuring fuel i chars r in
  chars' = distinct_below text 256 mod 256 /\ forall c, r' c = rank_of 256 c.
Proof.
  induction fuel as [| f IH]; intros i chars r Hi Hf Hch Hr; cbn [rank_loop].
  - replace i with 256 in * by lia. split; auto.
  - pose proof (distinct_below_bound text i Hi) as Hdb.
    rewrite Hocc. pose proof (distinct_below_succ text i Hi) as Es.
    destruct (occurs text i) eqn:Eo; cbn [negb].
    + apply IH; [lia | lia | |].
      * rewrite Es, Hch. rewrite (Z.mod_small (distinct_below text i)) by lia. reflexivity.
      * intros c. unfold upd. destruct (Z.eq_dec c i) as [-> | Hne].
        -- unfold rank_of. rewrite Eo. replace ((0 <=? i) && (i <? i + 1)) with true by lia.
           rewrite Hch, Z.mod_small by lia. reflexivity.
        -- rewrite Hr. unfold rank_of.
           destruct (Z.ltb_spec c i), (Z.ltb_spec c (i + 1)); try lia; reflexivity.
    + apply IH; [lia | lia | rewrite Es, Z.add_0_r; exact Hch |].
      intros c. rewrite Hr. unfold rank_of.
      destruct (Z.eq_dec c i) as [-> | Hne].
      * rewrite Eo, !andb_false_r. reflexivity.
      * destruct (Z.ltb_spec c i), (Z.ltb_spec c (i + 1)); try lia; reflexivity.
Qed.

End RankLoop.

Lemma build_char_to_rank_ranks (text : list Z) :
  let '(char_to_rank, alphabet_size) := build_char_to_rank text in
  alphabet_size = distinct_below text 256 mod 256 /\
  (forall c, char_to_rank c =
     if (0 <=? c) && (c <? 256) && occurs text c then distinct_below text c else 0) /\
  (forall c d, 0 <= c < 256 -> 0 <= d < 256 -> occurs text c = true -> occurs text d = true ->
     (c < d <-> char_to_rank c < char_to_rank d)).
Proof.
  unfold build_char_to_rank.
  pose proof (rank_loop_spec text (mark_occuring (fun _ => 0) text)
                ltac:(intros c; apply mark_occuring_spec) 256 0 0 (fun _ => 0)
                ltac:(lia) ltac:(lia) ltac:(reflexivity)
                ltac:(intros c; unfold rank_of; replace ((0 <=? c) && (c <? 0)) with false by lia; reflexivity))
    as H.
  destruct (rank_loop _ _ _ _ _) as [chars r]. destruct H as [H1 H2].
  split; [exact H1 |]. split; [exact H2 |].
  intros c d Hc Hd Oc Od. rewrite !H2. unfold rank_of.
  replace ((0 <=? c) && (c <? 256)) with true by lia.
  replace ((0 <=? d) && (d <? 256)) with true by lia. rewrite Oc, Od. cbn [andb].
  split; intros Hlt.
  - apply distinct_below_strict; auto. lia.
  - destruct (Z.lt_trichotomy c d) as [| [-> | Hdc]]; [auto | lia |].
    pose proof (distinct_below_strict text d c ltac:(lia) Od). lia.
Qed.

(** X1: [build_char_to_rank] gives every byte that occurs in the text
    the number of distinct occurring bytes below it, so ranks are dense
    and follow byte order; every other byte gets rank 0, and the alphabet
    size is the number of distinct bytes modulo 256. *)
Theorem build_char_to_rank_dense (text : list Z) :
  let '(char_to_rank, alphabet_size) := build_char_to_rank text in
  alphabet_size = distinct_below text 256 mod 256 /\
  (forall c, char_to_rank c =
     if (0 <=? c) && (c <? 256) && occurs text c then distinct_below text c else 0) /\
  (forall c d, 0 <= c < 256 -> 0 <= d < 256 -> occurs text c = true -> occurs text d = true ->
     (c < d <-> char_to_rank c < char_to_rank d)).
Proof. exact (build_char_to_rank_ranks text). Qed.

Lemma translate_loop_spec (t0 : list Z) :
  let g := fun c => if c =? 76 then 73 else c in
  forall fuel i, (i + fuel)%nat = length t0 ->
  translate_loop fuel i (map g (firstn i t0) ++ skipn i t0) = map g t0.
Proof.
  intros g fuel. induction fuel as [| f IH]; intros i Hi; cbn [translate_loop].
  - rewrite firstn_all2, skipn_all2 by lia. apply app_nil_r.
  - assert (Hl : length (map g (firstn i t0)) = i) by (rewrite length_map, length_firstn; lia).
    rewrite (skipn_nth_cons t0 i) by lia.
    assert (Hn : nth i (map g (firstn i t0) ++ nth i t0 0 :: skipn (S i) t0) 0 = nth i t0 0).
    { rewrite app_nth2 by lia. rewrite Hl, Nat.sub_diag. reflexivity. }
    rewrite Hn.
    assert (Hf : map g (firstn (S i) t0) = map g (firstn i t0) ++ g (nth i t0 0) :: nil).
    { rewrite firstn_S_nth by lia. rewrite map_app. reflexivity. }
    destruct (Z.eqb_spec (nth i t0 0) 76) as [E | E].
    + pose proof (list_set_app (map g (firstn i t0)) (nth i t0 0 :: skipn (S i) t0) 73) as Hs.
      rewrite Hl in Hs. rewrite Hs. cbn [list_set].
      rewrite <- (IH (S i)) by lia. rewrite Hf, <- app_assoc.
      replace (g (nth i t0 0)) with 73 by (unfold g; rewrite E; reflexivity). reflexivity.
    + rewrite <- (IH (S i)) by lia. rewrite Hf, <- app_assoc.
      replace (g (nth i t0 0)) with (nth i t0 0) by (unfold g; destruct (Z.eqb_spec (nth i t0 0) 76); lia).
      reflexivity.
Qed.

(** X5: [translate_L_to_I] over the whole buffer replaces every ['L'] by ['I'],
    changes nothing else, and leaves no ['L'] behind; running it twice is running it once. *)
Theorem translate_L_to_I_spec (text : list Z) :
  translate_L_to_I text (length text) = map (fun c => if c =? 76 then 73 else c) text /\
  ~ In 76 (translate_L_to_I text (length text)) /\
  translate_L_to_I (translate_L_to_I text (length text)) (length text) =
  translate_L_to_I text (length text).
Proof.
  assert (E : forall t, translate_L_to_I t (length t) = map (fun c => if c =? 76 then 73 else c) t).
  { intros t. unfold translate_L_to_I. apply (translate_loop_spec t (length t) 0). lia. }
  split; [apply E |]. split.
  - rewrite E. intros H. apply in_map_iff in H as (c & Hc & _).
    destruct (Z.eqb_spec c 76); lia.
  - replace (length text) with (length (translate_L_to_I text (length text))) at 2
      by (rewrite E, length_map; reflexivity).
    rewrite (E (translate_L_to_I text (length text))), E, map_map.
    apply map_ext. intros c. destruct (Z.eqb_spec c 76); [reflexivity |].
    replace (c =? 76) with false by lia. reflexivity.
Qed.




(** X8: the sampling loop of [build_sa] moves the entries divisible by
    [k] to the front in suffix-array order and leaves the rest of the
    array as it was. *)
Theorem build_sa_sample_in_place (k : Z) (sa : list Z) :
  sample_loop k (length sa) 0 0 sa =
  filter (fun x => Z.rem x k =? 0) sa ++ skipn (length (filter (fun x => Z.rem x k =? 0) sa)) sa.
Proof.
  pose proof (sample_loop_spec k sa (length sa) 0 ltac:(lia)) as H.
  cbv zeta in H. cbn [firstn filter length app skipn] in H. exact H.
Qed.


Lemma mod_mul_split (y P : Z) :
  0 < P -> y mod (256 * P) = y mod 256 + 256 * ((y / 256) mod P).
Proof.
  intros HP. pose proof (Z.div_mod y 256 ltac:(lia)). pose proof (Z.mod_pos_bound y 256 ltac:(lia)).
  pose proof (Z.div_mod (y / 256) P ltac:(lia)). pose proof (Z.mod_pos_bound (y / 256) P HP).
  symmetry. apply (Z.mod_unique _ _ ((y / 256) / P)); [left; nia | nia].
Qed.

Lemma le_value_bytes (x : Z) (j : nat) :
  0 <= x -> forall s,
  le_value (map (fun i => Z.shiftr x (8 * Z.of_nat i) mod 256) (seq s j)) =
  Z.shiftr x (8 * Z.of_nat s) mod 2 ^ (8 * Z.of_nat j).
Proof.
  intros Hx. induction j as [| j IH]; intros s.
  - simpl. rewrite Z.mod_1_r. reflexivity.
  - cbn [seq map le_value]. rewrite IH.
    replace (2 ^ (8 * Z.of_nat (S j))) with (256 * 2 ^ (8 * Z.of_nat j))
      by (rewrite Nat2Z.inj_succ, Z.mul_succ_r, Z.pow_add_r by lia; ring).
    rewrite mod_mul_split by (apply Z.pow_pos_nonneg; lia).
    f_equal. f_equal. f_equal.
    rewrite !Z.shiftr_div_pow2 by lia. rewrite Z.div_div by (try lia; apply Z.pow_pos_nonneg; lia).
    f_equal. change 256 with (2 ^ 8). rewrite <- Z.pow_add_r by lia. f_equal. lia.
Qed.

Lemma le_bytes64_value (x : Z) : 0 <= x < 2 ^ 64 -> le_value (le_bytes64 x) = x.
Proof.
  intros Hx. unfold le_bytes64. rewrite le_value_bytes by lia.
  cbn [Z.of_nat]. rewrite Z.mul_0_r, Z.shiftr_0_r. apply Z.mod_small. exact Hx.
Qed.

Lemma le_bytes64_range (x : Z) : Forall (fun y => 0 <= y < 256) (le_bytes64 x) /\ length (le_bytes64 x) = 8%nat.
Proof.
  unfold le_bytes64. split.
  - apply Forall_forall. intros y Hy. apply in_map_iff in Hy as (i & <- & _).
    apply Z.mod_pos_bound. lia.
  - rewrite length_map, length_seq. reflexivity.
Qed.

(** X10: [write_sa_header] fails only for a compressed header whose
    [sa_length * sparseness_factor] wraps to 0; otherwise it is the width
    byte, the sparseness byte and eight bytes that read back, little
    endian, as [sa_length mod 2 ^ 64]. *)
Theorem write_sa_header_layout (sparseness_factor sa_length compressed : Z) :
  (write_sa_header sparseness_factor sa_length compressed = None <->
   0 < compressed /\ wrap_u64 (sa_length * sparseness_factor) = 0) /\
  forall h, write_sa_header sparseness_factor sa_length compressed = Some h ->
  exists bpe bytes,
    h = bpe :: sparseness_factor :: bytes /\ length bytes = 8%nat /\
    Forall (fun y => 0 <= y < 256) bytes /\ le_value bytes = sa_length mod 2 ^ 64.
Proof.
  unfold write_sa_header, bits_per_element_of. split.
  - destruct (Z.ltb_spec 0 compressed); [| split; [discriminate | lia]].
    destruct (Z.eqb_spec (wrap_u64 (sa_length * sparseness_factor)) 0); split; try discriminate; tauto.
  - intros h Hh.
    assert (Hb : exists bpe, h = bpe :: sparseness_factor :: le_bytes64 (wrap_u64 sa_length)).
    { destruct (0 <? compressed).
      - cbv zeta in Hh. destruct (wrap_u64 (sa_length * sparseness_factor) =? 0); [discriminate |].
        injection Hh as <-. eexists; reflexivity.
      - injection Hh as <-. eexists; reflexivity. }
    destruct Hb as [bpe ->]. exists bpe, (le_bytes64 (wrap_u64 sa_length)).
    destruct (le_bytes64_range (wrap_u64 sa_length)) as [Hr Hl].
    split; [reflexivity |]. split; [exact Hl |]. split; [exact Hr |].
    rewrite le_bytes64_value by (unfold wrap_u64; apply Z.mod_pos_bound; lia). reflexivity.
Qed.

(** X18: the [double] logarithm of [write_sa] rounds up just below a
    power of two: when compression is on and [n * k = 2 ^ J - 1] with
    [49 <= J <= 53], [log2] returns exactly [J] (the true value lies within
    half a unit in the last place of [J]), so the first header byte is
    [J + 1 = floor(log2(n * k)) + 2], one more than the number of bits of
    [n * k]. *)
Theorem write_sa_header_log2_rounds_up (k n compressed J : Z) :
  0 < compressed -> 49 <= J <= 53 -> n * k = 2 ^ J - 1 ->
  option_map (hd 0) (write_sa_header k n compressed) = Some (Z.log2 (n * k) + 2).
Proof.
  intros Hc HJ Hnk. unfold write_sa_header.
  rewrite (bits_per_element_pow2_pred k n compressed J Hc HJ Hnk).
  rewrite Hnk, log2_pow2_pred by lia. cbn [option_map hd]. f_equal. lia.
Qed.

(** ** LMS gathering *)

Lemma ltype_step (T : array) (n i : Z) :
  0 <= i <= n - 2 -> ltype T n i = (T (i + 1) - Z.b2z (ltype T n (i + 1)) <? T i).
Proof.
  intros Hi. unfold ltype.
  replace (Z.to_nat (n - 1 - i)) with (S (Z.to_nat (n - 1 - (i + 1)))) by lia.
  cbn [ltype_aux]. replace (n - 1 - Z.of_nat (S (Z.to_nat (n - 1 - (i + 1))))) with i by lia.
  reflexivity.
Qed.

Definition lms_from (T : array) (n p : Z) : list Z :=
  filter (is_lms T n) (map Z.of_nat (seq (Z.to_nat p) (Z.to_nat (n - p)))).

Lemma lms_from_step (T : array) (n p : Z) :
  0 <= p < n ->
  lms_from T n p = (if is_lms T n p then p :: nil else nil) ++ lms_from T n (p + 1).
Proof.
  intros Hp. unfold lms_from.
  replace (Z.to_nat (n - p)) with (S (Z.to_nat (n - (p + 1)))) by lia.
  cbn [seq map filter]. rewrite Z2Nat.id by lia.
  replace (S (Z.to_nat p)) with (Z.to_nat (p + 1)) by lia.
  destruct (is_lms T n p); reflexivity.
Qed.

Lemma lms_positions_from (T : array) (n : Z) :
  1 <= n -> lms_positions T n = lms_from T n 1.
Proof.
  intros Hn. replace (lms_positions T n) with (lms_from T n 0)
    by (unfold lms_from, lms_positions; rewrite Z.sub_0_r; reflexivity).
  rewrite lms_from_step by lia.
  replace (is_lms T n 0) with false by (unfold is_lms; reflexivity). reflexivity.
Qed.

Section Gather.
Variables (T SA0 : array) (n : Z).

Definition gather_inv (i s c0 m : Z) (SA : array) : Prop :=
  -1 <= i <= n - 2 /\ c0 = T (i + 1) /\ Z.land s 1 = Z.b2z (ltype T n (i + 1)) /\
  m = n - 1 - Z.of_nat (length (lms_from T n (i + 2))) /\
  (forall j, 0 <= j < Z.of_nat (length (lms_from T n (i + 2))) ->
     SA (m + 1 + j) = nth (Z.to_nat j) (lms_from T n (i + 2)) 0) /\
  (forall x, x < m \/ n <= x -> SA x = SA0 x).

Lemma gather_loop_lms (fuel : nat) (i s c0 m : Z) (SA : array) :
  i + 1 <= Z.of_nat fuel -> gather_inv i s c0 m SA ->
  let '(i', s', c0', m', SA') := gather_loop T fuel i s c0 m SA in
  gather_inv i' s' c0' m' SA' /\ i' = -1.
Proof.
  revert i s c0 m SA. induction fuel as [| fuel IH]; intros i s c0 m SA Hf Hinv; cbn [gather_loop].
  - split; [exact Hinv |]. destruct Hinv. lia.
  - destruct (Z.leb_spec 0 i) as [Hi0 | Hi0]; [| split; [exact Hinv |]; destruct Hinv; lia].
    destruct Hinv as (Hi & Hc & Hs & Hm & Hsa & Hold).
    apply IH; [lia |].
    destruct (lms_type_step_bits s c0 (T i)) as [B1 B3].
    assert (Hlt : Z.land (lms_type_step s c0 (T i)) 1 = Z.b2z (ltype T n i)).
    { rewrite B1, Hs, Hc, (ltype_step T n i) by lia. reflexivity. }
    assert (Hlms : (Z.land (lms_type_step s c0 (T i)) 3 =? 1) = is_lms T n (i + 1)).
    { rewrite B3, <- B1, Hlt, Hs. unfold is_lms. replace (i + 1 - 1) with i by lia.
      replace ((0 <? i + 1) && (i + 1 <? n)) with true by lia. cbn [andb].
      destruct (ltype T n i), (ltype T n (i + 1)); reflexivity. }
    pose proof (lms_from_step T n (i + 1) ltac:(lia)) as Hstep.
    unfold gather_inv. replace (i - 1 + 2) with (i + 1) by lia. replace (i - 1 + 1) with i by lia.
    rewrite Hlms.
    split; [lia |]. split; [reflexivity |]. split; [exact Hlt |].
    replace (i + 1 + 1) with (i + 2) in Hstep by lia.
    destruct (is_lms T n (i + 1)) eqn:El; cbn [app Z.b2z] in Hstep |- *; rewrite Hstep.
    + cbn [length]. rewrite Nat2Z.inj_succ.
      split; [lia |]. split.
      * intros j Hj. destruct (Z.eq_dec j 0) as [-> | Hj0].
        -- replace (m - 1 + 1 + 0) with m by lia. rewrite upd_eq. reflexivity.
        -- rewrite upd_ne by lia. replace (m - 1 + 1 + j) with (m + 1 + (j - 1)) by lia.
           rewrite Hsa by lia. replace (Z.to_nat j) with (S (Z.to_nat (j - 1))) by lia. reflexivity.
      * intros x Hx. rewrite upd_ne by lia. apply Hold. lia.
    + split; [lia |]. split.
      * intros j Hj. rewrite upd_ne by lia. rewrite Z.sub_0_r. apply Hsa. exact Hj.
      * intros x Hx. rewrite Z.sub_0_r in Hx. destruct (Z.eq_dec x m) as [-> | Hne].
        -- lia.
        -- rewrite upd_ne by auto. apply Hold. lia.
Qed.

End Gather.

Lemma gather_init (T SA : array) (n : Z) :
  1 <= n -> gather_inv T SA n (n - 2) 1 (T (n - 1)) (n - 1) SA.
Proof.
  intros Hn. unfold gather_inv.
  replace (n - 2 + 2) with n by lia. replace (n - 2 + 1) with (n - 1) by lia.
  assert (E : lms_from T n n = nil) by (unfold lms_from; rewrite Z.sub_diag; reflexivity).
  rewrite E. cbn [length Z.of_nat].
  split; [lia |]. split; [reflexivity |]. split.
  - unfold ltype. replace (n - 1 - (n - 1)) with 0 by lia. reflexivity.
  - split; [lia |]. split; [intros; lia | auto].
Qed.

(** X11: for [n >= 1], [gather_lms_suffixes_32s] returns the number of
    LMS positions and stores them in increasing order at the end
    [SA[n - cnt .. n)]; only [SA[n - 1 - cnt]] and that range may change. *)
Theorem gather_lms_suffixes_32s_spec (T SA : array) (n : Z) :
  1 <= n ->
  let cnt := Z.of_nat (length (lms_positions T n)) in
  exists SA',
    gather_lms_suffixes_32s T SA n = Some (cnt, SA') /\
    (forall j, 0 <= j < cnt -> SA' (n - cnt + j) = nth (Z.to_nat j) (lms_positions T n) 0) /\
    (forall x, x < n - 1 - cnt \/ n <= x -> SA' x = SA x).
Proof.
  intros Hn cnt. unfold gather_lms_suffixes_32s. replace (n <=? 0) with false by lia.
  pose proof (gather_loop_lms T SA n (Z.to_nat n) (n - 2) 1 (T (n - 1)) (n - 1) SA ltac:(lia)
                (gather_init T SA n Hn)) as H.
  destruct (gather_loop _ _ _ _ _ _ _) as [[[[i s] c0] m] SA'].
  destruct H as [(Hi & _ & _ & Hm & Hsa & Hold) ->].
  replace (-1 + 2) with 1 in Hm, Hsa by lia. rewrite <- lms_positions_from in Hm, Hsa by lia.
  fold cnt in Hm, Hsa. exists SA'.
  split; [f_equal; f_equal; lia |]. split.
  - intros j Hj. rewrite <- Hsa by lia. f_equal. lia.
  - intros x Hx. apply Hold. lia.
Qed.

(** X12: for [n >= 1] and non-negative symbols,
    [count_and_gather_lms_suffixes_32s_4k] returns the number of LMS
    positions, stores them in increasing order in [SA[n - cnt .. n)], puts
    0 at [SA[n - 1 - cnt]] and changes no other slot. *)
Theorem count_and_gather_lms_suffixes_32s_4k_spec (T SA : array) (n : Z) :
  1 <= n -> (forall x, 0 <= x < n -> 0 <= T x) ->
  let cnt := Z.of_nat (length (lms_positions T n)) in
  let '(m, SA') := count_and_gather_lms_suffixes_32s_4k T SA n in
  m = cnt /\
  (forall j, 0 <= j < cnt -> SA' (n - cnt + j) = nth (Z.to_nat j) (lms_positions T n) 0) /\
  SA' (n - 1 - cnt) = 0 /\
  (forall x, x < n - 1 - cnt \/ n <= x -> SA' x = SA x).
Proof.
  intros Hn HT cnt. unfold count_and_gather_lms_suffixes_32s_4k.
  replace (0 <? n) with true by lia.
  replace (-1 <=? T (n - 1)) with true by (pose proof (HT (n - 1) ltac:(lia)); lia).
  cbn [Z.b2z]. replace (n - 1 - 1) with (n - 2) by lia.
  pose proof (gather_loop_lms T SA n (Z.to_nat n) (n - 2) 1 (T (n - 1)) (n - 1) SA ltac:(lia)
                (gather_init T SA n Hn)) as H.
  destruct (gather_loop _ _ _ _ _ _ _) as [[[[i s] c0] m] SA'].
  destruct H as [(Hi & Hc & _ & Hm & Hsa & Hold) ->].
  replace (-1 + 2) with 1 in Hm, Hsa by lia. rewrite <- lms_positions_from in Hm, Hsa by lia.
  replace (-1 + 1) with 0 in Hc by lia. fold cnt in Hm, Hsa.
  change (0 <=? -1) with false. cbv iota.
  destruct (lms_type_step_bits s c0 (-1)) as [_ B3].
  assert (Hs1 := Z.mod_pos_bound s 2 ltac:(lia)). rewrite <- land1_mod in Hs1.
  pose proof (HT 0 ltac:(lia)).
  replace (Z.land (lms_type_step s c0 (-1)) 3 =? 1) with false
    by (rewrite B3; destruct (Z.ltb_spec (c0 - Z.land s 1) (-1)); cbn [Z.b2z]; lia).
  cbn [Z.b2z]. rewrite Z.sub_0_r.
  split; [lia |]. split; [| split].
  - intros j Hj. rewrite upd_ne by lia. rewrite <- Hsa by lia. f_equal. lia.
  - replace (n - 1 - cnt) with m by lia. apply upd_eq.
  - intros x Hx. rewrite upd_ne by lia. apply Hold. lia.
Qed.

Lemma incr_spec (b : array) (t c : Z) : incr b t c = b c + (if t =? c then 1 else 0).
Proof.
  unfold incr, upd. destruct (Z.eq_dec c t) as [-> | Hne]; rewrite ?Z.eqb_refl; [reflexivity |].
  replace (t =? c) with false by lia. lia.
Qed.

Lemma count_where_succ (p : Z -> bool) (T : array) (i : Z) :
  0 <= i -> count_where p T (Z.to_nat (i + 1)) = count_where p T (Z.to_nat i) + (if p (T i) then 1 else 0).
Proof.
  intros Hi. replace (Z.to_nat (i + 1)) with (S (Z.to_nat i)) by lia. cbn [count_where].
  rewrite Z2Nat.id by lia. reflexivity.
Qed.

Section CountSuffixes.
Variables (T : array) (n : Z) (base : array).
Hypothesis Hn : 0 <= n.

Definition count_inv (i : Z) (b : array) : Prop :=
  0 <= i <= n /\ forall c, b c = base c + count_where (fun t => t =? c) T (Z.to_nat i).

Lemma count_inv_step (i j : Z) (b : array) :
  count_inv i b -> i < n -> j = i + 1 -> count_inv j (incr b (T i)).
Proof.
  intros [Hi Hb] Hlt ->. split; [lia |]. intros c. rewrite incr_spec, Hb, count_where_succ by lia. lia.
Qed.

Lemma count8_loop_inv (fuel : nat) (i : Z) (b : array) :
  count_inv i b ->
  let '(i', b') := count8_loop T fuel i (n - 7) b in count_inv i' b'.
Proof.
  revert i b. induction fuel as [| f IH]; intros i b Hinv; cbn [count8_loop]; [exact Hinv |].
  destruct (Z.ltb_spec i (n - 7)); [| exact Hinv].
  apply IH. pose proof (proj1 Hinv).
  repeat match goal with |- count_inv _ (incr _ (T ?x)) => apply (count_inv_step x); [| lia | lia] end.
  replace (i + 0) with i by lia. exact Hinv.
Qed.

Lemma count1_loop_inv (fuel : nat) (i : Z) (b : array) :
  count_inv i b -> n - i <= Z.of_nat fuel ->
  count_inv n (count1_loop T fuel i (n - 7 + 7) b).
Proof.
  revert i b. induction fuel as [| f IH]; intros i b Hinv Hf; cbn [count1_loop].
  - destruct Hinv as [Hi Hb]. replace n with i by lia. split; auto.
  - replace (n - 7 + 7) with n by lia. destruct (Z.ltb_spec i n).
    + replace n with (n - 7 + 7) at 2 by lia. apply IH; [apply (count_inv_step i); auto | lia].
    + destruct Hinv as [Hi Hb]. replace n with i by lia. split; auto.
Qed.

End CountSuffixes.

Lemma count_suffixes_32s_counts (T : array) (n k : Z) (buckets : array) :
  0 <= n -> (forall x, 0 <= x < n -> 0 <= T x < k) ->
  forall c, count_suffixes_32s T n k buckets c =
    if (0 <=? c) && (c <? k) then count_where (fun t => t =? c) T (Z.to_nat n) else buckets c.
Proof.
  intros Hn HT c. unfold count_suffixes_32s.
  pose proof (count8_loop_inv T n (memset0 buckets k) (Z.to_nat n) 0 (memset0 buckets k)
                ltac:(split; [lia | intros; simpl; lia])) as H8.
  destruct (count8_loop _ _ _ _ _) as [i b1].
  destruct (count1_loop_inv T n (memset0 buckets k) (Z.to_nat n) i b1 H8
              ltac:(destruct H8; lia)) as [_ Hb].
  rewrite Hb. unfold memset0.
  destruct ((0 <=? c) && (c <? k)) eqn:Ec; [lia |].
  assert (Hz : forall m, (m <= Z.to_nat n)%nat -> count_where (fun t => t =? c) T m = 0).
  { induction m as [| m IH]; intros Hm; [reflexivity |]. cbn [count_where]. rewrite IH by lia.
    pose proof (HT (Z.of_nat m) ltac:(lia)). destruct (Z.eqb_spec (T (Z.of_nat m)) c); lia. }
  rewrite Hz; lia.
Qed.

Lemma start_1k_loop_spec (k : Z) (b0 : array) (fuel : nat) :
  forall i b, 0 <= i <= k -> k - i <= Z.of_nat fuel ->
  (forall c, b c = if (0 <=? c) && (c <? i) then prefix_sum b0 (Z.to_nat c) else b0 c) ->
  forall c, start_1k_loop fuel i k (prefix_sum b0 (Z.to_nat i)) b c =
    if (0 <=? c) && (c <? k) then prefix_sum b0 (Z.to_nat c) else b0 c.
Proof.
  induction fuel as [| f IH]; intros i b Hi Hf Hb c; cbn [start_1k_loop].
  - replace k with i by lia. apply Hb.
  - destruct (Z.leb_spec i (k - 1)).
    + assert (Hbi : b i = b0 i) by (rewrite Hb; replace ((0 <=? i) && (i <? i)) with false by lia; reflexivity).
      rewrite Hbi.
      replace (prefix_sum b0 (Z.to_nat i) + b0 i) with (prefix_sum b0 (Z.to_nat (i + 1)))
        by (replace (Z.to_nat (i + 1)) with (S (Z.to_nat i)) by lia; cbn [prefix_sum];
            rewrite Z2Nat.id by lia; reflexivity).
      apply IH; [lia | lia |]. intros d. unfold upd. destruct (Z.eq_dec d i) as [-> | Hne].
      * replace ((0 <=? i) && (i <? i + 1)) with true by lia. reflexivity.
      * rewrite Hb. destruct (Z.ltb_spec d i), (Z.ltb_spec d (i + 1)); try lia; reflexivity.
    + replace k with i by lia. apply Hb.
Qed.

Lemma end_1k_loop_spec (k : Z) (b0 : array) (fuel : nat) :
  forall i b, 0 <= i <= k -> k - i <= Z.of_nat fuel ->
  (forall c, b c = if (0 <=? c) && (c <? i) then prefix_sum b0 (Z.to_nat (c + 1)) else b0 c) ->
  forall c, end_1k_loop fuel i k (prefix_sum b0 (Z.to_nat i)) b c =
    if (0 <=? c) && (c <? k) then prefix_sum b0 (Z.to_nat (c + 1)) else b0 c.
Proof.
  induction fuel as [| f IH]; intros i b Hi Hf Hb c; cbn [end_1k_loop].
  - replace k with i by lia. apply Hb.
  - destruct (Z.leb_spec i (k - 1)).
    + assert (Hbi : b i = b0 i) by (rewrite Hb; replace ((0 <=? i) && (i <? i)) with false by lia; reflexivity).
      rewrite Hbi.
      replace (prefix_sum b0 (Z.to_nat i) + b0 i) with (prefix_sum b0 (Z.to_nat (i + 1)))
        by (replace (Z.to_nat (i + 1)) with (S (Z.to_nat i)) by lia; cbn [prefix_sum];
            rewrite Z2Nat.id by lia; reflexivity).
      apply IH; [lia | lia |]. intros d. unfold upd. destruct (Z.eq_dec d i) as [-> | Hne].
      * replace ((0 <=? i) && (i <? i + 1)) with true by lia. reflexivity.
      * rewrite Hb. destruct (Z.ltb_spec d i), (Z.ltb_spec d (i + 1)); try lia; reflexivity.
    + replace k with i by lia. apply Hb.
Qed.

Lemma count_where_ext (p q : Z -> bool) (T : array) (n : nat) :
  (forall x, (x < n)%nat -> p (T (Z.of_nat x)) = q (T (Z.of_nat x))) ->
  count_where p T n = count_where q T n.
Proof.
  induction n as [| n IH]; intros H; [reflexivity |]. cbn [count_where].
  rewrite IH by (intros; apply H; lia). rewrite H by lia. reflexivity.
Qed.

Lemma prefix_sum_ext (f g : Z -> Z) (e : nat) :
  (forall d, (d < e)%nat -> f (Z.of_nat d) = g (Z.of_nat d)) -> prefix_sum f e = prefix_sum g e.
Proof.
  induction e as [| e IH]; intros H; [reflexivity |]. cbn [prefix_sum].
  rewrite IH by (intros; apply H; lia). rewrite H by lia. reflexivity.
Qed.

Lemma prefix_sum_counts (T : array) (n : nat) (c : nat) :
  (forall x, (x < n)%nat -> 0 <= T (Z.of_nat x)) ->
  prefix_sum (fun d => count_where (fun t => t =? d) T n) c =
  count_where (fun t => t <? Z.of_nat c) T n.
Proof.
  revert n. induction c as [| c IH]; intros n HT; cbn [prefix_sum].
  - induction n as [| n IHn]; [reflexivity |]. cbn [count_where].
    assert (E := IHn ltac:(intros; apply HT; lia)). pose proof (HT n ltac:(lia)).
    destruct (Z.ltb_spec (T (Z.of_nat n)) (Z.of_nat 0)); lia.
  - rewrite IH by auto. clear IH. induction n as [| n IHn]; [reflexivity |]. cbn [count_where].
    rewrite <- IHn by (intros; apply HT; lia).
    destruct (Z.ltb_spec (T (Z.of_nat n)) (Z.of_nat c)), (Z.eqb_spec (T (Z.of_nat n)) (Z.of_nat c)),
      (Z.ltb_spec (T (Z.of_nat n)) (Z.of_nat (S c))); lia.
Qed.

(** X14: the bucket boundaries of the 1k path: after [count_suffixes_32s],
    [initialize_buckets_start_32s_1k] leaves in [buckets[c]] the number
    of symbols of [T[0..n)] below [c], and [initialize_buckets_end_32s_1k]
    the number of symbols at most [c]. *)
Theorem buckets_32s_1k_bounds (T : array) (n k : Z) (buckets : array) :
  0 <= n -> (forall x, 0 <= x < n -> 0 <= T x < k) ->
  let counted := count_suffixes_32s T n k buckets in
  forall c, 0 <= c < k ->
    initialize_buckets_start_32s_1k k counted c = count_where (fun t => t <? c) T (Z.to_nat n) /\
    initialize_buckets_end_32s_1k k counted c = count_where (fun t => t <=? c) T (Z.to_nat n).
Proof.
  intros Hn HT counted c Hc.
  assert (Hk : 0 <= k) by lia.
  assert (HT' : forall x, (x < Z.to_nat n)%nat -> 0 <= T (Z.of_nat x)) by (intros x Hx; apply HT; lia).
  assert (Hcnt := count_suffixes_32s_counts T n k buckets Hn HT). fold counted in Hcnt.
  assert (Hpre : forall d, 0 <= d <= k ->
            prefix_sum counted (Z.to_nat d) = count_where (fun t => t <? d) T (Z.to_nat n)).
  { intros d Hd. rewrite (prefix_sum_ext counted (fun d => count_where (fun t => t =? d) T (Z.to_nat n))).
    - rewrite prefix_sum_counts by auto. rewrite Z2Nat.id by lia. reflexivity.
    - intros e He. rewrite Hcnt. replace ((0 <=? Z.of_nat e) && (Z.of_nat e <? k)) with true by lia.
      reflexivity. }
  split.
  - unfold initialize_buckets_start_32s_1k.
    rewrite (start_1k_loop_spec k counted (Z.to_nat k) 0 counted ltac:(lia) ltac:(lia)).
    2:{ intros d. replace ((0 <=? d) && (d <? 0)) with false by lia. reflexivity. }
    replace ((0 <=? c) && (c <? k)) with true by lia. apply Hpre. lia.
  - unfold initialize_buckets_end_32s_1k.
    rewrite (end_1k_loop_spec k counted (Z.to_nat k) 0 counted ltac:(lia) ltac:(lia)).
    2:{ intros d. replace ((0 <=? d) && (d <? 0)) with false by lia. reflexivity. }
    replace ((0 <=? c) && (c <? k)) with true by lia. rewrite Hpre by lia.
    apply count_where_ext. intros x Hx. destruct (Z.ltb_spec (T (Z.of_nat x)) (c + 1)), (Z.leb_spec (T (Z.of_nat x)) c); lia.
Qed.

(** X13: [count_suffixes_32s] leaves in [buckets[c]] the number of
    occurrences of [c] in [T[0..n)] for every symbol [c < k], and every
    other slot as it was. *)
Theorem count_suffixes_32s_spec (T : array) (n k : Z) (buckets : array) :
  0 <= n -> (forall x, 0 <= x < n -> 0 <= T x < k) ->
  forall c, count_suffixes_32s T n k buckets c =
    if (0 <=? c) && (c <? k) then count_where (fun t => t =? c) T (Z.to_nat n) else buckets c.
Proof. exact (count_suffixes_32s_counts T n k buckets). Qed.


Lemma land3_range (x : Z) : 0 <= Z.land x 3 <= 3.
Proof. rewrite land3_mod. pose proof (Z.mod_pos_bound x 4 ltac:(lia)). lia. Qed.

Lemma BUCKETS_INDEX4_eq (c s : Z) : BUCKETS_INDEX4 c s = 4 * c + s.
Proof. unfold BUCKETS_INDEX4. rewrite Z.shiftl_mul_pow2 by lia. lia. Qed.

Lemma total4_incr (b : array) (d t c : Z) :
  0 <= t <= 3 -> total4 (incr b (BUCKETS_INDEX4 d t)) c = total4 b c + (if d =? c then 1 else 0).
Proof.
  intros Ht. unfold total4. rewrite !BUCKETS_INDEX4_eq, !incr_spec.
  destruct (Z.eqb_spec (4 * d + t) (4 * c + 0)), (Z.eqb_spec (4 * d + t) (4 * c + 1)),
    (Z.eqb_spec (4 * d + t) (4 * c + 2)), (Z.eqb_spec (4 * d + t) (4 * c + 3)),
    (Z.eqb_spec d c); lia.
Qed.

Lemma total4_memset0 (b : array) (c : Z) :
  0 <= c < ALPHABET_SIZE -> total4 (memset0 b (4 * ALPHABET_SIZE)) c = 0.
Proof.
  intros Hc. unfold total4, memset0. rewrite !BUCKETS_INDEX4_eq. unfold ALPHABET_SIZE in *.
  repeat match goal with |- context [(0 <=? ?x) && (?x <? ?y)] =>
    replace ((0 <=? x) && (x <? y)) with true by lia end. reflexivity.
Qed.

Lemma gather_count_loop_agrees (T : array) (fuel : nat) :
  forall i s c0 m SA b,
  let '(i1, s1, c1, m1, SA1, _) := gather_count_loop T fuel i s c0 m SA b in
  gather_loop T fuel i s c0 m SA = (i1, s1, c1, m1, SA1).
Proof.
  induction fuel as [| f IH]; intros; cbn [gather_count_loop gather_loop]; [reflexivity |].
  destruct (0 <=? i); [apply IH | reflexivity].
Qed.

Lemma gather_count_loop_totals (T : array) (fuel : nat) :
  forall i s c0 m SA b,
  -1 <= i -> i + 1 <= Z.of_nat fuel -> c0 = T (i + 1) ->
  let '(i1, _, c1, _, _, b1) := gather_count_loop T fuel i s c0 m SA b in
  i1 = -1 /\ c1 = T 0 /\
  forall c, total4 b1 c = total4 b c + count_where (fun t => t =? c) T (Z.to_nat (i + 2))
                          - count_where (fun t => t =? c) T 1.
Proof.
  induction fuel as [| f IH]; intros i s c0 m SA b Hi Hf Hc0; cbn [gather_count_loop].
  - replace i with (-1) in * by lia. split; [reflexivity |]. split; [exact Hc0 |]. intros c. replace (-1 + 2) with 1 by lia. change (Z.to_nat 1) with 1%nat. lia.
  - destruct (Z.leb_spec 0 i).
    + specialize (IH (i - 1) (lms_type_step s c0 (T i)) (T i)
        (m - Z.b2z (Z.land (lms_type_step s c0 (T i)) 3 =? 1)) (upd SA m (i + 1))
        (incr b (BUCKETS_INDEX4 c0 (Z.land (lms_type_step s c0 (T i)) 3))) ltac:(lia) ltac:(lia)
        ltac:(f_equal; lia)).
      destruct (gather_count_loop _ _ _ _ _ _ _ _) as [[[[[i1 s1] c1] m1] SA1] b1].
      destruct IH as (H1 & H2 & H3). split; [exact H1 |]. split; [exact H2 |]. intros c.
      rewrite H3, total4_incr by apply land3_range.
      replace (i - 1 + 2) with (i + 1) by lia.
      replace (Z.to_nat (i + 2)) with (Z.to_nat (i + 1 + 1)) by (f_equal; lia).
      rewrite (count_where_succ _ T (i + 1)) by lia. subst c0. cbv beta. destruct (T (i + 1) =? c); lia.
    + replace i with (-1) in * by lia. split; [reflexivity |]. split; [exact Hc0 |]. intros c. replace (-1 + 2) with 1 by lia. change (Z.to_nat 1) with 1%nat. lia.
Qed.

Lemma count_and_gather_buckets_16u_totals (T SA : array) (n : Z) (B : array) :
  let '(m, SA', b) := count_and_gather_buckets_16u T SA n B in
  count_and_gather_lms_suffixes_16u T SA n = (m, SA') /\
  forall c, 0 <= c < ALPHABET_SIZE -> total4 b c = count_where (fun t => t =? c) T (Z.to_nat n).
Proof.
  unfold count_and_gather_buckets_16u, count_and_gather_lms_suffixes_16u, count_and_gather_lms_suffixes_32s_4k.
  destruct (Z.ltb_spec 0 n).
  - pose proof (gather_count_loop_agrees T (Z.to_nat n) (n - 1 - 1) (Z.b2z (-1 <=? T (n - 1))) (T (n - 1))
      (n - 1) SA (memset0 B (4 * ALPHABET_SIZE))) as Ha.
    pose proof (gather_count_loop_totals T (Z.to_nat n) (n - 1 - 1) (Z.b2z (-1 <=? T (n - 1))) (T (n - 1))
      (n - 1) SA (memset0 B (4 * ALPHABET_SIZE)) ltac:(lia) ltac:(lia) ltac:(f_equal; lia)) as Ht.
    destruct (gather_count_loop _ _ _ _ _ _ _ _) as [[[[[i1 s1] c1] m1] SA1] b1].
    rewrite Ha. destruct Ht as (Hi & Hc & Htot). split; [reflexivity |]. intros c Hcr.
    rewrite total4_incr by apply land3_range. rewrite Htot, total4_memset0 by exact Hcr.
    replace (n - 1 - 1 + 2) with n by lia. subst i1 c1. cbn [count_where]. simpl Z.of_nat.
    destruct (T 0 =? c); lia.
  - split; [reflexivity |]. intros c Hc. rewrite total4_memset0 by exact Hc.
    replace (Z.to_nat n) with O by lia. reflexivity.
Qed.

Lemma buckets_start_end_loop_spec (B : array) (hf : bool) (fuel : nat) :
  forall j sum k b f,
  0 <= j -> j + Z.of_nat fuel = ALPHABET_SIZE ->
  (forall x, 0 <= x < 4 * ALPHABET_SIZE -> b x = B x) ->
  sum = prefix_sum (total4 B) (Z.to_nat j) ->
  let '(k', b', f') := buckets_start_end_loop fuel hf j sum k b f in
  (forall j', j <= j' < ALPHABET_SIZE ->
     b' (6 * ALPHABET_SIZE + j') = prefix_sum (total4 B) (Z.to_nat j') /\
     b' (7 * ALPHABET_SIZE + j') = prefix_sum (total4 B) (Z.to_nat (j' + 1))) /\
  (forall x, ~ (6 * ALPHABET_SIZE + j <= x < 7 * ALPHABET_SIZE) ->
     ~ (7 * ALPHABET_SIZE + j <= x < 8 * ALPHABET_SIZE) -> b' x = b x) /\
  (forall x, f' x = if hf && (j <=? x) && (x <? ALPHABET_SIZE) then total4 B x else f x) /\
  ((k' = k /\ forall j', j <= j' < ALPHABET_SIZE -> total4 B j' <= 0) \/
   (j <= k' < ALPHABET_SIZE /\ 0 < total4 B k' /\
    forall j', k' < j' < ALPHABET_SIZE -> total4 B j' <= 0)).
Proof.
  induction fuel as [| fu IH]; intros j sum k b f Hj Hf Hb Hs; cbn [buckets_start_end_loop].
  - assert (j = ALPHABET_SIZE) by lia. subst j.
    split; [intros; lia |]. split; [reflexivity |]. split.
    + intros x. destruct hf, (Z.leb_spec ALPHABET_SIZE x), (Z.ltb_spec x ALPHABET_SIZE); try lia; reflexivity.
    + left. split; [reflexivity | intros; lia].
  - set (AS := ALPHABET_SIZE) in *. assert (HAS : AS = 65536) by reflexivity.
    assert (Htot : b (BUCKETS_INDEX4 j 0 + BUCKETS_INDEX4 0 0) + b (BUCKETS_INDEX4 j 0 + BUCKETS_INDEX4 0 1)
                   + b (BUCKETS_INDEX4 j 0 + BUCKETS_INDEX4 0 2) + b (BUCKETS_INDEX4 j 0 + BUCKETS_INDEX4 0 3)
                   = total4 B j).
    { unfold total4. rewrite !BUCKETS_INDEX4_eq. rewrite !Hb by lia. f_equal; [f_equal; [f_equal|]|]; f_equal; lia. }
    rewrite Htot. set (tj := total4 B j).
    set (b2 := upd (upd b (6 * AS + j) sum) (7 * AS + j) (sum + tj)).
    set (f2 := if hf then upd f j tj else f).
    set (k2 := if 0 <? tj then j else k).
    pose proof (IH (j + 1) (sum + tj) k2 b2 f2 ltac:(lia) ltac:(lia)) as IH'.
    assert (Hb2 : forall x, x <> 6 * AS + j -> x <> 7 * AS + j -> b2 x = b x).
    { intros x H1 H2. unfold b2. rewrite !upd_ne by assumption. reflexivity. }
    specialize (IH' ltac:(intros x Hx; rewrite Hb2 by lia; apply Hb; lia)).
    specialize (IH' ltac:(rewrite Hs; replace (Z.to_nat (j + 1)) with (S (Z.to_nat j)) by lia;
                           cbn [prefix_sum]; rewrite Z2Nat.id by lia; reflexivity)).
    revert IH'. destruct (buckets_start_end_loop fu hf (j + 1) (sum + tj) k2 b2 f2) as [[k' b'] f'].
    intros (I1 & I2 & I3 & I4). split; [| split; [| split]].
    + intros j' Hj'. destruct (Z.eq_dec j' j) as [-> | Hne]; [| apply I1; lia].
      rewrite !I2 by lia. unfold b2. rewrite upd_eq, upd_ne, upd_eq by lia. split; [exact Hs |].
      rewrite Hs. replace (Z.to_nat (j + 1)) with (S (Z.to_nat j)) by lia.
      cbn [prefix_sum]. rewrite Z2Nat.id by lia. reflexivity.
    + intros x H1 H2. rewrite I2 by lia. apply Hb2; lia.
    + intros x. rewrite I3. unfold f2. destruct hf; [| reflexivity]. cbn [andb].
      unfold upd. destruct (Z.eq_dec x j) as [-> | Hne].
      * replace (j + 1 <=? j) with false by lia. replace (j <=? j) with true by lia.
        replace (j <? AS) with true by lia. reflexivity.
      * destruct (Z.leb_spec (j + 1) x), (Z.leb_spec j x); try lia; reflexivity.
    + destruct I4 as [(-> & I4) | (I4a & I4b & I4c)].
      * unfold k2. destruct (Z.ltb_spec 0 tj).
        -- right. split; [lia |]. split; [exact H |]. intros j' Hj'. apply I4. lia.
        -- left. split; [reflexivity |]. intros j' Hj'.
           destruct (Z.eq_dec j' j) as [-> | Hne]; [exact H | apply I4; lia].
      * right. split; [lia |]. split; assumption.
Qed.

Lemma initialize_buckets_16u_result (freq_null : bool) (B F : array) :
  let '(r, b, f) := initialize_buckets_start_and_end_16u freq_null B F in
  (forall j, 0 <= j < ALPHABET_SIZE ->
     b (6 * ALPHABET_SIZE + j) = prefix_sum (total4 B) (Z.to_nat j) /\
     b (7 * ALPHABET_SIZE + j) = prefix_sum (total4 B) (Z.to_nat (j + 1))) /\
  (forall x, ~ (6 * ALPHABET_SIZE <= x < 8 * ALPHABET_SIZE) -> b x = B x) /\
  (forall j, f j = if negb freq_null && (0 <=? j) && (j <? ALPHABET_SIZE) then total4 B j else F j) /\
  0 <= r <= ALPHABET_SIZE /\
  (forall j, r <= j < ALPHABET_SIZE -> total4 B j <= 0) /\
  (0 < r -> 0 < total4 B (r - 1)).
Proof.
  unfold initialize_buckets_start_and_end_16u.
  pose proof (buckets_start_end_loop_spec B (negb freq_null) (Z.to_nat ALPHABET_SIZE) 0 0 (-1) B F
    ltac:(lia) ltac:(unfold ALPHABET_SIZE; lia) ltac:(reflexivity) ltac:(reflexivity)) as H.
  revert H. destruct (buckets_start_end_loop _ _ _ _ _ _ _) as [[k b] f].
  intros (H1 & H2 & H3 & H4). split; [| split; [| split]].
  - intros j Hj. apply H1. lia.
  - intros x Hx. apply H2; lia.
  - exact H3.
  - destruct H4 as [(-> & H4) | (H4a & H4b & H4c)].
    + split; [unfold ALPHABET_SIZE; lia |]. split; [intros j Hj; apply H4; lia | lia].
    + split; [lia |]. split; [intros j Hj; apply H4c; lia |]. intros _. replace (k + 1 - 1) with k by lia. exact H4b.
Qed.


Lemma count_where_nonneg (p : Z -> bool) (T : array) (n : nat) : 0 <= count_where p T n.
Proof. induction n as [| n IH]; cbn [count_where]; [lia |]. destruct (p _); lia. Qed.

Lemma count_where_hit (p : Z -> bool) (T : array) (n x : nat) :
  (x < n)%nat -> p (T (Z.of_nat x)) = true -> 1 <= count_where p T n.
Proof.
  induction n as [| n IH]; intros Hx Hp; [lia |]. cbn [count_where].
  pose proof (count_where_nonneg p T n).
  destruct (Nat.eq_dec x n) as [-> | Hne]; [rewrite Hp; lia |].
  specialize (IH ltac:(lia) Hp). destruct (p (T (Z.of_nat n))); lia.
Qed.

Lemma count_where_exists (p : Z -> bool) (T : array) (n : nat) :
  0 < count_where p T n -> exists x, (x < n)%nat /\ p (T (Z.of_nat x)) = true.
Proof.
  induction n as [| n IH]; cbn [count_where]; [lia |]. intros H.
  destruct (p (T (Z.of_nat n))) eqn:E; [exists n; split; [lia | exact E] |].
  destruct IH as (x & Hx & Hp); [lia |]. exists x. split; [lia | exact Hp].
Qed.

(** X16: the bucket set-up of [main_16u] on a 16-bit text: after the
    counting and [initialize_buckets_start_and_end_16u], bucket [c] starts
    at the number of symbols below [c] and ends at the number of symbols
    at most [c], [freq[c]] is the number of occurrences of [c], the LMS
    gathering is unchanged, and [k] is one more than the largest symbol. *)
Theorem main_16u_bucket_setup (T SA : array) (n : Z) (freq_null : bool) (B F : array) :
  (forall x, 0 <= x < n -> 0 <= T x < ALPHABET_SIZE) ->
  let '(m, SA1, b1) := count_and_gather_buckets_16u T SA n B in
  let '(r, b, f) := initialize_buckets_start_and_end_16u freq_null b1 F in
  count_and_gather_lms_suffixes_16u T SA n = (m, SA1) /\
  (forall c, 0 <= c < ALPHABET_SIZE ->
     b (6 * ALPHABET_SIZE + c) = count_where (fun t => t <? c) T (Z.to_nat n) /\
     b (7 * ALPHABET_SIZE + c) = count_where (fun t => t <=? c) T (Z.to_nat n) /\
     (freq_null = false -> f c = count_where (fun t => t =? c) T (Z.to_nat n))) /\
  0 <= r /\ (forall x, 0 <= x < n -> T x < r) /\
  (0 < r -> exists x, 0 <= x < n /\ T x = r - 1).
Proof.
  intros HT.
  pose proof (count_and_gather_buckets_16u_totals T SA n B) as Hc.
  destruct (count_and_gather_buckets_16u T SA n B) as [[m SA1] b1].
  destruct Hc as (Hagree & Htot).
  pose proof (initialize_buckets_16u_result freq_null b1 F) as Hi.
  destruct (initialize_buckets_start_and_end_16u freq_null b1 F) as [[r b] f].
  destruct Hi as (H1 & _ & H3 & H4 & H5 & H6).
  set (N := Z.to_nat n).
  assert (HT' : forall x, (x < N)%nat -> 0 <= T (Z.of_nat x)) by (intros x Hx; apply HT; lia).
  assert (Hpre : forall d, 0 <= d <= ALPHABET_SIZE ->
            prefix_sum (total4 b1) (Z.to_nat d) = count_where (fun t => t <? d) T N).
  { intros d Hd. rewrite (prefix_sum_ext _ (fun d => count_where (fun t => t =? d) T N)).
    - rewrite prefix_sum_counts by exact HT'. rewrite Z2Nat.id by lia. reflexivity.
    - intros e He. apply Htot. lia. }
  split; [exact Hagree |]. split; [| split; [lia | split]].
  - intros c Hcr. destruct (H1 c Hcr) as [E1 E2]. rewrite E1, E2, !Hpre by lia.
    split; [reflexivity |]. split.
    + apply count_where_ext. intros x _. destruct (Z.ltb_spec (T (Z.of_nat x)) (c + 1)), (Z.leb_spec (T (Z.of_nat x)) c); lia.
    + intros ->. rewrite H3. cbn [negb andb]. replace ((0 <=? c) && (c <? ALPHABET_SIZE)) with true by lia.
      apply Htot. exact Hcr.
  - intros x Hx. destruct (Z.ltb_spec (T x) r) as [| Hge]; [assumption | exfalso].
    pose proof (HT x Hx). specialize (H5 (T x) ltac:(lia)). rewrite Htot in H5 by lia.
    pose proof (count_where_hit (fun t => t =? T x) T N (Z.to_nat x) ltac:(lia)) as Hh.
    rewrite Z2Nat.id in Hh by lia. rewrite Z.eqb_refl in Hh. specialize (Hh eq_refl). unfold N in *. lia.
  - intros Hr. specialize (H6 Hr). rewrite Htot in H6 by lia.
    destruct (count_where_exists _ T N H6) as (x & Hx & Hp). apply Z.eqb_eq in Hp.
    exists (Z.of_nat x). split; [lia | exact Hp].
Qed.

Lemma count_pos_succ (q : Z -> bool) (i : Z) :
  0 <= i -> count_pos q (Z.to_nat (i + 1)) = count_pos q (Z.to_nat i) + (if q i then 1 else 0).
Proof.
  intros Hi. replace (Z.to_nat (i + 1)) with (S (Z.to_nat i)) by lia. cbn [count_pos].
  rewrite Z2Nat.id by lia. reflexivity.
Qed.

Lemma count_pos_ext (q r : Z -> bool) (n : nat) :
  (forall p, 0 <= p < Z.of_nat n -> q p = r p) -> count_pos q n = count_pos r n.
Proof.
  induction n as [| n IH]; intros H; [reflexivity |]. cbn [count_pos].
  rewrite IH by (intros; apply H; lia). rewrite H by lia. reflexivity.
Qed.

Lemma gather_count_loop_slots (T : array) (n : Z) (fuel : nat) :
  forall i s c0 m SA b,
  -1 <= i <= n - 2 -> i + 1 <= Z.of_nat fuel -> c0 = T (i + 1) ->
  Z.land s 1 = Z.b2z (ltype T n (i + 1)) ->
  let slot p := BUCKETS_INDEX4 (T p) (suffix_pair_type T n p) in
  let '(i1, s1, c1, _, _, b1) := gather_count_loop T fuel i s c0 m SA b in
  i1 = -1 /\ c1 = T 0 /\ Z.land s1 1 = Z.b2z (ltype T n 0) /\
  forall x, b1 x = b x + count_pos (fun p => slot p =? x) (Z.to_nat (i + 2))
                   - count_pos (fun p => slot p =? x) 1.
Proof.
  intros i s c0 m SA b Hi Hf Hc0 Hs slot. revert i s c0 m SA b Hi Hf Hc0 Hs.
  induction fuel as [| f IH]; intros i s c0 m SA b Hi Hf Hc0 Hs; cbn [gather_count_loop].
  - replace i with (-1) in * by lia. split; [reflexivity |]. split; [exact Hc0 |].
    split; [exact Hs |]. intros x. replace (-1 + 2) with 1 by lia. change (Z.to_nat 1) with 1%nat. lia.
  - destruct (Z.leb_spec 0 i).
    + destruct (lms_type_step_bits s c0 (T i)) as [B1 B3].
      assert (Hlt : Z.land (lms_type_step s c0 (T i)) 1 = Z.b2z (ltype T n i)).
      { rewrite B1, Hs, Hc0, (ltype_step T n i) by lia. reflexivity. }
      assert (Hpair : Z.land (lms_type_step s c0 (T i)) 3 = suffix_pair_type T n (i + 1)).
      { rewrite B3, <- B1, Hlt, Hs. unfold suffix_pair_type.
        replace (0 <? i + 1) with true by lia. replace (i + 1 - 1) with i by lia. reflexivity. }
      specialize (IH (i - 1) (lms_type_step s c0 (T i)) (T i)
        (m - Z.b2z (Z.land (lms_type_step s c0 (T i)) 3 =? 1)) (upd SA m (i + 1))
        (incr b (BUCKETS_INDEX4 c0 (Z.land (lms_type_step s c0 (T i)) 3))) ltac:(lia) ltac:(lia)
        ltac:(f_equal; lia) ltac:(replace (i - 1 + 1) with i by lia; exact Hlt)).
      destruct (gather_count_loop _ _ _ _ _ _ _ _) as [[[[[i1 s1] c1] m1] SA1] b1].
      destruct IH as (H1 & H2 & H3 & H4). split; [exact H1 |]. split; [exact H2 |]. split; [exact H3 |].
      intros x. rewrite H4, incr_spec, Hpair, Hc0.
      replace (i - 1 + 2) with (i + 1) by lia.
      replace (Z.to_nat (i + 2)) with (Z.to_nat (i + 1 + 1)) by (f_equal; lia).
      rewrite (count_pos_succ _ (i + 1)) by lia. fold (slot (i + 1)).
      destruct (slot (i + 1) =? x); lia.
    + replace i with (-1) in * by lia. split; [reflexivity |]. split; [exact Hc0 |].
      split; [exact Hs |]. intros x. replace (-1 + 2) with 1 by lia. change (Z.to_nat 1) with 1%nat. lia.
Qed.

Lemma count_and_gather_buckets_16u_slot_counts (T SA : array) (n : Z) (B : array) :
  (forall x, 0 <= x < n -> 0 <= T x) ->
  let slot p := BUCKETS_INDEX4 (T p) (suffix_pair_type T n p) in
  let '(_, _, b) := count_and_gather_buckets_16u T SA n B in
  forall x, 0 <= x < 4 * ALPHABET_SIZE -> b x = count_pos (fun p => slot p =? x) (Z.to_nat n).
Proof.
  intros HT slot. unfold count_and_gather_buckets_16u.
  destruct (Z.ltb_spec 0 n).
  - assert (Hs0 : Z.land (Z.b2z (-1 <=? T (n - 1))) 1 = Z.b2z (ltype T n (n - 1 - 1 + 1))).
    { replace (-1 <=? T (n - 1)) with true by (pose proof (HT (n - 1) ltac:(lia)); lia).
      unfold ltype. replace (n - 1 - (n - 1 - 1 + 1)) with 0 by lia. reflexivity. }
    pose proof (gather_count_loop_slots T n (Z.to_nat n) (n - 1 - 1) (Z.b2z (-1 <=? T (n - 1))) (T (n - 1))
      (n - 1) SA (memset0 B (4 * ALPHABET_SIZE)) ltac:(lia) ltac:(lia) ltac:(f_equal; lia) Hs0) as Ht.
    cbv zeta in Ht. fold slot in Ht.
    destruct (gather_count_loop _ _ _ _ _ _ _ _) as [[[[[i1 s1] c1] m1] SA1] b1].
    destruct Ht as (Hi & Hc & Hs & Htot). subst i1 c1. intros x Hx.
    destruct (lms_type_step_bits s1 (T 0) (-1)) as [_ B3].
    change (if 0 <=? -1 then T (-1) else -1) with (-1).
    assert (Hpair : Z.land (lms_type_step s1 (T 0) (-1)) 3 = suffix_pair_type T n 0).
    { rewrite B3, Hs. unfold suffix_pair_type. change (0 <? 0) with false.
      pose proof (HT 0 ltac:(lia)).
      destruct (ltype T n 0); cbn [Z.b2z];
        match goal with |- context [?a <? ?b] => destruct (Z.ltb_spec a b) end; cbn [Z.b2z]; lia. }
    rewrite incr_spec, Hpair, Htot. unfold memset0.
    replace ((0 <=? x) && (x <? 4 * ALPHABET_SIZE)) with true by lia.
    replace (n - 1 - 1 + 2) with n by lia. cbn [count_pos]. change (Z.of_nat 0) with 0. fold (slot 0).
    destruct (slot 0 =? x); lia.
  - intros x Hx. unfold memset0. replace ((0 <=? x) && (x <? 4 * ALPHABET_SIZE)) with true by lia.
    replace (Z.to_nat n) with O by lia. reflexivity.
Qed.

(** X17: the counters of [count_and_gather_lms_suffixes_16u]: on
    non-negative symbols, [buckets[BUCKETS_INDEX4(c, t)]] is the number of
    positions with symbol [c] whose type pair (own L bit, left
    neighbour's L bit) is [t]; in particular [buckets[BUCKETS_INDEX4(c, 1)]]
    counts the LMS positions with symbol [c]. *)
Theorem count_and_gather_buckets_16u_types (T SA : array) (n : Z) (B : array) :
  (forall x, 0 <= x < n -> 0 <= T x) ->
  let '(_, _, b) := count_and_gather_buckets_16u T SA n B in
  (forall c t, 0 <= c < ALPHABET_SIZE -> 0 <= t <= 3 ->
     b (BUCKETS_INDEX4 c t) =
     count_pos (fun p => (T p =? c) && (suffix_pair_type T n p =? t)) (Z.to_nat n)) /\
  (forall c, 0 <= c < ALPHABET_SIZE ->
     b (BUCKETS_INDEX4 c 1) = count_pos (fun p => (T p =? c) && is_lms T n p) (Z.to_nat n)).
Proof.
  intros HT. pose proof (count_and_gather_buckets_16u_slot_counts T SA n B HT) as H.
  cbv zeta in H. destruct (count_and_gather_buckets_16u T SA n B) as [[m SA'] b].
  assert (Hrange : forall p, 0 <= suffix_pair_type T n p <= 3).
  { intros p. unfold suffix_pair_type. destruct (ltype T n p), (0 <? p); [destruct (ltype T n (p - 1)) | | destruct (ltype T n (p - 1)) |]; cbn; lia. }
  assert (Hslots : forall c t, 0 <= c < ALPHABET_SIZE -> 0 <= t <= 3 ->
     b (BUCKETS_INDEX4 c t) =
     count_pos (fun p => (T p =? c) && (suffix_pair_type T n p =? t)) (Z.to_nat n)).
  { intros c t Hc Ht. rewrite H by (rewrite BUCKETS_INDEX4_eq; unfold ALPHABET_SIZE in *; lia).
    apply count_pos_ext. intros p Hp. rewrite !BUCKETS_INDEX4_eq. pose proof (Hrange p).
    destruct (Z.eqb_spec (4 * T p + suffix_pair_type T n p) (4 * c + t)),
      (Z.eqb_spec (T p) c), (Z.eqb_spec (suffix_pair_type T n p) t); cbn [andb]; try reflexivity; lia. }
  split; [exact Hslots |]. intros c Hc. rewrite Hslots by lia.
  apply count_pos_ext. intros p Hp. f_equal. unfold suffix_pair_type, is_lms.
  replace (p <? n) with true by lia.
  destruct (Z.ltb_spec 0 p), (ltype T n p), (ltype T n (p - 1)); reflexivity.
Qed.

(** *** Instances of the further properties *)




Lemma gather_lms_suffixes_32s_spec_witness :
  let cnt := Z.of_nat (length (lms_positions c9_T 4)) in
  exists SA',
    gather_lms_suffixes_32s c9_T c9_SA 4 = Some (cnt, SA') /\
    (forall j, 0 <= j < cnt -> SA' (4 - cnt + j) = nth (Z.to_nat j) (lms_positions c9_T 4) 0) /\
    (forall x, x < 4 - 1 - cnt \/ 4 <= x -> SA' x = c9_SA x).
Proof. exact (gather_lms_suffixes_32s_spec c9_T c9_SA 4 ltac:(lia)). Defined.

Lemma count_and_gather_lms_suffixes_32s_4k_spec_witness :
  let cnt := Z.of_nat (length (lms_positions c9_T 4)) in
  let '(m, SA') := count_and_gather_lms_suffixes_32s_4k c9_T c9_SA 4 in
  m = cnt /\
  (forall j, 0 <= j < cnt -> SA' (4 - cnt + j) = nth (Z.to_nat j) (lms_positions c9_T 4) 0) /\
  SA' (4 - 1 - cnt) = 0 /\
  (forall x, x < 4 - 1 - cnt \/ 4 <= x -> SA' x = c9_SA x).
Proof.
  exact (count_and_gather_lms_suffixes_32s_4k_spec c9_T c9_SA 4 ltac:(lia)
           ltac:(intros x _; unfold c9_T; destruct (Z.even x); lia)).
Defined.

Lemma count_suffixes_32s_spec_witness :
  count_suffixes_32s c9_T 4 2 (fun _ => 0) 1 =
    if (0 <=? 1) && (1 <? 2) then count_where (fun t => t =? 1) c9_T (Z.to_nat 4) else 0.
Proof.
  exact (count_suffixes_32s_spec c9_T 4 2 (fun _ => 0) ltac:(lia)
           ltac:(intros x _; unfold c9_T; destruct (Z.even x); lia) 1).
Defined.

Lemma buckets_32s_1k_bounds_witness :
  let counted := count_suffixes_32s c9_T 4 2 (fun _ => 0) in
  initialize_buckets_start_32s_1k 2 counted 1 = count_where (fun t => t <? 1) c9_T (Z.to_nat 4) /\
  initialize_buckets_end_32s_1k 2 counted 1 = count_where (fun t => t <=? 1) c9_T (Z.to_nat 4).
Proof.
  exact (buckets_32s_1k_bounds c9_T 4 2 (fun _ => 0) ltac:(lia)
           ltac:(intros x _; unfold c9_T; destruct (Z.even x); lia) 1 ltac:(lia)).
Defined.

Lemma main_16u_bucket_setup_witness :
  let '(m, SA1, b1) := count_and_gather_buckets_16u c9_T c9_SA 4 (fun _ => 0) in
  let '(r, b, f) := initialize_buckets_start_and_end_16u false b1 (fun _ => 0) in
  count_and_gather_lms_suffixes_16u c9_T c9_SA 4 = (m, SA1) /\
  (forall c, 0 <= c < ALPHABET_SIZE ->
     b (6 * ALPHABET_SIZE + c) = count_where (fun t => t <? c) c9_T (Z.to_nat 4) /\
     b (7 * ALPHABET_SIZE + c) = count_where (fun t => t <=? c) c9_T (Z.to_nat 4) /\
     (false = false -> f c = count_where (fun t => t =? c) c9_T (Z.to_nat 4))) /\
  0 <= r /\ (forall x, 0 <= x < 4 -> c9_T x < r) /\
  (0 < r -> exists x, 0 <= x < 4 /\ c9_T x = r - 1).
Proof.
  exact (main_16u_bucket_setup c9_T c9_SA 4 false (fun _ => 0) (fun _ => 0)
           ltac:(intros x _; unfold c9_T, ALPHABET_SIZE; destruct (Z.even x); lia)).
Defined.

Lemma count_and_gather_buckets_16u_types_witness :
  let '(_, _, b) := count_and_gather_buckets_16u c9_T c9_SA 4 (fun _ => 0) in
  (forall c t, 0 <= c < ALPHABET_SIZE -> 0 <= t <= 3 ->
     b (BUCKETS_INDEX4 c t) =
     count_pos (fun p => (c9_T p =? c) && (suffix_pair_type c9_T 4 p =? t)) (Z.to_nat 4)) /\
  (forall c, 0 <= c < ALPHABET_SIZE ->
     b (BUCKETS_INDEX4 c 1) = count_pos (fun p => (c9_T p =? c) && is_lms c9_T 4 p) (Z.to_nat 4)).
Proof.
  exact (count_and_gather_buckets_16u_types c9_T c9_SA 4 (fun _ => 0)
           ltac:(intros x _; unfold c9_T; destruct (Z.even x); lia)).
Defined.


Lemma write_sa_header_log2_rounds_up_witness :
  0 < 1 /\ 49 <= 49 <= 53 /\ (2 ^ 49 - 1) * 1 = 2 ^ 49 - 1 /\
  option_map (hd 0) (write_sa_header 1 (2 ^ 49 - 1) 1) = Some (Z.log2 ((2 ^ 49 - 1) * 1) + 2).
Proof.
  split; [lia |]. split; [lia |]. split; [reflexivity |].
  apply (write_sa_header_log2_rounds_up 1 (2 ^ 49 - 1) 1 49); lia.
Defined.
